(** * Near-Clifford training circuits

    A shallow embedding of [mitiq/cdr/clifford_training_data.py] and the
    properties of it that the specification states.

    Modelling conventions.
    - Angles are real numbers ([R]); the rounding of IEEE doubles is not
      modelled.  [np.pi] is [PI].
    - Python exceptions are values of [exn]; a computation that may raise
      returns a [result].
    - The two global random generators the module draws from (Python's
      [random] and [numpy.random]) are modelled by two tapes of naturals,
      each with a cursor.  A primitive draw reads the tape at the cursor and
      advances it, so every outcome in the support of a library call is
      reached by some tape, and "no draw has been made" is "the cursors did
      not move".  Probabilities are kept as the weights the code computes;
      the model of a weighted draw only uses which weights are positive.
    - [np.vectorize] is modelled with the two behaviours of numpy that the
      module is exposed to: it refuses size-0 inputs (no [otypes] is given
      anywhere in the module), and it calls the wrapped function once on the
      first element to find the output type before mapping it over the
      whole input.
    - The data array built by [_circuit_to_array] is a table of columns, one
      per gate, each with the five row entries of the numpy array.
    - A [cirq] circuit is the sequence of the operations appended to it;
      its moment structure is not modelled. *)

From Stdlib Require Import Reals Lra Lia ZArith.
From stdpp Require Import base option list gmap strings sorting.

(** Comparisons of reals, as the [decide] of stdpp. *)
#[global] Instance Rlt_decision : RelDecision Rlt := Rlt_dec.
#[global] Instance Rle_decision : RelDecision Rle := Rle_dec.
#[global] Instance Rgt_decision : RelDecision Rgt := Rgt_dec.
#[global] Instance Req_decision : EqDecision R := Req_dec_T.

(** ** Exceptions, results, and the random source *)

Inductive exn : Type :=
| ValueError (msg : string)
| IndexError
| TypeError
| Exception_ (msg : string).

Inductive result (A : Type) : Type :=
| Ok (a : A)
| Raise (e : exn).
Arguments Ok {A} a.
Arguments Raise {A} e.

Record random_state : Type := RandomState {
  py_tape : nat -> nat;   (* draws of Python's [random] module *)
  py_pos : nat;
  np_tape : nat -> nat;   (* draws of [numpy.random] *)
  np_pos : nat
}.

(** A state of the random source for closed examples. *)
Definition zero_state : random_state :=
  RandomState (fun _ => 0) 0 (fun _ => 0) 0.

(** Number of primitive draws made so far. *)
Definition draws_made (s : random_state) : nat := py_pos s + np_pos s.

(** Computations that read the random source and may raise. *)
Definition M (A : Type) : Type := random_state -> result A * random_state.

Definition ret {A} (a : A) : M A := fun s => (Ok a, s).

Definition raise {A} (e : exn) : M A := fun s => (Raise e, s).

Definition bind {A B} (m : M A) (k : A -> M B) : M B :=
  fun s => match m s with
           | (Ok a, s') => k a s'
           | (Raise e, s') => (Raise e, s')
           end.

Definition lift {A} (r : result A) : M A := fun s => (r, s).

(** A computation that raises from every state of the random source. *)
Definition raises {A} (m : M A) : Prop :=
  forall s, exists e s', m s = (Raise e, s').

Notation "x <- c ;; k" := (bind c (fun x => k))
  (at level 20, c at level 99, k at level 200, only parsing).

Fixpoint mmap {A B} (f : A -> M B) (l : list A) : M (list B) :=
  match l with
  | [] => ret []
  | x :: l' => y <- f x ;; ys <- mmap f l' ;; ret (y :: ys)
  end.

Definition rbind {A B} (r : result A) (k : A -> result B) : result B :=
  match r with
  | Ok a => k a
  | Raise e => Raise e
  end.

Fixpoint rmap {A B} (f : A -> result B) (l : list A) : result (list B) :=
  match l with
  | [] => Ok []
  | x :: l' => rbind (f x) (fun y => rbind (rmap f l') (fun ys => Ok (y :: ys)))
  end.

(** *** Python's [random] module *)

Definition advance_py (s : random_state) : random_state :=
  RandomState (py_tape s) (S (py_pos s)) (np_tape s) (np_pos s).

Definition py_randbelow (n : nat) : M nat :=
  fun s => (Ok (py_tape s (py_pos s) mod n), advance_py s).

(** [random.choice(seq)] is [seq[randbelow(len(seq))]]. *)
Definition choice {A} (seq : list A) : M A :=
  i <- py_randbelow (length seq) ;;
  match seq !! i with
  | Some x => ret x
  | None => raise IndexError
  end.

(** [random.randint(a, b)] for naturals [a <= b]. *)
Definition randint (a b : nat) : M nat :=
  i <- py_randbelow (S b - a) ;; ret (a + i).

(** Sampling without replacement with a given primitive draw: one draw per
    selected element, from the elements not yet selected. *)
Fixpoint sample_from {A} (randbelow : nat -> M nat) (pool : list A) (k : nat)
  : M (list A) :=
  match k with
  | O => ret []
  | S k' =>
      j <- randbelow (length pool) ;;
      match pool !! j with
      | Some x => rest <- sample_from randbelow (delete j pool) k' ;; ret (x :: rest)
      | None => raise IndexError
      end
  end.

(** [random.sample(population, k)]. *)
Definition sample {A} (population : list A) (k : Z) : M (list A) :=
  if decide (0 <= k <= Z.of_nat (length population))%Z
  then sample_from py_randbelow population (Z.to_nat k)
  else raise (ValueError "Sample larger than population or is negative").

(** *** [numpy.random] *)

Definition advance_np (s : random_state) : random_state :=
  RandomState (py_tape s) (py_pos s) (np_tape s) (S (np_pos s)).

Definition np_randbelow (n : nat) : M nat :=
  fun s => (Ok (np_tape s (np_pos s) mod n), advance_np s).

(** The entries of [a] whose weight in [p] is positive. *)
Definition support {A} (a : list A) (p : list R) : list A :=
  (filter (fun ap => (0 < ap.2)%R) (zip a p)).*1.

(** [np.random.choice(a, size, replace=False, p=p)]: [size] distinct entries
    of [a], each of positive weight. *)
Definition np_random_choice {A} (a : list A) (size : Z) (p : list R)
  : M (list A) :=
  if decide (a = [] :> list A) then raise (ValueError "a must be non-empty")
  else if decide (length p ≠ length a)
  then raise (ValueError "a and p must have same size")
  else if decide (size < 0)%Z
  then raise (ValueError "negative dimensions are not allowed")
  else if decide (Z.of_nat (length a) < size)%Z
  then raise (ValueError "Cannot take a larger sample than population when 'replace=False'")
  else if decide (Z.of_nat (length (support a p)) < size)%Z
  then raise (ValueError "Fewer non-zero entries in p than size")
  else sample_from np_randbelow (support a p) (Z.to_nat size).

(** *** [np.vectorize] *)

(** A 0-dimensional or a 1-dimensional numpy array. *)
Inductive ndarray (A : Type) : Type :=
| Scalar (x : A)
| Array (xs : list A).
Arguments Scalar {A} x.
Arguments Array {A} xs.

Definition vectorize_msg : string :=
  "cannot call `vectorize` on size 0 inputs unless `otypes` is set".

Definition np_vectorize {A B} (pyfunc : A -> M B) (arg : ndarray A)
  : M (ndarray B) :=
  match arg with
  | Scalar x => _ <- pyfunc x ;; y <- pyfunc x ;; ret (Scalar y)
  | Array [] => raise (ValueError vectorize_msg)
  | Array (x :: xs) =>
      _ <- pyfunc x ;; ys <- mmap pyfunc (x :: xs) ;; ret (Array ys)
  end.

(** The entries of a 1-dimensional array. *)
Definition entries {A} (a : ndarray A) : M (list A) :=
  match a with
  | Array xs => ret xs
  | Scalar _ => raise TypeError
  end.

(** The value of a 0-dimensional array. *)
Definition item {A} (a : ndarray A) : M A :=
  match a with
  | Scalar x => ret x
  | Array _ => raise TypeError
  end.

(** A cell of the parameter row: [None] or a float. *)
Definition as_float (cell : option R) : M R :=
  match cell with
  | Some x => ret x
  | None => raise TypeError
  end.

(** ** Real-number primitives *)

Section numerics.
Local Open Scope R_scope.

(** Python's [x % m] on floats, for [m > 0]. *)
Definition py_mod (x m : R) : R := x - IZR (Zfloor (x / m)) * m.

(** Python's [int(x)]: truncation towards zero. *)
Definition py_int (x : R) : Z :=
  if decide (0 <= x) then Zfloor x else Zceil x.

(** [np.round]: to the nearest integer, halves to the even neighbour. *)
Definition np_round (x : R) : Z :=
  let f := Zfloor x in
  let d := x - IZR f in
  if decide (d < 0.5) then f
  else if decide (0.5 < d) then (f + 1)%Z
  else if Z.even f then f else (f + 1)%Z.

(** Indexing a tuple with a Python integer. *)
Definition getitem {A} (t : list A) (i : Z) : result A :=
  let n := Z.of_nat (length t) in
  let j := if decide (i < 0)%Z then (i + n)%Z else i in
  if decide (0 <= j)%Z then
    match t !! Z.to_nat j with
    | Some x => Ok x
    | None => Raise IndexError
    end
  else Raise IndexError.

(** Global variable of Clifford angles in Rz gates. *)
Definition CLIFFORD_ANGLES : list R := [0; PI / 2; PI; (3 / 2) * PI].

(** *** [_closest_clifford] *)

(** Two quantities that the body of [_closest_clifford] computes, named for
    the statements below: the scaled coordinate [ang_scaled] of an angle, and
    the condition of its [if]. *)
Definition scaled (theta : R) : R := py_mod theta (2 * PI) / (PI / 2).

Definition deterministic_zone (ang_scaled : R) : Prop :=
  Rabs (ang_scaled / 0.5 - 1) > 1e-6
  /\ Rabs (ang_scaled / 0.5 - 3) > 1e-6
  /\ Rabs (ang_scaled / 0.5 - 5) > 1e-6.

#[global] Instance deterministic_zone_dec s : Decision (deterministic_zone s).
Proof. unfold deterministic_zone. apply _. Defined.

Definition _closest_clifford_scalar (ang : R) : M R :=
  let ang := py_mod ang (2 * PI) in
  let ang_scaled := ang / (PI / 2) in
  if decide (deterministic_zone ang_scaled)
  then
    let index := (np_round ang_scaled mod 4)%Z in
    lift (getitem CLIFFORD_ANGLES index)
  else
    let index_list := [ang_scaled - 0.5; ang_scaled + 0.5] in
    x <- choice index_list ;;
    let index := py_int x in
    lift (getitem CLIFFORD_ANGLES index).

(** [_closest_clifford = np.vectorize(_closest_clifford)] *)
Definition _closest_clifford : ndarray R -> M (ndarray R) :=
  np_vectorize _closest_clifford_scalar.

(** *** [_is_clifford_angle] *)

Definition _is_clifford_angle_scalar (ang : R) (tol : R) : M bool :=
  let ang := py_mod ang (2 * PI) in
  a <- _closest_clifford (Scalar ang) ;;
  closest_clifford_angle <- item a ;;
  if decide (Rabs (closest_clifford_angle - ang) < tol)
  then ret true
  else ret false.

(** [_is_clifford_angle = np.vectorize(_is_clifford_angle)], called with the
    default [tol = 10 ** -5]. *)
Definition _is_clifford_angle : ndarray R -> M (ndarray bool) :=
  np_vectorize (fun ang => _is_clifford_angle_scalar ang 1e-5).

(** The entry of [index_list] that [choice] picks in state [s]. *)
Definition tie_pick (s : random_state) (ang_scaled : R) : R :=
  if decide (py_tape s (py_pos s) mod 2 = 0)%nat
  then ang_scaled - 0.5 else ang_scaled + 0.5.

(** The classification that [_is_clifford_angle] computes, as a function of
    the angle alone (see [is_clifford_angle_scalar_run]). *)
Definition is_clifford (theta : R) : bool :=
  bool_decide (deterministic_zone (scaled theta)
               /\ Rabs (IZR (np_round (scaled theta) mod 4) * (PI / 2)
                         - py_mod theta (2 * PI)) < 1e-5).

(** *** [_random_clifford] *)

Definition _random_clifford_scalar (ang : R) : M R :=
  random_index <- randint 0 3 ;;
  lift (getitem CLIFFORD_ANGLES (Z.of_nat random_index)).

Definition _random_clifford : ndarray R -> M (ndarray R) :=
  np_vectorize _random_clifford_scalar.

(** *** Complex numbers and 2x2 matrices, as far as the module uses them *)

Definition C : Type := R * R.

Definition Csub (a b : C) : C := (a.1 - b.1, a.2 - b.2).

Definition Cmul (a b : C) : C :=
  (a.1 * b.1 - a.2 * b.2, a.1 * b.2 + a.2 * b.1).

Fixpoint Cpow (a : C) (n : nat) : C :=
  match n with
  | O => (1, 0)
  | S n' => Cmul a (Cpow a n')
  end.

(** [np.exp(t * 1j)] *)
Definition Cexp_i (t : R) : C := (cos t, sin t).

Definition Cabs2 (a : C) : R := a.1 * a.1 + a.2 * a.2.

Definition matrix : Type := list (list C).

(** [A - B], elementwise. *)
Definition mat_sub (a b : matrix) : matrix := zip_with (zip_with Csub) a b.

(** [A ** n] on a numpy array: the elementwise power. *)
Definition mat_pow (a : matrix) (n : nat) : matrix :=
  map (map (fun z => Cpow z n)) a.

(** [np.linalg.norm]: the Frobenius norm. *)
Definition np_linalg_norm (a : matrix) : R :=
  sqrt (foldr Rplus 0 (map Cabs2 (concat a))).

(** Python's [sum] of a list of floats. *)
Definition py_sum (l : list R) : R := foldl Rplus 0 l.

(** The list [dists] that both probabilistic functions build: the loop
    [for i in range(4)] with [i = 4] for [i == 0]. *)
Definition clifford_dists (angle sigma : R) : list R :=
  let S_ : matrix := [[(1, 0); (0, 0)]; [(0, 0); (0, 1)]] in
  let Rz : matrix := [[(1, 0); (0, 0)]; [(0, 0); Cexp_i angle]] in
  map (fun i : nat =>
         let i := if decide (i = 0%nat) then 4%nat else i in
         let diff := np_linalg_norm (mat_sub Rz (mat_pow S_ i)) in
         exp (- (diff / sigma) ^ 2))
      (seq 0 4).

(** *** [_angle_to_probabilities] *)

Definition _angle_to_probabilities_scalar (angle sigma : R) : M R :=
  let angle := py_mod angle (2 * PI) in
  let dists := clifford_dists angle sigma in
  ret (py_sum dists).

Definition _angle_to_probabilities (angle : ndarray R) (sigma : R)
  : M (ndarray R) :=
  np_vectorize (fun a => _angle_to_probabilities_scalar a sigma) angle.

(** The weights in the words of the specification: [spec_distance theta k]
    is the Frobenius distance between [diag(1, e^{i theta})] and the Clifford
    phase gate [S^k = diag(1, e^{i k pi / 2})], and [spec_weight] is
    [exp(-(d / sigma)^2)] of it. *)
Definition spec_distance (theta : R) (k : nat) : R :=
  sqrt ((cos theta - cos (INR k * (PI / 2))) ^ 2
        + (sin theta - sin (INR k * (PI / 2))) ^ 2).

Definition spec_weight (theta sigma : R) (k : nat) : R :=
  exp (- (spec_distance theta k / sigma) ^ 2).


(** The sum of the four weights of one angle. *)
Definition total_weight (theta sigma : R) : R :=
  spec_weight theta sigma 1 + spec_weight theta sigma 2
  + spec_weight theta sigma 3 + spec_weight theta sigma 4.

(** *** [_probabilistic_angle_to_clifford] *)

Definition _probabilistic_angle_to_clifford_scalar (ang sigma : R) : M R :=
  let ang := py_mod ang (2 * PI) in
  let dists := clifford_dists ang sigma in
  let prob_gate := map (fun i => i / py_sum dists) dists in
  cliff_ang <- np_random_choice CLIFFORD_ANGLES 1 prob_gate ;;
  match cliff_ang with
  | [x] => ret x
  | _ => raise TypeError
  end.

Definition _probabilistic_angle_to_clifford (ang : ndarray R) (sigma : R)
  : M (ndarray R) :=
  np_vectorize (fun a => _probabilistic_angle_to_clifford_scalar a sigma) ang.

End numerics.

(** ** Circuits and the data array *)

Definition Qid : Type := nat.

(** The gates of [cirq], as far as [_circuit_to_array] tells them apart:
    the class of the gate, the exponent of a [ZPowGate], and whether an
    [XPowGate] equals [cirq.X]. *)
Inductive Gate : Type :=
| CXPowGate
| ZPowGate (exponent : R)
| XPowGate (is_X : bool)
| MeasurementGate
| OtherGate.

Record Operation : Type := GateOperation {
  gate : Gate;
  qubits : list Qid
}.

Definition Circuit : Type := list Operation.

(** An entry of the qubit row: one qubit, or the list [[q0, q1]]. *)
Inductive qubit_cell : Type :=
| Qubit (q : Qid)
| QubitPair (q0 q1 : Qid).

(** One column of [np.array([order, names, parameters, qubits, operations])]. *)
Record column : Type := Column {
  order : nat;
  name : string;
  parameter : option R;
  qubit : qubit_cell;
  operation : Operation
}.

(** The five lists that the loop of [_circuit_to_array] fills. *)
Record rows : Type := Rows {
  order_list : list nat;
  gates_list : list string;
  parameters_list : list (option R);
  qubits_list : list qubit_cell;
  operation_list : list Operation
}.

(** [np.array] of five lists: a 2-dimensional table of Python objects when
    they have one length (the two qubits of a [cx] gate are one entry, a
    list), and otherwise an array that has no second axis. *)
Inductive data_array : Type :=
| Table (cols : list column)
| Ragged.

Fixpoint zip_columns (o : list nat) (g : list string) (p : list (option R))
    (q : list qubit_cell) (ops : list Operation) : list column :=
  match o, g, p, q, ops with
  | o1 :: o', g1 :: g', p1 :: p', q1 :: q', op1 :: ops' =>
      Column o1 g1 p1 q1 op1 :: zip_columns o' g' p' q' ops'
  | _, _, _, _, _ => []
  end.

Definition np_array (r : rows) : data_array :=
  let n := length (order_list r) in
  if decide (length (gates_list r) = n /\ length (parameters_list r) = n
             /\ length (qubits_list r) = n /\ length (operation_list r) = n)
  then Table (zip_columns (order_list r) (gates_list r) (parameters_list r)
                (qubits_list r) (operation_list r))
  else Ragged.

(** [data[k, :]] and [data[:, mask]] need the second axis. *)
Definition columns (data : data_array) : result (list column) :=
  match data with
  | Table cols => Ok cols
  | Ragged => Raise IndexError
  end.

(** [qubits[i]] *)
Definition qubit_at (qs : list Qid) (i : nat) : result Qid :=
  match qs !! i with
  | Some q => Ok q
  | None => Raise IndexError
  end.

Definition append_gate (acc : rows) (nm : string) (p : option R)
    (q : qubit_cell) : rows :=
  Rows (order_list acc) (gates_list acc ++ [nm]) (parameters_list acc ++ [p])
       (qubits_list acc ++ [q]) (operation_list acc).

(** The body of the loop of [_circuit_to_array]. *)
Definition encode_step (acc : rows) (i : nat) (op : Operation) : result rows :=
  let acc := Rows (order_list acc ++ [i]) (gates_list acc)
               (parameters_list acc) (qubits_list acc)
               (operation_list acc ++ [op]) in
  match gate op with
  | CXPowGate =>
      rbind (qubit_at (qubits op) 0) (fun q0 =>
      rbind (qubit_at (qubits op) 1) (fun q1 =>
      Ok (append_gate acc "cx" None (QubitPair q0 q1))))
  | ZPowGate exponent =>
      rbind (qubit_at (qubits op) 0) (fun q =>
      Ok (append_gate acc "rz" (Some (exponent * PI)%R) (Qubit q)))
  | XPowGate false =>
      rbind (qubit_at (qubits op) 0) (fun q =>
      Ok (append_gate acc "rx" (Some (PI / 2)%R) (Qubit q)))
  | XPowGate true =>
      rbind (qubit_at (qubits op) 0) (fun q =>
      Ok (append_gate acc "x" None (Qubit q)))
  | MeasurementGate =>
      rbind (qubit_at (qubits op) 0) (fun q =>
      Ok (append_gate acc "measure" None (Qubit q)))
  | OtherGate => Ok acc
  end.

(** The name, parameter and qubit entries that one pass of the loop appends
    for an operation; [None] for a gate that no branch recognizes and for an
    operation with too few qubits. *)
Definition gate_cells (op : Operation)
  : option (string * option R * qubit_cell) :=
  match gate op, qubits op with
  | CXPowGate, q0 :: q1 :: _ => Some ("cx", None, QubitPair q0 q1)
  | ZPowGate exponent, q :: _ => Some ("rz", Some (exponent * PI)%R, Qubit q)
  | XPowGate false, q :: _ => Some ("rx", Some (PI / 2)%R, Qubit q)
  | XPowGate true, q :: _ => Some ("x", None, Qubit q)
  | MeasurementGate, q :: _ => Some ("measure", None, Qubit q)
  | _, _ => None
  end.

(** The column of the table and the operation of the circuit it was made
    from. *)
Definition encodes (op : Operation) (c : column) : Prop :=
  gate_cells op = Some (name c, parameter c, qubit c) /\ operation c = op.

Fixpoint encode_loop (acc : rows) (i : nat) (operations : list Operation)
  : result rows :=
  match operations with
  | [] => Ok acc
  | op :: operations' =>
      rbind (encode_step acc i op) (fun acc' => encode_loop acc' (S i) operations')
  end.

Definition _circuit_to_array (circuit : Circuit) : result (data_array * Circuit) :=
  rbind (encode_loop (Rows [] [] [] [] []) 0 circuit) (fun r =>
  let circuit_empty : Circuit := [] in
  Ok (np_array r, circuit_empty)).

(** [cirq.ops.rz(rads)] is [ZPowGate(exponent=rads / pi, global_shift=-0.5)];
    [cirq.ops.rx(rads)] is an [XPowGate] that is not [cirq.X]. *)
Definition cirq_rz (rads : R) : Gate := ZPowGate (rads / PI)%R.
Definition cirq_rx (rads : R) : Gate := XPowGate false.
Definition cirq_CNOT : Gate := CXPowGate.
Definition cirq_X : Gate := XPowGate true.

(** The body of the loop of [_array_to_circuit]: what column [c] appends. *)
Definition decode_step (circuit : Circuit) (c : column) : result Circuit :=
  if decide (name c = "rz") then
    match parameter c, qubit c with
    | Some p, Qubit q => Ok (circuit ++ [GateOperation (cirq_rz p) [q]])
    | _, _ => Raise TypeError
    end
  else if decide (name c = "rx") then
    match parameter c, qubit c with
    | Some p, Qubit q => Ok (circuit ++ [GateOperation (cirq_rx p) [q]])
    | _, _ => Raise TypeError
    end
  else if decide (name c = "cx") then
    match qubit c with
    | QubitPair q0 q1 => Ok (circuit ++ [GateOperation cirq_CNOT [q0; q1]])
    | Qubit _ => Raise TypeError
    end
  else if decide (name c = "x") then
    match qubit c with
    | Qubit q => Ok (circuit ++ [GateOperation cirq_X [q]])
    | QubitPair _ _ => Raise TypeError
    end
  else if decide (name c = "measure") then Ok (circuit ++ [operation c])
  else Ok circuit.

Fixpoint _array_to_circuit (data : list column) (empty_circuit : Circuit)
  : result Circuit :=
  match data with
  | [] => Ok empty_circuit
  | c :: data' =>
      rbind (decode_step empty_circuit c) (fun circuit =>
      _array_to_circuit data' circuit)
  end.

(** ** Operations on the columns of the table *)

(** [a[:, mask]] for a boolean mask of the length of the row. *)
Fixpoint mask_select {A} (l : list A) (mask : list bool) : list A :=
  match l, mask with
  | x :: l', b :: mask' =>
      if b then x :: mask_select l' mask' else mask_select l' mask'
  | _, _ => []
  end.

(** [a[:, idx]] for a list of column indices. *)
Definition take_columns {A} (l : list A) (idx : list nat) : result (list A) :=
  rmap (fun j => match l !! j with
                 | Some c => Ok c
                 | None => Raise IndexError
                 end) idx.

(** [np.delete(a, idx, axis=1)] for in-range indices. *)
Definition np_delete {A} (l : list A) (idx : list nat) : list A :=
  (filter (fun jc => jc.1 ∉ idx) (zip (seq 0 (length l)) l)).*2.

(** [np.argsort] of a row of naturals: the positions, sorted by their key. *)
Definition key_le (a b : nat * nat) : Prop := a.1 <= b.1.

#[global] Instance key_le_dec : RelDecision key_le.
Proof. intros a b. unfold key_le. apply _. Defined.

Definition np_argsort (keys : list nat) : list nat :=
  (merge_sort key_le (zip keys (seq 0 (length keys)))).*2.

(** [a[2, :] = values] on the selected columns. *)
Definition with_parameter (c : column) (v : R) : column :=
  Column (order c) (name c) (Some v) (qubit c) (operation c).

Definition set_parameters (cols : list column) (values : list R) : list column :=
  zip_with with_parameter cols values.

(** ** [count_non_cliffords] *)

(** A vectorized function of the oracle on a row of cells of the table.  The
    cells of an [rz] column are floats; on a [None] cell the wrapped function
    raises [TypeError]. *)
Definition on_cells {B} (f : ndarray R -> M (ndarray B)) (row : list (option R))
  : M (list B) :=
  angles <- mmap as_float row ;;
  a <- f (Array angles) ;;
  entries a.

Definition count_non_cliffords (circuit : Circuit) : M nat :=
  r <- lift (_circuit_to_array circuit) ;;
  let data := r.1 in
  cols <- lift (columns data) ;;
  let rz_circ_data := filter (fun c => name c = "rz") cols in
  mask_non_cliff <- on_cells _is_clifford_angle (parameter <$> rz_circ_data) ;;
  let mask_non_cliff := negb <$> mask_non_cliff in
  let rz_non_cliff := mask_select rz_circ_data mask_non_cliff in
  ret (length rz_non_cliff).

(** *** What the classification returns, without the random source

    [_is_clifford_angle] reads the random source at midpoints, but its answer
    does not depend on what it reads ([on_cells_is_clifford_run]); these are
    the values that [count_non_cliffords] and the first part of
    [generate_training_circuits] return from every state. *)

Definition floats (row : list (option R)) : result (list R) :=
  rmap (fun cell => match cell with
                    | Some x => Ok x
                    | None => Raise TypeError
                    end) row.

Definition classify_row (row : list (option R)) : result (list bool) :=
  rbind (floats row) (fun angles =>
  match angles with
  | [] => Raise (ValueError vectorize_msg)
  | _ => Ok (is_clifford <$> angles)
  end).

Definition count_result (circuit : Circuit) : result nat :=
  rbind (_circuit_to_array circuit) (fun r =>
  rbind (columns r.1) (fun cols =>
  let rz_circ_data := filter (fun c => name c = "rz") cols in
  rbind (classify_row (parameter <$> rz_circ_data)) (fun mask =>
  Ok (length (mask_select rz_circ_data (negb <$> mask)))))).

(** ** [_map_to_near_clifford] *)

(** A value passed as a keyword argument: [None], a float, or a dictionary
    from strings to floats. *)
Inductive kwvalue : Type :=
| KwNone
| KwFloat (x : R)
| KwDict (d : gmap string R).

Definition options_msg : string :=
  "additional options must be dicitonary with keys containing one or both of 'sigma_select' and 'sigma_replace' both equal to some positive float".
Definition select_msg : string :=
  "method_select must = 'random', 'probabilistic'".
Definition replace_msg : string :=
  "method_replace must = 'closest', 'random', 'probabilistic'".

(** The block of [_map_to_near_clifford] that reads [additional_options]
    and binds [sigma_select] and [sigma_replace] (the [if additional_options:]
    statement with its defaults).  A float is falsy when it is zero, a
    dictionary when it is empty; [in] on a float raises [TypeError]. *)
Definition resolve_sigmas (additional_options : kwvalue) : result (R * R) :=
  let defult_sigma_select := 0.5%R in
  let defult_sigma_replace := 0.5%R in
  match additional_options with
  | KwNone => Ok (defult_sigma_select, defult_sigma_replace)
  | KwFloat x =>
      if decide (x = 0%R) then Ok (defult_sigma_select, defult_sigma_replace)
      else Raise TypeError
  | KwDict d =>
      if decide (d = ∅) then Ok (defult_sigma_select, defult_sigma_replace)
      else
        match d !! "sigma_select" with
        | Some sigma_select =>
            match d !! "sigma_replace" with
            | Some sigma_replace => Ok (sigma_select, sigma_replace)
            | None => Ok (sigma_select, defult_sigma_replace)
            end
        | None =>
            match d !! "sigma_replace" with
            | Some sigma_replace => Ok (defult_sigma_select, sigma_replace)
            | None => Raise (Exception_ options_msg)
            end
        end
  end.

(** The selection step: the columns to change. *)
Definition select_columns (rz_non_cliff_copy : list column)
    (total_non_cliff : nat) (N : Z) (method_select : string) (sigma_select : R)
  : M (list nat) :=
  if decide (method_select = "random") then
    sample (seq 0 total_non_cliff) (Z.of_nat total_non_cliff - N)
  else if decide (method_select = "probabilistic") then
    let non_cliff_angles := parameter <$> rz_non_cliff_copy in
    probabilities <-
      on_cells (fun a => _angle_to_probabilities a sigma_select) non_cliff_angles ;;
    let prob_choose_gate :=
      map (fun k => (k / py_sum probabilities)%R) probabilities in
    np_random_choice (seq 0 total_non_cliff) (Z.of_nat total_non_cliff - N)
      prob_choose_gate
  else raise (Exception_ select_msg).

(** The replacement step: the new angles of the selected columns. *)
Definition replace_angles (selected_angles : list (option R))
    (method_replace : string) (sigma_replace : R) : M (list R) :=
  if decide (method_replace = "closest") then
    on_cells _closest_clifford selected_angles
  else if decide (method_replace = "random") then
    on_cells _random_clifford selected_angles
  else if decide (method_replace = "probabilistic") then
    on_cells (fun a => _probabilistic_angle_to_clifford a sigma_replace)
      selected_angles
  else raise (Exception_ replace_msg).

(** [_map_to_near_clifford] up to [projected_circuit_data], the table that
    is handed to [_array_to_circuit]. *)
Definition near_clifford_data (rz_non_cliff all_cliff : list column)
    (total_non_cliff : nat) (fraction_non_clifford : R)
    (method_select method_replace : string) (kwargs : gmap string kwvalue)
  : M (list column * list (option R) * list (option R)) :=
  let N := py_int (fraction_non_clifford * INR total_non_cliff) in
  let rz_non_cliff_copy := rz_non_cliff in
  let additional_options := default KwNone (kwargs !! "additional_options") in
  sigmas <- lift (resolve_sigmas additional_options) ;;
  let sigma_select := sigmas.1 in
  let sigma_replace := sigmas.2 in
  columns_to_change <-
    select_columns rz_non_cliff_copy total_non_cliff N method_select sigma_select ;;
  rz_non_cliff_selected <- lift (take_columns rz_non_cliff_copy columns_to_change) ;;
  let rz_non_cliff_copy := np_delete rz_non_cliff_copy columns_to_change in
  let angles_original := parameter <$> rz_non_cliff_selected in
  new_angles <-
    replace_angles (parameter <$> rz_non_cliff_selected) method_replace sigma_replace ;;
  let rz_non_cliff_selected := set_parameters rz_non_cliff_selected new_angles in
  let angles_replaced := parameter <$> rz_non_cliff_selected in
  let new_circ := all_cliff ++ rz_non_cliff_selected in
  let new_circ := new_circ ++ rz_non_cliff_copy in
  let i := np_argsort (order <$> new_circ) in
  projected_circuit_data <- lift (take_columns new_circ i) ;;
  ret (projected_circuit_data, angles_original, angles_replaced).

Definition _map_to_near_clifford (rz_non_cliff all_cliff : list column)
    (empty_circuit : Circuit) (total_non_cliff : nat)
    (fraction_non_clifford : R) (method_select method_replace : string)
    (kwargs : gmap string kwvalue)
  : M (Circuit * list (option R) * list (option R)) :=
  let empty_circuit_copy := empty_circuit in
  r <- near_clifford_data rz_non_cliff all_cliff total_non_cliff
         fraction_non_clifford method_select method_replace kwargs ;;
  let '(projected_circuit_data, angles_original, angles_replaced) := r in
  projected_circuit <-
    lift (_array_to_circuit projected_circuit_data empty_circuit_copy) ;;
  ret (projected_circuit, angles_original, angles_replaced).

(** ** [generate_training_circuits] *)

(** The three lists the loop appends to. *)
Definition training_set : Type :=
  list Circuit * list (list (option R)) * list (list (option R)).

Fixpoint training_loop (n : nat)
    (body : M (Circuit * list (option R) * list (option R)))
    (acc : training_set) : M training_set :=
  match n with
  | O => ret acc
  | S n' =>
      r <- body ;;
      let '(projected_circuit, angles_original, angles_replaced) := r in
      let '(circuits_list, angles_original_list, angles_replaced_list) := acc in
      training_loop n' body
        (circuits_list ++ [projected_circuit],
         angles_original_list ++ [angles_original],
         angles_replaced_list ++ [angles_replaced])
  end.

(** The part of [generate_training_circuits] before the loop: the
    non-Clifford [rz] columns and all the other columns. *)
Definition split_circuit (circuit : Circuit)
  : M (list column * list column * Circuit) :=
  r <- lift (_circuit_to_array circuit) ;;
  let '(data, empty_circuit) := r in
  cols <- lift (columns data) ;;
  let rz_circ_data := filter (fun c => name c = "rz") cols in
  let not_rz_circ_data := filter (fun c => name c ≠ "rz") cols in
  mask_non_cliff <- on_cells _is_clifford_angle (parameter <$> rz_circ_data) ;;
  let mask_non_cliff := negb <$> mask_non_cliff in
  let rz_non_cliff := mask_select rz_circ_data mask_non_cliff in
  mask_cliff <- on_cells _is_clifford_angle (parameter <$> rz_circ_data) ;;
  let rz_cliff := mask_select rz_circ_data mask_cliff in
  let all_cliff := not_rz_circ_data ++ rz_cliff in
  ret (rz_non_cliff, all_cliff, empty_circuit).

Definition generate_training_circuits (circuit : Circuit)
    (num_training_circuits : nat) (fraction_non_clifford : R)
    (method_select method_replace : string)
    (additional_options : gmap string kwvalue) : M training_set :=
  r <- split_circuit circuit ;;
  let '(rz_non_cliff, all_cliff, empty_circuit) := r in
  let total_non_cliff := length rz_non_cliff in
  let body :=
    if decide (additional_options ≠ ∅) then
      _map_to_near_clifford rz_non_cliff all_cliff empty_circuit
        total_non_cliff fraction_non_clifford method_select method_replace
        {[ "additional_options" :=
             default KwNone (additional_options !! "additional_options") ]}
    else
      _map_to_near_clifford rz_non_cliff all_cliff empty_circuit
        total_non_cliff fraction_non_clifford method_select method_replace ∅ in
  training_loop num_training_circuits body ([], [], []).


(** The keyword arguments that a call of [generate_training_circuits] with
    the keyword arguments [additional_options] passes to
    [_map_to_near_clifford], and the value that [_map_to_near_clifford] then
    reads as its own [additional_options]. *)
Definition forwarded_kwargs (additional_options : gmap string kwvalue)
  : gmap string kwvalue :=
  if decide (additional_options ≠ ∅)
  then {[ "additional_options" :=
            default KwNone (additional_options !! "additional_options") ]}
  else ∅.

Definition options_read (additional_options : gmap string kwvalue) : kwvalue :=
  default KwNone (forwarded_kwargs additional_options !! "additional_options").

(** ** A circuit for closed examples

    One [rz] gate of angle [pi / 8] on qubit 0 ([ZPowGate] of exponent
    [1 / 8]), and the column of the table that encodes it. *)
Definition rz_eighth : Operation := GateOperation (ZPowGate (1 / 8)) [0].

Definition rz_eighth_column : column :=
  Column 0 "rz" (Some (1 / 8 * PI)%R) (Qubit 0) rz_eighth.

(** ** The ordering invariant

    [rewritten changed c c']: the column [c'] of a rewritten table is the
    column [c] of the original table, or [c] is an [rz] column whose [order]
    is in [changed] and [c'] is [c] with another angle.
    [same_instruction op op']: the encoder reads the same kind and the same
    qubit operands from both operations, and the same angle unless they are
    [rz] gates. *)
Definition rewritten (changed : list nat) (c c' : column) : Prop :=
  c' = c
  \/ (order c ∈ changed /\ name c = "rz" /\ exists v, c' = with_parameter c v).

Definition same_instruction (op op' : Operation) : Prop :=
  exists nm p p' q,
    gate_cells op = Some (nm, p, q)
    /\ gate_cells op' = Some (nm, p', q)
    /\ (p' = p \/ nm = "rz").


(** The results of the iterations, one triple per training circuit. *)
Definition triples (t : training_set)
  : list (Circuit * list (option R) * list (option R)) :=
  zip (zip t.1.1 t.1.2) t.2.

(** ** Counting, in terms of the circuit

    [recognized op]: the loop of [_circuit_to_array] appends a name, a
    parameter and a qubit entry for [op].  [non_clifford_rz op]: [op] is an
    [rz] gate ([ZPowGate]) whose angle [exponent * pi] is not classified as
    Clifford; [non_clifford_column] is the same test on a column of the
    table. *)
Definition recognized (op : Operation) : Prop := is_Some (gate_cells op).

Definition non_clifford_rz (op : Operation) : bool :=
  match gate op with
  | ZPowGate exponent => negb (is_clifford (exponent * PI))
  | _ => false
  end.

Definition non_clifford_column (c : column) : bool :=
  bool_decide (name c = "rz")
  && match parameter c with
     | Some p => negb (is_clifford p)
     | None => false
     end.

Definition count_non_clifford_rz (circuit : Circuit) : nat :=
  length (filter (fun op => non_clifford_rz op = true) circuit).

Definition has_rz (circuit : Circuit) : Prop :=
  exists op exponent, op ∈ circuit /\ gate op = ZPowGate exponent.

(** ** What a training circuit is

    [near_clifford circuit fraction (out, angles_original, angles_replaced)],
    with [total] the number of non-Clifford [rz] gates of [circuit] and
    [N = int(fraction * total)]: every operation of [out] is recognized and
    [out] has an [rz] gate, so that [out] can be counted and used in turn;
    [out] has [N] non-Clifford [rz] gates; and the two lists have one entry
    for each of the [total - N] gates replaced, an angle that is not
    classified as Clifford in [angles_original] and an entry of
    [CLIFFORD_ANGLES] in [angles_replaced]. *)
Definition near_clifford (circuit : Circuit) (fraction : R)
    (r : Circuit * list (option R) * list (option R)) : Prop :=
  let '(out, angles_original, angles_replaced) := r in
  let total := count_non_clifford_rz circuit in
  let N := py_int (fraction * INR total) in
  Forall recognized out /\ has_rz out
  /\ Z.of_nat (count_non_clifford_rz out) = N
  /\ Z.of_nat (length angles_original) = (Z.of_nat total - N)%Z
  /\ length angles_replaced = length angles_original
  /\ angles_original <> []
  /\ Forall (fun a => exists v, a = Some v /\ is_clifford v = false)
       angles_original
  /\ Forall (fun a => exists v, a = Some v /\ v ∈ CLIFFORD_ANGLES)
       angles_replaced.

(** The default values of [method_select] and [method_replace] in the
    signature of [generate_training_circuits]. *)
Definition default_method_select : string := "random".
Definition default_method_replace : string := "nearest".

(** ** The operations of a training circuit

    [replaced c c']: the column [c'] of the rewritten table is the column
    [c] of the table of the input circuit, or [c] is a non-Clifford [rz]
    column and [c'] is [c] with an entry of [CLIFFORD_ANGLES] as its angle.
    [replays op op']: what [_array_to_circuit] appends for the operation [op]
    of the input circuit. *)
Definition replaced (c c' : column) : Prop :=
  c' = c
  \/ (non_clifford_column c = true
      /\ exists v, v ∈ CLIFFORD_ANGLES /\ c' = with_parameter c v).

Definition replays (op op' : Operation) : Prop :=
  match gate op with
  | MeasurementGate => op' = op
  | ZPowGate exponent =>
      exists q,
        qubits op !! 0 = Some q
        /\ (op' = GateOperation (cirq_rz (exponent * PI)) [q]
            \/ (is_clifford (exponent * PI) = false
                /\ exists v, v ∈ CLIFFORD_ANGLES
                             /\ op' = GateOperation (cirq_rz v) [q]))
  | CXPowGate =>
      exists q0 q1,
        qubits op !! 0 = Some q0 /\ qubits op !! 1 = Some q1
        /\ op' = GateOperation cirq_CNOT [q0; q1]
  | XPowGate true =>
      exists q, qubits op !! 0 = Some q /\ op' = GateOperation cirq_X [q]
  | XPowGate false =>
      exists q,
        qubits op !! 0 = Some q /\ op' = GateOperation (cirq_rx (PI / 2)) [q]
  | OtherGate => False
  end.

(** The names that [_array_to_circuit] has a branch for. *)
Definition decoded (c : column) : Prop :=
  name c ∈ ["rz"; "rx"; "cx"; "x"; "measure"].

(** ** The draws of the classification

    [_closest_clifford] draws from Python's [random] when the scaled angle
    is at a midpoint (the [else] branch).  [at_midpoint theta]: the angle
    takes that branch.  [rz_angles circuit]: the angles of the [rz] gates, in
    the order of the circuit.  [classification_draws angles]: two draws for
    each angle at a midpoint, the first angle counted twice, for the call
    that [np.vectorize] makes to find the type of the result. *)
Definition at_midpoint (theta : R) : bool :=
  bool_decide (~ deterministic_zone (scaled theta)).

Definition rz_angles (circuit : Circuit) : list R :=
  omap (fun op => match gate op, qubits op with
                  | ZPowGate exponent, _ :: _ => Some (exponent * PI)%R
                  | _, _ => None
                  end) circuit.

Definition classification_draws (angles : list R) : nat :=
  2 * length (filter (fun a => at_midpoint a = true) (take 1 angles ++ angles)).

(** ** Replacement by the closest Clifford angle

    [nearest_pair a b]: the entries [a] of [angles_original] and [b] of
    [angles_replaced] are floats, [b] is an entry of [CLIFFORD_ANGLES], and
    unless [a] is at a midpoint, no Clifford angle is nearer to [a] on the
    circle than [b]. *)
Definition nearest_pair (a b : option R) : Prop :=
  exists theta c,
    a = Some theta /\ b = Some c /\ c ∈ CLIFFORD_ANGLES
    /\ (at_midpoint theta = false ->
        exists k : Z, (Rabs (c + IZR k * (2 * PI) - theta) <= PI / 4)%R).
(** * Properties *)

(** Case analysis on the sign under every absolute value. *)
Ltac abs_cases :=
  repeat match goal with
  | H : context [Rabs ?x] |- _ =>
      let Hc := fresh in
      unfold Rabs in H; destruct (Rcase_abs x) as [Hc|Hc]
  | |- context [Rabs ?x] =>
      let Hc := fresh in
      unfold Rabs; destruct (Rcase_abs x) as [Hc|Hc]
  end.

(** ** Running computations *)

Lemma bind_ok {A B} (m : M A) (k : A -> M B) s a s' :
  m s = (Ok a, s') -> bind m k s = k a s'.
Proof. intros H. unfold bind. by rewrite H. Qed.

Lemma bind_raise {A B} (m : M A) (k : A -> M B) s e s' :
  m s = (Raise e, s') -> bind m k s = (Raise e, s').
Proof. intros H. unfold bind. by rewrite H. Qed.

Lemma bind_inv_ok {A B} (m : M A) (k : A -> M B) s b s2 :
  bind m k s = (Ok b, s2) ->
  exists a s1, m s = (Ok a, s1) /\ k a s1 = (Ok b, s2).
Proof.
  unfold bind. destruct (m s) as [[a|e] s1]; [eauto | discriminate].
Qed.

Lemma lift_inv_ok {A} (r : result A) s a s' :
  lift r s = (Ok a, s') -> r = Ok a /\ s' = s.
Proof. unfold lift. by inversion 1. Qed.

Lemma ret_inv_ok {A} (x : A) s a s' :
  ret x s = (Ok a, s') -> a = x /\ s' = s.
Proof. unfold ret. by inversion 1. Qed.

Lemma rbind_inv_ok {A B} (r : result A) (k : A -> result B) b :
  rbind r k = Ok b -> exists a, r = Ok a /\ k a = Ok b.
Proof. destruct r; simpl; [eauto | discriminate]. Qed.

Lemma np_vectorize_scalar {A B} (f : A -> M B) x s y1 s1 y2 s2 :
  f x s = (Ok y1, s1) -> f x s1 = (Ok y2, s2) ->
  np_vectorize f (Scalar x) s = (Ok (Scalar y2), s2).
Proof.
  intros H1 H2. simpl. erewrite bind_ok by exact H1.
  erewrite bind_ok by exact H2. done.
Qed.

(** ** Facts about the real-number primitives *)

Section numeric_facts.
Local Open Scope R_scope.

Lemma PI2_bounds : 1 < PI / 2 <= 2.
Proof. split; [apply PI2_1 | pose proof PI_4; lra]. Qed.

Lemma div_between x m lo hi :
  0 < m -> lo * m <= x < hi * m -> lo <= x / m < hi.
Proof.
  intros Hm [H1 H2].
  assert (Hx : x / m * m = x) by (field; lra).
  split.
  - apply (Rmult_le_reg_r m); [lra|]. lra.
  - apply (Rmult_lt_reg_r m); [lra|]. lra.
Qed.

Lemma py_mod_bounds x m : 0 < m -> 0 <= py_mod x m < m.
Proof.
  intros Hm. unfold py_mod.
  destruct (Zfloor_bound (x / m)) as [H1 H2].
  assert (Hx : x = x / m * m) by (field; lra).
  set (f := IZR (Zfloor (x / m))) in *.
  split.
  - assert (f * m <= x / m * m) by (apply Rmult_le_compat_r; lra). lra.
  - assert (x / m * m < (f + 1) * m) by (apply Rmult_lt_compat_r; lra). lra.
Qed.

Lemma py_mod_small x m : 0 <= x < m -> py_mod x m = x.
Proof.
  intros [H0 Hm]. unfold py_mod.
  assert (Zfloor (x / m) = 0%Z) as ->.
  { apply Zfloor_eq. simpl. apply div_between; lra. }
  simpl. lra.
Qed.

Lemma py_mod_idem x m : 0 < m -> py_mod (py_mod x m) m = py_mod x m.
Proof. intros Hm. apply py_mod_small, py_mod_bounds, Hm. Qed.

Lemma scaled_bounds theta : 0 <= scaled theta < 4.
Proof.
  unfold scaled. pose proof PI2_bounds as [Hh _].
  destruct (py_mod_bounds theta (2 * PI)) as [H0 H1]; [lra|].
  apply div_between; lra.
Qed.

Lemma scaled_angle theta : py_mod theta (2 * PI) = scaled theta * (PI / 2).
Proof. unfold scaled. pose proof PI2_bounds. field. lra. Qed.

Lemma scaled_mod theta : scaled (py_mod theta (2 * PI)) = scaled theta.
Proof.
  unfold scaled. rewrite py_mod_idem; [done|]. pose proof PI2_bounds. lra.
Qed.

Lemma scaled_of_multiple k : 0 <= k < 4 -> scaled (k * (PI / 2)) = k.
Proof.
  intros Hk. unfold scaled. pose proof PI2_bounds as [Hh _].
  rewrite py_mod_small; [field; lra|].
  split; [apply Rmult_le_pos; lra|].
  replace (2 * PI) with (4 * (PI / 2)) by lra.
  apply Rmult_lt_compat_r; lra.
Qed.

Lemma np_round_eq x (z : Z) : Rabs (x - IZR z) < 0.5 -> np_round x = z.
Proof.
  intros H. apply Rabs_def2 in H as [H1 H2]. unfold np_round.
  destruct (decide (IZR z <= x)) as [Hle|Hgt].
  - rewrite (Zfloor_eq z x) by lra. rewrite decide_True by lra. done.
  - rewrite (Zfloor_eq (z - 1) x) by (rewrite minus_IZR; lra).
    rewrite minus_IZR. rewrite decide_False by lra.
    rewrite decide_True by lra. lia.
Qed.

Lemma np_round_bounds x : 0 <= x < 4 -> (0 <= np_round x <= 4)%Z.
Proof.
  intros Hx. unfold np_round.
  destruct (Zfloor_bound x) as [H1 H2].
  assert (0 <= Zfloor x)%Z by (apply Zfloor_lub; lra).
  assert (Zfloor x < 4)%Z by (apply lt_IZR; lra).
  repeat case_decide; try destruct (Z.even _); lia.
Qed.

Lemma getitem_clifford (i : Z) :
  (0 <= i < 4)%Z -> getitem CLIFFORD_ANGLES i = Ok (IZR i * (PI / 2)).
Proof.
  intros Hi. unfold getitem, CLIFFORD_ANGLES.
  destruct (decide (i < 0)%Z) as [?|_]; [lia|]. rewrite decide_True by lia.
  assert (i = 0 \/ i = 1 \/ i = 2 \/ i = 3)%Z as [-> | [-> | [-> | -> ] ] ] by lia;
    simpl; f_equal; lra.
Qed.

Lemma clifford_angles_char c :
  c ∈ CLIFFORD_ANGLES <-> exists i : Z, (0 <= i < 4)%Z /\ c = IZR i * (PI / 2).
Proof.
  unfold CLIFFORD_ANGLES. rewrite !elem_of_cons, elem_of_nil. split.
  - intros [-> | [-> | [-> | [-> | [] ] ] ] ];
      [exists 0%Z | exists 1%Z | exists 2%Z | exists 3%Z]; split; try lia; lra.
  - intros (i & Hi & ->).
    assert (i = 0 \/ i = 1 \/ i = 2 \/ i = 3)%Z as [-> | [-> | [-> | -> ] ] ] by lia.
    + left; lra.
    + right; left; lra.
    + do 2 right; left; lra.
    + do 3 right; left; lra.
Qed.

End numeric_facts.

(** ** The Clifford angle oracle *)

Section oracle_facts.
Local Open Scope R_scope.

Lemma py_int_eq x (z : Z) : (0 <= z)%Z -> IZR z <= x < IZR z + 1 -> py_int x = z.
Proof.
  intros Hz Hx. unfold py_int. apply IZR_le in Hz.
  rewrite decide_True by lra. by apply Zfloor_eq.
Qed.

Lemma py_int_neg_small x : -1 < x < 0 -> py_int x = 0%Z.
Proof.
  intros Hx. unfold py_int. rewrite decide_False by lra.
  apply Zceil_eq. simpl. lra.
Qed.

Lemma Rabs_le_bounds x a : Rabs x <= a -> - a <= x <= a.
Proof. intros H. abs_cases; lra. Qed.

Lemma not_deterministic_zone s :
  ~ deterministic_zone s ->
  Rabs (s - 0.5) <= 5e-7 \/ Rabs (s - 1.5) <= 5e-7 \/ Rabs (s - 2.5) <= 5e-7.
Proof.
  unfold deterministic_zone. intros H.
  destruct (decide (Rabs (s - 0.5) <= 5e-7)); [by left|].
  destruct (decide (Rabs (s - 1.5) <= 5e-7)); [by right; left|].
  destruct (decide (Rabs (s - 2.5) <= 5e-7)); [by right; right|].
  exfalso. apply H. repeat split; abs_cases; lra.
Qed.

(** In the tie branch both candidate indices are valid indices of the
    tuple, and the angle they select is far from the input angle. *)
Lemma tie_candidates s x :
  ~ deterministic_zone s -> x = s - 0.5 \/ x = s + 0.5 ->
  (0 <= py_int x < 4)%Z /\ 0.4 < Rabs (IZR (py_int x) - s).
Proof.
  intros Hz Hx. apply not_deterministic_zone in Hz.
  assert (Hcase : exists z : Z,
    (0 <= z < 4)%Z /\ py_int x = z /\ 0.4 < Rabs (IZR z - s)).
  { destruct Hz as [Hz|[Hz|Hz]]; apply Rabs_le_bounds in Hz;
      destruct Hx as [-> | ->].
    - destruct (decide (0.5 <= s)).
      + exists 0%Z. split; [lia|]. split; [apply py_int_eq; [lia|simpl; lra]|].
        abs_cases; simpl in *; lra.
      + exists 0%Z. split; [lia|]. split; [apply py_int_neg_small; lra|].
        abs_cases; simpl in *; lra.
    - destruct (decide (0.5 <= s)).
      + exists 1%Z. split; [lia|]. split; [apply py_int_eq; [lia|simpl; lra]|].
        abs_cases; simpl in *; lra.
      + exists 0%Z. split; [lia|]. split; [apply py_int_eq; [lia|simpl; lra]|].
        abs_cases; simpl in *; lra.
    - destruct (decide (1.5 <= s)).
      + exists 1%Z. split; [lia|]. split; [apply py_int_eq; [lia|simpl; lra]|].
        abs_cases; simpl in *; lra.
      + exists 0%Z. split; [lia|]. split; [apply py_int_eq; [lia|simpl; lra]|].
        abs_cases; simpl in *; lra.
    - destruct (decide (1.5 <= s)).
      + exists 2%Z. split; [lia|]. split; [apply py_int_eq; [lia|simpl; lra]|].
        abs_cases; simpl in *; lra.
      + exists 1%Z. split; [lia|]. split; [apply py_int_eq; [lia|simpl; lra]|].
        abs_cases; simpl in *; lra.
    - destruct (decide (2.5 <= s)).
      + exists 2%Z. split; [lia|]. split; [apply py_int_eq; [lia|simpl; lra]|].
        abs_cases; simpl in *; lra.
      + exists 1%Z. split; [lia|]. split; [apply py_int_eq; [lia|simpl; lra]|].
        abs_cases; simpl in *; lra.
    - destruct (decide (2.5 <= s)).
      + exists 3%Z. split; [lia|]. split; [apply py_int_eq; [lia|simpl; lra]|].
        abs_cases; simpl in *; lra.
      + exists 2%Z. split; [lia|]. split; [apply py_int_eq; [lia|simpl; lra]|].
        abs_cases; simpl in *; lra. }
  destruct Hcase as (z & Hz1 & -> & Hz2). done.
Qed.

Lemma closest_deterministic theta s :
  deterministic_zone (scaled theta) ->
  _closest_clifford_scalar theta s
  = (Ok (IZR (np_round (scaled theta) mod 4) * (PI / 2)), s).
Proof.
  intros Hz. unfold _closest_clifford_scalar. fold (scaled theta).
  rewrite decide_True by done. unfold lift.
  rewrite getitem_clifford; [done|]. by apply Z.mod_pos_bound.
Qed.

Lemma choice_two {A} (a b : A) s :
  choice [a; b] s
  = (Ok (if decide (py_tape s (py_pos s) mod 2 = 0)%nat then a else b),
     advance_py s).
Proof.
  unfold choice, bind, py_randbelow. change (length [a; b]) with 2%nat.
  pose proof (Nat.mod_upper_bound (py_tape s (py_pos s)) 2 ltac:(lia)) as Hlt.
  destruct (py_tape s (py_pos s) mod 2)%nat as [|[|n]]; [done|done|lia].
Qed.

Lemma closest_tie theta s :
  ~ deterministic_zone (scaled theta) ->
  _closest_clifford_scalar theta s
  = (Ok (IZR (py_int (tie_pick s (scaled theta))) * (PI / 2)), advance_py s).
Proof.
  intros Hz. unfold _closest_clifford_scalar. fold (scaled theta).
  rewrite decide_False by done.
  erewrite bind_ok by apply choice_two. fold (tie_pick s (scaled theta)).
  unfold lift. rewrite getitem_clifford; [done|].
  eapply tie_candidates; [done|]. unfold tie_pick. case_decide; auto.
Qed.

(** [_closest_clifford] always returns, and returns an entry of the tuple. *)
Lemma closest_scalar_run theta s :
  exists (i : Z) s',
    (0 <= i < 4)%Z
    /\ _closest_clifford_scalar theta s = (Ok (IZR i * (PI / 2)), s')
    /\ (~ deterministic_zone (scaled theta) -> 0.4 < Rabs (IZR i - scaled theta)).
Proof.
  destruct (decide (deterministic_zone (scaled theta))) as [Hz|Hz].
  - exists (np_round (scaled theta) mod 4)%Z, s. split; [by apply Z.mod_pos_bound|].
    split; [by apply closest_deterministic | done].
  - exists (py_int (tie_pick s (scaled theta))), (advance_py s).
    assert (tie_pick s (scaled theta) = scaled theta - 0.5
            \/ tie_pick s (scaled theta) = scaled theta + 0.5) as Hp
      by (unfold tie_pick; case_decide; auto).
    destruct (tie_candidates _ _ Hz Hp) as [H1 H2].
    split; [done|]. split; [by apply closest_tie | done].
Qed.

Lemma far_from_angle (i : Z) theta :
  0.4 < Rabs (IZR i - scaled theta) ->
  ~ Rabs (IZR i * (PI / 2) - py_mod theta (2 * PI)) < 1e-5.
Proof.
  intros Hfar. rewrite scaled_angle.
  replace (IZR i * (PI / 2) - scaled theta * (PI / 2))
    with ((IZR i - scaled theta) * (PI / 2)) by lra.
  rewrite Rabs_mult. pose proof PI2_bounds as [Hh _].
  rewrite (Rabs_pos_eq (PI / 2)) by lra.
  assert (0.4 * 1 < Rabs (IZR i - scaled theta) * (PI / 2))
    by (apply Rmult_le_0_lt_compat; lra).
  lra.
Qed.

(** The classification does not depend on the random source: whatever the
    tie-break draws, the result is [is_clifford]. *)
Lemma is_clifford_angle_scalar_run theta s :
  exists s', _is_clifford_angle_scalar theta 1e-5 s = (Ok (is_clifford theta), s').
Proof.
  unfold _is_clifford_angle_scalar, _closest_clifford.
  set (a := py_mod theta (2 * PI)).
  assert (Ha : py_mod a (2 * PI) = a).
  { apply py_mod_idem. pose proof PI2_bounds. lra. }
  assert (Hsa : scaled a = scaled theta) by apply scaled_mod.
  destruct (decide (deterministic_zone (scaled theta))) as [Hz|Hz].
  - assert (Hza : deterministic_zone (scaled a)) by (by rewrite Hsa).
    erewrite bind_ok
      by (eapply np_vectorize_scalar; by apply closest_deterministic).
    erewrite bind_ok by reflexivity.
    rewrite Hsa. unfold is_clifford. fold a.
    exists s. case_decide.
    + by rewrite bool_decide_eq_true_2.
    + rewrite bool_decide_eq_false_2; [done|]. intros [_ ?]. done.
  - destruct (closest_scalar_run a s) as (i1 & s1 & _ & Hr1 & _).
    destruct (closest_scalar_run a s1) as (i2 & s2 & _ & Hr2 & Hfar).
    rewrite Hsa in Hfar. specialize (Hfar Hz).
    erewrite bind_ok by (eapply np_vectorize_scalar; eassumption).
    erewrite bind_ok by reflexivity.
    exists s2. rewrite decide_False by (by apply far_from_angle).
    unfold is_clifford. rewrite bool_decide_eq_false_2; [done|]. intros [? _]. done.
Qed.

Lemma closest_vectorized_run theta s :
  exists (i : Z) s',
    (0 <= i < 4)%Z
    /\ _closest_clifford (Scalar theta) s = (Ok (Scalar (IZR i * (PI / 2))), s').
Proof.
  destruct (closest_scalar_run theta s) as (i1 & s1 & _ & Hr1 & _).
  destruct (closest_scalar_run theta s1) as (i2 & s2 & Hi2 & Hr2 & _).
  exists i2, s2. split; [done|]. by eapply np_vectorize_scalar.
Qed.

Lemma is_clifford_multiple (i : Z) :
  (0 <= i < 4)%Z -> is_clifford (IZR i * (PI / 2)) = true.
Proof.
  intros Hi. unfold is_clifford. apply bool_decide_eq_true_2.
  assert (Hr : 0 <= IZR i < 4) by (split; [apply IZR_le | apply IZR_lt]; lia).
  rewrite scaled_of_multiple by done.
  pose proof PI2_bounds as [Hh _].
  assert (Hcase : (i = 0 \/ i = 1 \/ i = 2 \/ i = 3)%Z) by lia.
  split.
  - unfold deterministic_zone.
    destruct Hcase as [-> | [-> | [-> | -> ] ] ]; repeat split; abs_cases; lra.
  - rewrite (np_round_eq _ i) by (rewrite Rminus_diag, Rabs_R0; lra).
    rewrite Z.mod_small by done.
    rewrite py_mod_small.
    + rewrite Rminus_diag, Rabs_R0. lra.
    + split; [apply Rmult_le_pos; lra|].
      replace (2 * PI) with (4 * (PI / 2)) by lra.
      apply Rmult_lt_compat_r; lra.
Qed.

Lemma is_clifford_vectorized_run theta s :
  exists s', _is_clifford_angle (Scalar theta) s = (Ok (Scalar (is_clifford theta)), s').
Proof.
  destruct (is_clifford_angle_scalar_run theta s) as (s1 & H1).
  destruct (is_clifford_angle_scalar_run theta s1) as (s2 & H2).
  exists s2. unfold _is_clifford_angle.
  by eapply (np_vectorize_scalar (fun ang => _is_clifford_angle_scalar ang 1e-5)).
Qed.

(** C8.  Closure of the oracle: from every state of the random source,
    [_closest_clifford] returns an entry of [CLIFFORD_ANGLES], and
    [_is_clifford_angle] answers [True] on what it returned, again from every
    state of the random source. *)
Theorem closest_clifford_closure (theta : R) (s : random_state) :
  exists c s',
    _closest_clifford (Scalar theta) s = (Ok (Scalar c), s')
    /\ c ∈ CLIFFORD_ANGLES
    /\ forall s0, exists s1,
         _is_clifford_angle (Scalar c) s0 = (Ok (Scalar true), s1).
Proof.
  destruct (closest_vectorized_run theta s) as (i & s' & Hi & Hrun).
  exists (IZR i * (PI / 2)), s'. split; [done|]. split.
  - apply clifford_angles_char. eauto.
  - intros s0. destruct (is_clifford_vectorized_run (IZR i * (PI / 2)) s0) as (s1 & H1).
    exists s1. by rewrite is_clifford_multiple in H1.
Qed.

(** At or just above a midpoint the two candidate indices are the two
    neighbours of the midpoint. *)
Lemma tie_above_midpoint sc (m : Z) :
  (0 <= m < 3)%Z -> IZR m + 0.5 <= sc <= IZR m + 0.5 + 5e-7 ->
  ~ deterministic_zone sc
  /\ py_int (sc - 0.5) = m /\ py_int (sc + 0.5) = (m + 1)%Z.
Proof.
  intros Hm Hsc. split; [|split].
  - unfold deterministic_zone. intros (A & B & C).
    assert (m = 0 \/ m = 1 \/ m = 2)%Z as [-> | [-> | -> ] ] by lia;
      simpl in Hsc; abs_cases; lra.
  - apply py_int_eq; [lia | lra].
  - apply py_int_eq; [lia | rewrite plus_IZR; lra].
Qed.

(** C7, as amended.  With [s = scaled theta]: outside the tie zone of the
    code ([2 s] further than [1e-6] from each of 1, 3, 5) the result is
    [CLIFFORD_ANGLES[round(s) mod 4]] and no draw is made; at a midpoint
    [m + 0.5], or above it by at most [5e-7], the result is one of
    [CLIFFORD_ANGLES[m]] and [CLIFFORD_ANGLES[m + 1]], the indices being
    [int(s - 0.5)] and [int(s + 0.5)], it is chosen by the draw, and both
    are reached. *)
Theorem closest_clifford_cases (theta : R) :
  (deterministic_zone (scaled theta) ->
   exists c,
     getitem CLIFFORD_ANGLES (np_round (scaled theta) mod 4) = Ok c
     /\ forall s, _closest_clifford (Scalar theta) s = (Ok (Scalar c), s))
  /\ (forall m : Z, (0 <= m < 3)%Z ->
      IZR m + 0.5 <= scaled theta <= IZR m + 0.5 + 5e-7 ->
      exists lo hi,
        py_int (scaled theta - 0.5) = m
        /\ py_int (scaled theta + 0.5) = (m + 1)%Z
        /\ getitem CLIFFORD_ANGLES m = Ok lo
        /\ getitem CLIFFORD_ANGLES (m + 1) = Ok hi
        /\ lo <> hi
        /\ (forall s, exists s',
              _closest_clifford (Scalar theta) s = (Ok (Scalar lo), s')
              \/ _closest_clifford (Scalar theta) s = (Ok (Scalar hi), s'))
        /\ (exists s s', _closest_clifford (Scalar theta) s = (Ok (Scalar lo), s'))
        /\ (exists s s', _closest_clifford (Scalar theta) s = (Ok (Scalar hi), s'))).
Proof.
  split.
  - intros Hz. exists (IZR (np_round (scaled theta) mod 4) * (PI / 2)). split.
    + apply getitem_clifford. by apply Z.mod_pos_bound.
    + intros s. eapply np_vectorize_scalar; by apply closest_deterministic.
  - intros m Hm Hsc.
    destruct (tie_above_midpoint _ _ Hm Hsc) as (Hz & Hlo & Hhi).
    assert (Hrun : forall s,
      _closest_clifford (Scalar theta) s
      = (Ok (Scalar (IZR (py_int (tie_pick (advance_py s) (scaled theta))) * (PI / 2))),
         advance_py (advance_py s))).
    { intros s. eapply np_vectorize_scalar; by apply closest_tie. }
    exists (IZR m * (PI / 2)), (IZR (m + 1) * (PI / 2)).
    split; [done|]. split; [done|].
    split; [apply getitem_clifford; lia|].
    split; [apply getitem_clifford; lia|].
    split; [|split; [|split] ].
    + rewrite plus_IZR. pose proof PI2_bounds. lra.
    + intros s. exists (advance_py (advance_py s)). rewrite Hrun.
      unfold tie_pick. case_decide; [left | right]; by rewrite ?Hlo, ?Hhi.
    + exists (RandomState (fun _ => 0%nat) 0 (fun _ => 0%nat) 0). eexists.
      rewrite Hrun. unfold tie_pick. simpl. by rewrite Hlo.
    + exists (RandomState (fun _ => 1%nat) 0 (fun _ => 0%nat) 0). eexists.
      rewrite Hrun. unfold tie_pick. simpl. by rewrite Hhi.
Qed.

(** Witness for C7: the midpoint [pi / 4], between [0] and [pi / 2]. *)
Lemma closest_clifford_cases_witness :
  exists lo hi,
    getitem CLIFFORD_ANGLES 0 = Ok lo
    /\ getitem CLIFFORD_ANGLES 1 = Ok hi
    /\ (exists s s', _closest_clifford (Scalar (PI / 4)) s = (Ok (Scalar lo), s'))
    /\ (exists s s', _closest_clifford (Scalar (PI / 4)) s = (Ok (Scalar hi), s')).
Proof.
  assert (Hs : scaled (PI / 4) = 0.5).
  { replace (PI / 4) with (0.5 * (PI / 2)) by lra. apply scaled_of_multiple. lra. }
  destruct (proj2 (closest_clifford_cases (PI / 4)) 0%Z) as (lo & hi & H).
  - lia.
  - rewrite Hs. simpl. lra.
  - exists lo, hi. tauto.
Defined.

(** C7, counterexample to the claim as stated.  The angle with
    [s = 0.5 + 8e-7] is within [1e-6] of the midpoint [0.5], yet the code
    takes the deterministic branch: it returns [pi / 2] from every state of
    the random source, without a draw, and never returns [0]. *)
Lemma closest_clifford_tolerance_counterexample :
  Rabs (scaled ((0.5 + 8e-7) * (PI / 2)) - 0.5) < 1e-6
  /\ (forall s, _closest_clifford (Scalar ((0.5 + 8e-7) * (PI / 2))) s
               = (Ok (Scalar (PI / 2)), s))
  /\ ~ (exists s s', _closest_clifford (Scalar ((0.5 + 8e-7) * (PI / 2))) s
                     = (Ok (Scalar 0), s')).
Proof.
  assert (Hs : scaled ((0.5 + 8e-7) * (PI / 2)) = 0.5 + 8e-7)
    by (apply scaled_of_multiple; lra).
  assert (Hrun : forall s, _closest_clifford (Scalar ((0.5 + 8e-7) * (PI / 2))) s
                           = (Ok (Scalar (PI / 2)), s)).
  { intros s.
    assert (Hz : deterministic_zone (scaled ((0.5 + 8e-7) * (PI / 2)))).
    { rewrite Hs. unfold deterministic_zone. repeat split; abs_cases; lra. }
    pose proof (closest_deterministic _ s Hz) as Hc.
    rewrite Hs in Hc. rewrite (np_round_eq _ 1) in Hc by (abs_cases; lra).
    change (1 mod 4)%Z with 1%Z in Hc. rewrite Rmult_1_l in Hc.
    by eapply np_vectorize_scalar. }
  split; [rewrite Hs; abs_cases; lra|]. split; [done|].
  intros (s & s' & H). rewrite Hrun in H. inversion H as [Heq].
  pose proof PI2_bounds. lra.
Qed.

End oracle_facts.

(** ** [count_non_cliffords] does not depend on the random source *)

Lemma mmap_as_float row s : mmap as_float row s = (floats row, s).
Proof.
  induction row as [|[x|] row IH]; [done| |done].
  simpl. unfold bind at 1. simpl. unfold bind at 1. rewrite IH.
  unfold floats. simpl. destruct (rmap _ row); done.
Qed.

Lemma mmap_length {A B} (f : A -> M B) l s ys s' :
  mmap f l s = (Ok ys, s') -> length ys = length l.
Proof.
  revert s ys s'. induction l as [|x l IH]; intros s ys s' H; simpl in H.
  - apply ret_inv_ok in H as [-> _]. done.
  - apply bind_inv_ok in H as (y & s1 & _ & H).
    apply bind_inv_ok in H as (ys' & s2 & H2 & H).
    apply ret_inv_ok in H as [-> _]. simpl. f_equal. eapply IH, H2.
Qed.

Lemma mmap_is_clifford angles s :
  exists s',
    mmap (fun ang => _is_clifford_angle_scalar ang 1e-5) angles s
    = (Ok (is_clifford <$> angles), s').
Proof.
  revert s. induction angles as [|a angles IH]; intros s; [by exists s|].
  destruct (is_clifford_angle_scalar_run a s) as (s1 & H1).
  destruct (IH s1) as (s2 & H2).
  exists s2. simpl. erewrite bind_ok by exact H1.
  erewrite bind_ok by exact H2. done.
Qed.

Lemma on_cells_is_clifford_run row s :
  exists s', on_cells _is_clifford_angle row s = (classify_row row, s').
Proof.
  unfold on_cells, classify_row.
  destruct (floats row) as [angles|e] eqn:Hf.
  - erewrite bind_ok by (rewrite mmap_as_float, Hf; done).
    destruct angles as [|a angles]; [exists s; reflexivity|].
    destruct (is_clifford_angle_scalar_run a s) as (s1 & H1).
    destruct (mmap_is_clifford (a :: angles) s1) as (s2 & H2).
    exists s2.
    assert (Hv : _is_clifford_angle (Array (a :: angles)) s
                 = (Ok (Array (is_clifford <$> a :: angles)), s2)).
    { unfold _is_clifford_angle, np_vectorize.
      erewrite bind_ok by exact H1. erewrite bind_ok by exact H2. done. }
    erewrite bind_ok by exact Hv. done.
  - exists s. erewrite bind_raise by (rewrite mmap_as_float, Hf; done). done.
Qed.

Lemma count_non_cliffords_run circuit s :
  exists s', count_non_cliffords circuit s = (count_result circuit, s').
Proof.
  unfold count_non_cliffords, count_result.
  destruct (_circuit_to_array circuit) as [r|e]; [|exists s; reflexivity].
  erewrite bind_ok by reflexivity. cbn [rbind].
  destruct (columns r.1) as [cols|e]; [|exists s; reflexivity].
  erewrite bind_ok by reflexivity. cbn [rbind].
  destruct (on_cells_is_clifford_run
              (parameter <$> filter (fun c => name c = "rz") cols) s) as (s' & Hrun).
  exists s'. unfold bind. rewrite Hrun. by destruct (classify_row _).
Qed.


(** ** The angle-to-probabilities metric *)

Section weights.
Local Open Scope R_scope.

Lemma trig_shift_Z x (z : Z) :
  cos (x - IZR z * (2 * PI)) = cos x /\ sin (x - IZR z * (2 * PI)) = sin x.
Proof.
  destruct (decide (0 <= z)%Z) as [Hz|Hz].
  - assert (Hn : IZR z = INR (Z.to_nat z)) by (rewrite INR_IZR_INZ, Z2Nat.id; done).
    rewrite Hn. set (y := x - INR (Z.to_nat z) * (2 * PI)).
    replace x with (y + 2 * INR (Z.to_nat z) * PI) by (unfold y; lra).
    by rewrite cos_period, sin_period.
  - assert (Hn : IZR z = - INR (Z.to_nat (- z))).
    { rewrite INR_IZR_INZ, Z2Nat.id by lia. rewrite opp_IZR. lra. }
    rewrite Hn.
    replace (x - - INR (Z.to_nat (- z)) * (2 * PI))
      with (x + 2 * INR (Z.to_nat (- z)) * PI) by lra.
    by rewrite cos_period, sin_period.
Qed.

Lemma cos_py_mod theta : cos (py_mod theta (2 * PI)) = cos theta.
Proof. unfold py_mod. apply trig_shift_Z. Qed.

Lemma sin_py_mod theta : sin (py_mod theta (2 * PI)) = sin theta.
Proof. unfold py_mod. apply trig_shift_Z. Qed.

Lemma clifford_phase_values :
  (cos (INR 1 * (PI / 2)) = 0 /\ sin (INR 1 * (PI / 2)) = 1)
  /\ (cos (INR 2 * (PI / 2)) = -1 /\ sin (INR 2 * (PI / 2)) = 0)
  /\ (cos (INR 3 * (PI / 2)) = 0 /\ sin (INR 3 * (PI / 2)) = -1)
  /\ (cos (INR 4 * (PI / 2)) = 1 /\ sin (INR 4 * (PI / 2)) = 0).
Proof.
  replace (INR 1 * (PI / 2)) with (PI / 2) by (simpl; lra).
  replace (INR 2 * (PI / 2)) with PI by (simpl; lra).
  replace (INR 3 * (PI / 2)) with (3 * (PI / 2)) by (simpl; lra).
  replace (INR 4 * (PI / 2)) with (2 * PI) by (simpl; lra).
  rewrite cos_PI2, sin_PI2, cos_PI, sin_PI, cos_3PI2, sin_3PI2, cos_2PI, sin_2PI.
  done.
Qed.

(** The list [dists] of the code holds the four weights of the
    specification, in the order of the loop: [S^4], [S^1], [S^2], [S^3]. *)
Lemma clifford_dists_spec theta sigma :
  clifford_dists (py_mod theta (2 * PI)) sigma
  = [spec_weight theta sigma 4; spec_weight theta sigma 1;
     spec_weight theta sigma 2; spec_weight theta sigma 3].
Proof.
  destruct clifford_phase_values as ((c1 & s1) & (c2 & s2) & (c3 & s3) & (c4 & s4)).
  unfold clifford_dists, spec_weight, spec_distance.
  rewrite c1, s1, c2, s2, c3, s3, c4, s4.
  unfold np_linalg_norm, mat_sub, mat_pow, Cexp_i.
  rewrite cos_py_mod, sin_py_mod.
  cbn [seq map zip_with concat app foldr].
  rewrite decide_True by done. rewrite !decide_False by done.
  assert (Hw : forall a b, a = b ->
    exp (- (sqrt a / sigma) ^ 2) = exp (- (sqrt b / sigma) ^ 2))
    by (by intros a b ->).
  assert (Hl : forall a b c d a' b' c' d' : R,
    a = a' -> b = b' -> c = c' -> d = d' -> [a; b; c; d] = [a'; b'; c'; d'])
    by (by intros; subst).
  apply Hl; apply Hw; cbn [Cpow]; unfold Cabs2, Csub, Cmul; cbn [fst snd]; ring.
Qed.

Lemma angle_to_probabilities_scalar_run theta sigma s :
  _angle_to_probabilities_scalar theta sigma s = (Ok (total_weight theta sigma), s).
Proof.
  unfold _angle_to_probabilities_scalar. rewrite clifford_dists_spec.
  unfold ret, py_sum, total_weight. simpl. do 2 f_equal. ring.
Qed.

Lemma mmap_angle_to_probabilities sigma angles s :
  mmap (fun a => _angle_to_probabilities_scalar a sigma) angles s
  = (Ok ((fun a => total_weight a sigma) <$> angles), s).
Proof.
  induction angles as [|a angles IH]; [done|].
  simpl. erewrite bind_ok by apply angle_to_probabilities_scalar_run.
  erewrite bind_ok by exact IH. done.
Qed.

Lemma spec_weight_pos theta sigma k : 0 < spec_weight theta sigma k.
Proof. apply exp_pos. Qed.

Lemma total_weight_pos theta sigma : 0 < total_weight theta sigma.
Proof.
  unfold total_weight.
  pose proof (spec_weight_pos theta sigma 1). pose proof (spec_weight_pos theta sigma 2).
  pose proof (spec_weight_pos theta sigma 3). pose proof (spec_weight_pos theta sigma 4).
  lra.
Qed.





(** The caller normalizes: the weights that [select_columns] hands to
    [np.random.choice] sum to 1. *)
Lemma py_sum_scaled l a S :
  foldl Rplus (a / S) (map (fun k => k / S) l) = foldl Rplus a l / S.
Proof.
  revert a. induction l as [|x l IH]; intros a; [done|].
  simpl. rewrite <- IH. f_equal. unfold Rdiv. ring.
Qed.

Lemma normalized_by_caller probabilities :
  py_sum probabilities <> 0 ->
  py_sum (map (fun k => k / py_sum probabilities) probabilities) = 1.
Proof.
  intros Hne. unfold py_sum at 1.
  replace 0 with (0 / py_sum probabilities) at 1 by (unfold Rdiv; ring).
  rewrite py_sum_scaled. fold (py_sum probabilities). by field.
Qed.

End weights.

(** ** The options of [_map_to_near_clifford] *)

Lemma resolve_sigmas_dict (d : gmap string R) :
  d <> ∅ ->
  resolve_sigmas (KwDict d)
  = match d !! "sigma_select", d !! "sigma_replace" with
    | None, None => Raise (Exception_ options_msg)
    | ss, sr => Ok (default 0.5%R ss, default 0.5%R sr)
    end.
Proof.
  intros Hne. unfold resolve_sigmas. rewrite decide_False by done.
  by destruct (d !! "sigma_select"), (d !! "sigma_replace").
Qed.

Lemma near_clifford_data_resolve_raise rz_non_cliff all_cliff total_non_cliff
    fraction method_select method_replace (kwargs : gmap string kwvalue) e s :
  resolve_sigmas (default KwNone (kwargs !! "additional_options")) = Raise e ->
  near_clifford_data rz_non_cliff all_cliff total_non_cliff fraction
    method_select method_replace kwargs s = (Raise e, s).
Proof. intros H. unfold near_clifford_data. by rewrite H. Qed.

(** C6, as amended.  A non-empty options dictionary with neither
    [sigma_select] nor [sigma_replace] among its keys makes
    [_map_to_near_clifford] raise; every other dictionary is accepted,
    whatever other keys it has, and so is [sigma_replace] without
    [sigma_select]; a sigma that is not given is [0.5]. *)
Theorem resolve_sigmas_cases (d : gmap string R) :
  (d <> ∅ -> d !! "sigma_select" = None -> d !! "sigma_replace" = None ->
   resolve_sigmas (KwDict d) = Raise (Exception_ options_msg)
   /\ forall rz_non_cliff all_cliff empty_circuit total_non_cliff fraction
        method_select method_replace s,
       _map_to_near_clifford rz_non_cliff all_cliff empty_circuit
         total_non_cliff fraction method_select method_replace
         {[ "additional_options" := KwDict d ]} s
       = (Raise (Exception_ options_msg), s))
  /\ (d = ∅ \/ is_Some (d !! "sigma_select") \/ is_Some (d !! "sigma_replace") ->
      resolve_sigmas (KwDict d)
      = Ok (default 0.5%R (d !! "sigma_select"),
            default 0.5%R (d !! "sigma_replace")))
  /\ resolve_sigmas KwNone = Ok (0.5%R, 0.5%R).
Proof.
  split; [|split; [|done] ].
  - intros Hne Hs Hr.
    assert (Hraise : resolve_sigmas (KwDict d) = Raise (Exception_ options_msg))
      by (by rewrite resolve_sigmas_dict, Hs, Hr).
    split; [done|]. intros. unfold _map_to_near_clifford.
    erewrite bind_raise; [done|].
    apply near_clifford_data_resolve_raise. by rewrite lookup_singleton_eq.
  - intros [-> | H].
    + done.
    + destruct (decide (d = ∅)) as [-> | Hne]; [done|].
      rewrite resolve_sigmas_dict by done.
      destruct H as [ [x Hx] | [x Hx] ]; rewrite Hx;
        by destruct (d !! "sigma_select"), (d !! "sigma_replace").
Qed.

(** Witness for C6: a dictionary whose only key is not recognized. *)
Lemma resolve_sigmas_cases_witness :
  resolve_sigmas (KwDict {[ "foo" := 1%R ]}) = Raise (Exception_ options_msg).
Proof.
  apply (proj1 (resolve_sigmas_cases {[ "foo" := 1%R ]})).
  - apply (insert_non_empty (M := gmap string)).
  - by apply lookup_singleton_ne.
  - by apply lookup_singleton_ne.
Defined.

(** C6, counterexample to the claim as stated.  An options dictionary with
    the unrecognized key [foo] next to [sigma_select] is accepted, and so is
    [sigma_replace] supplied without [sigma_select]. *)
Lemma resolve_sigmas_counterexample :
  resolve_sigmas (KwDict {[ "sigma_select" := 0.3%R; "foo" := 1%R ]})
  = Ok (0.3%R, 0.5%R)
  /\ resolve_sigmas (KwDict {[ "sigma_replace" := 0.3%R ]}) = Ok (0.5%R, 0.3%R).
Proof.
  split.
  - rewrite resolve_sigmas_dict by apply (insert_non_empty (M := gmap string)).
    rewrite lookup_insert_eq.
    rewrite lookup_insert_ne by done. by rewrite lookup_singleton_ne.
  - rewrite resolve_sigmas_dict by apply (insert_non_empty (M := gmap string)).
    rewrite lookup_singleton_ne by done. by rewrite lookup_singleton_eq.
Qed.

(** ** Which keyword arguments [generate_training_circuits] reads *)

Lemma bind_ext {A B} (m : M A) (k1 k2 : A -> M B) s :
  (forall a s', k1 a s' = k2 a s') -> bind m k1 s = bind m k2 s.
Proof. intros H. unfold bind. destruct (m s) as [[a|e] s']; [apply H | done]. Qed.




Lemma generate_training_circuits_forwarded circuit n fraction method_select
    method_replace (kwargs : gmap string kwvalue) s :
  generate_training_circuits circuit n fraction method_select method_replace
    kwargs s
  = bind (split_circuit circuit) (fun r =>
      let '(rz_non_cliff, all_cliff, empty_circuit) := r in
      training_loop n
        (_map_to_near_clifford rz_non_cliff all_cliff empty_circuit
           (length rz_non_cliff) fraction method_select method_replace
           (forwarded_kwargs kwargs))
        ([], [], [])) s.
Proof.
  unfold generate_training_circuits, forwarded_kwargs.
  apply bind_ext. intros [[rz_non_cliff all_cliff] empty_circuit] s'.
  by case_decide.
Qed.



(** ** The encoder *)

Lemma encode_step_inv acc i op acc' :
  encode_step acc i op = Ok acc' ->
  order_list acc' = order_list acc ++ [i]
  /\ operation_list acc' = operation_list acc ++ [op]
  /\ ((exists cell, gate_cells op = Some cell
        /\ gates_list acc' = gates_list acc ++ [cell.1.1]
        /\ parameters_list acc' = parameters_list acc ++ [cell.1.2]
        /\ qubits_list acc' = qubits_list acc ++ [cell.2])
      \/ (gate op = OtherGate
          /\ gates_list acc' = gates_list acc
          /\ parameters_list acc' = parameters_list acc
          /\ qubits_list acc' = qubits_list acc)).
Proof.
  unfold encode_step, gate_cells, qubit_at.
  destruct (gate op) as [|e|[|]| |]; destruct (qubits op) as [|q0 [|q1 qs]];
    simpl; intros H; inversion H; subst; clear H; simpl;
    (split; [done|]); (split; [done|]);
    first [ by right | left; eexists; split; [done|]; simpl; done ].
Qed.

Lemma encode_loop_inv ops : forall acc i r,
  encode_loop acc i ops = Ok r ->
  order_list r = order_list acc ++ seq i (length ops)
  /\ operation_list r = operation_list acc ++ ops
  /\ exists cells : list (string * option R * qubit_cell),
       gates_list r = gates_list acc ++ cells.*1.*1
       /\ parameters_list r = parameters_list acc ++ cells.*1.*2
       /\ qubits_list r = qubits_list acc ++ cells.*2
       /\ length cells <= length ops
       /\ (length cells = length ops ->
           Forall2 (fun op cell => gate_cells op = Some cell) ops cells).
Proof.
  induction ops as [|op ops IH]; intros acc i r H; simpl in H.
  - inversion H; subst. rewrite !app_nil_r. split; [done|]. split; [done|].
    exists []. simpl. rewrite !app_nil_r.
    split; [done|]. split; [done|]. split; [done|]. split; [lia|]. constructor.
  - apply rbind_inv_ok in H as (acc' & Hstep & Hloop).
    apply encode_step_inv in Hstep as (Ho & Hops & Hcells).
    apply IH in Hloop as (Ho' & Hops' & cells & Hg & Hp & Hq & Hlen & Hall).
    rewrite Ho' , Ho, Hops', Hops. rewrite <- !app_assoc. simpl.
    split; [done|]. split; [done|].
    destruct Hcells as [(cell & Hcell & Hg1 & Hp1 & Hq1) | (Hother & Hg1 & Hp1 & Hq1)].
    + exists (cell :: cells). rewrite Hg, Hp, Hq, Hg1, Hp1, Hq1.
      rewrite <- !app_assoc. simpl.
      split; [done|]. split; [done|]. split; [done|]. split; [lia|].
      intros Heq. constructor; [done|]. apply Hall. lia.
    + exists cells. rewrite Hg, Hp, Hq, Hg1, Hp1, Hq1.
      split; [done|]. split; [done|]. split; [done|]. split; [lia|].
      intros Heq. lia.
Qed.

Lemma zip_columns_cells ops : forall o cells,
  length o = length ops ->
  Forall2 (fun op cell => gate_cells op = Some cell) ops cells ->
  order <$> zip_columns o (cells.*1.*1) (cells.*1.*2) (cells.*2) ops = o
  /\ Forall2 encodes ops
       (zip_columns o (cells.*1.*1) (cells.*1.*2) (cells.*2) ops).
Proof.
  induction ops as [|op ops IH]; intros o cells Hlen Hall.
  - destruct o; [|done]. inversion Hall; subst. split; [done|]. simpl. constructor.
  - destruct o as [|o1 o]; [done|]. inversion Hall as [|? cell ? cells' Hc Hall']; subst.
    destruct (IH o cells') as [Ho Hf]; [simpl in Hlen; lia | done |].
    csimpl. split; [by rewrite Ho|]. constructor; [|done].
    split; [|done]. simpl. by destruct cell as [[g p] q].
Qed.

(** What a successful encoding into a table looks like: one column per
    operation, in the order of the circuit, numbered from 0. *)
Lemma circuit_to_array_table circuit cols e :
  _circuit_to_array circuit = Ok (Table cols, e) ->
  e = []
  /\ order <$> cols = seq 0 (length circuit)
  /\ Forall2 encodes circuit cols.
Proof.
  unfold _circuit_to_array. intros H.
  apply rbind_inv_ok in H as (r & Hloop & H). inversion H as [[Harr He]]. clear H.
  split; [done|].
  apply encode_loop_inv in Hloop as (Ho & Hops & cells & Hg & Hp & Hq & Hlen & Hall).
  simpl in *. unfold np_array in Harr. case_decide as Hlens; [|done].
  inversion Harr as [Hcols]. clear Harr.
  rewrite Ho, Hg, Hp, Hq, Hops in *. rewrite !length_fmap, length_seq in Hlens.
  destruct Hlens as (Hl & _).
  apply zip_columns_cells; [by rewrite length_seq | auto].
Qed.

(** ** Computations that always raise *)

Lemma raises_raise {A} e : raises (raise e : M A).
Proof. intros s. by exists e, s. Qed.

Lemma raises_bind_l {A B} (m : M A) (k : A -> M B) : raises m -> raises (bind m k).
Proof.
  intros Hm s. destruct (Hm s) as (e & s' & H). exists e, s'. by apply bind_raise.
Qed.

Lemma raises_bind_post {A B} (m : M A) (k : A -> M B) (P : A -> Prop) :
  (forall s a s', m s = (Ok a, s') -> P a) ->
  (forall a, P a -> raises (k a)) -> raises (bind m k).
Proof.
  intros Hm Hk s. destruct (m s) as [[a|e] s'] eqn:Hms.
  - destruct (Hk a (Hm _ _ _ Hms) s') as (e & s'' & H).
    exists e, s''. by erewrite bind_ok.
  - exists e, s'. by apply bind_raise.
Qed.

Lemma raises_bind_r {A B} (m : M A) (k : A -> M B) :
  (forall a, raises (k a)) -> raises (bind m k).
Proof. intros Hk. apply (raises_bind_post m k (fun _ => True)); auto. Qed.

Lemma training_loop_raises n body acc :
  raises body -> raises (training_loop (S n) body acc).
Proof. intros H. simpl. by apply raises_bind_l. Qed.

(** ** [count_non_cliffords] on a circuit without [rz] gates *)

Lemma encodes_rz op c :
  encodes op c -> name c = "rz" -> exists e, gate op = ZPowGate e.
Proof.
  intros [Hc _] Hn. unfold gate_cells in Hc.
  destruct (gate op) as [|e|[|]| |]; destruct (qubits op) as [|q0 [|q1 qs]];
    inversion Hc as [[Hname Hp Hq]]; rewrite <- Hname in Hn; try done; eauto.
Qed.

Lemma no_rz_columns circuit cols :
  Forall2 encodes circuit cols ->
  (forall op e, op ∈ circuit -> gate op <> ZPowGate e) ->
  filter (fun c => name c = "rz") cols = [].
Proof.
  induction 1 as [|op c circuit cols Hc Hall IH]; intros Hno; [done|].
  rewrite filter_cons. case_decide as Hn.
  - destruct (encodes_rz _ _ Hc Hn) as [e He]. exfalso.
    apply (Hno op e); [left | done].
  - apply IH. intros op' e' Hin. apply Hno. by right.
Qed.

Lemma count_result_no_rz circuit :
  (forall op e, op ∈ circuit -> gate op <> ZPowGate e) ->
  exists err, count_result circuit = Raise err.
Proof.
  intros Hno. unfold count_result.
  destruct (_circuit_to_array circuit) as [[[cols|] e]|err] eqn:Henc; simpl; eauto.
  apply circuit_to_array_table in Henc as (_ & _ & Hall).
  rewrite (no_rz_columns _ _ Hall Hno). simpl. eauto.
Qed.

(** C4, what the code does.  On every circuit without an [rz] gate
    [count_non_cliffords] raises: it never returns [0].  (On a table the
    exception is the [ValueError] of [np.vectorize] for the empty row of
    angles.) *)
Theorem count_non_cliffords_no_rz_raises (circuit : Circuit) (s : random_state) :
  (forall op e, op ∈ circuit -> gate op <> ZPowGate e) ->
  exists err, (count_non_cliffords circuit s).1 = Raise err.
Proof.
  intros Hno. destruct (count_non_cliffords_run circuit s) as (s' & ->).
  by apply count_result_no_rz.
Qed.

(** Witness for C4: the circuit with a single [X] gate. *)
Lemma count_non_cliffords_no_rz_raises_witness :
  exists err,
    (count_non_cliffords [GateOperation cirq_X [0]] zero_state).1 = Raise err.
Proof.
  apply count_non_cliffords_no_rz_raises.
  intros op e Hin. apply list_elem_of_singleton in Hin as ->. done.
Defined.

(** The failing input of C4, evaluated. *)
Lemma count_non_cliffords_x_gate s :
  count_non_cliffords [GateOperation cirq_X [0]] s
  = (Raise (ValueError vectorize_msg), s).
Proof. reflexivity. Qed.

(** ** Sampling without replacement *)

Lemma sample_from_spec {A} (randbelow : nat -> M nat) k :
  forall (pool : list A) s res s',
    sample_from randbelow pool k s = (Ok res, s') -> NoDup pool ->
    NoDup res /\ (forall x, x ∈ res -> x ∈ pool) /\ length res = k.
Proof.
  induction k as [|k IH]; intros pool s res s' H Hnd; simpl in H.
  - apply ret_inv_ok in H as [-> _]. split; [constructor|]. split; [|done].
    intros x Hx. by apply elem_of_nil in Hx.
  - apply bind_inv_ok in H as (j & s1 & _ & H).
    destruct (pool !! j) as [x|] eqn:Hj; [|done].
    apply bind_inv_ok in H as (rest & s2 & Hrest & H).
    apply ret_inv_ok in H as [-> _].
    pose proof (delete_Permutation _ _ _ Hj) as Hperm.
    assert (Hnd' : NoDup (x :: delete j pool)) by (by rewrite <- Hperm).
    apply NoDup_cons in Hnd' as [Hx Hnd'].
    destruct (IH _ _ _ _ Hrest Hnd') as (Hr1 & Hr2 & Hr3).
    split; [|split].
    + apply NoDup_cons. split; [|done]. intros Hin. apply Hx. by apply Hr2.
    + intros y Hy. apply elem_of_cons in Hy as [-> | Hy].
      * eapply list_elem_of_lookup_2; eauto.
      * rewrite Hperm. right. by apply Hr2.
    + simpl. by rewrite Hr3.
Qed.

Lemma support_sublist {A} (a : list A) : forall p, support a p `sublist_of` a.
Proof.
  unfold support. induction a as [|x a IH]; intros [|w p]; simpl;
    try apply sublist_nil_l.
  rewrite filter_cons. case_decide; csimpl.
  - apply sublist_skip, IH.
  - apply sublist_cons, IH.
Qed.

Lemma sample_spec {A} (population : list A) k s res s' :
  sample population k s = (Ok res, s') -> NoDup population ->
  NoDup res /\ (forall x, x ∈ res -> x ∈ population)
  /\ Z.of_nat (length res) = k.
Proof.
  unfold sample. case_decide as Hk; [|done]. intros H Hnd.
  destruct (sample_from_spec _ _ _ _ _ _ H Hnd) as (H1 & H2 & H3).
  split; [done|]. split; [done|]. lia.
Qed.

Lemma np_random_choice_spec {A} (a : list A) size p s res s' :
  np_random_choice a size p s = (Ok res, s') -> NoDup a ->
  NoDup res /\ (forall x, x ∈ res -> x ∈ a) /\ Z.of_nat (length res) = size.
Proof.
  unfold np_random_choice. repeat (case_decide; [done|]). intros Hrun Hnd.
  pose proof (support_sublist a p) as Hsub.
  assert (Hnds : NoDup (support a p)) by (eapply sublist_NoDup; eauto).
  destruct (sample_from_spec _ _ _ _ _ _ Hrun Hnds) as (Hr1 & Hr2 & Hr3).
  split; [done|]. split; [|lia].
  intros x Hx. eapply elem_of_sublist; [by apply Hr2 | done].
Qed.

(** The columns that the selection step chooses are distinct positions of
    the non-Clifford columns, [total_non_cliff - N] of them. *)
Lemma select_columns_spec rz total N method_select sigma s c s' :
  select_columns rz total N method_select sigma s = (Ok c, s') ->
  NoDup c /\ (forall j, j ∈ c -> j < total)
  /\ Z.of_nat (length c) = (Z.of_nat total - N)%Z.
Proof.
  unfold select_columns. intros Hrun.
  assert (Hseq : forall j, j ∈ seq 0 total -> j < total)
    by (intros j Hj; apply elem_of_seq in Hj; lia).
  repeat case_decide.
  - apply sample_spec in Hrun as (Hr1 & Hr2 & Hr3); [|apply NoDup_seq]. auto.
  - apply bind_inv_ok in Hrun as (probabilities & s1 & _ & Hrun).
    apply np_random_choice_spec in Hrun as (Hr1 & Hr2 & Hr3); [|apply NoDup_seq].
    auto.
  - done.
Qed.

(** ** Calls of [generate_training_circuits] that raise *)

Lemma replace_angles_empty method_replace sigma s :
  exists e, replace_angles [] method_replace sigma s = (Raise e, s).
Proof. unfold replace_angles. repeat case_decide; by eexists. Qed.

Lemma replace_angles_invalid row method_replace sigma s :
  method_replace <> "closest" -> method_replace <> "random" ->
  method_replace <> "probabilistic" ->
  replace_angles row method_replace sigma s = (Raise (Exception_ replace_msg), s).
Proof. intros. unfold replace_angles. by rewrite !decide_False. Qed.

Lemma select_columns_invalid rz total N method_select sigma s :
  method_select <> "random" -> method_select <> "probabilistic" ->
  select_columns rz total N method_select sigma s
  = (Raise (Exception_ select_msg), s).
Proof. intros. unfold select_columns. by rewrite !decide_False. Qed.

Lemma py_int_INR n : py_int (1 * INR n) = Z.of_nat n.
Proof.
  apply py_int_eq; [lia|]. rewrite <- INR_IZR_INZ. lra.
Qed.

Lemma near_clifford_data_fraction_one rz all_cliff method_select method_replace
    (kwargs : gmap string kwvalue) :
  raises (near_clifford_data rz all_cliff (length rz) 1 method_select
            method_replace kwargs).
Proof.
  unfold near_clifford_data. rewrite py_int_INR.
  apply raises_bind_r. intros sigmas.
  apply (raises_bind_post _ _ (fun c => c = [])).
  - intros s c s' H. apply select_columns_spec in H as (_ & _ & Hlen).
    destruct c; [done | simpl in Hlen; lia].
  - intros c ->. apply (raises_bind_post _ _ (fun sel => sel = [])).
    + intros s sel s' H. apply lift_inv_ok in H as [H _]. by inversion H.
    + intros sel ->. apply raises_bind_l. intros s.
      destruct (replace_angles_empty method_replace sigmas.2 s) as [e He].
      by exists e, s.
Qed.

Lemma near_clifford_data_invalid rz all_cliff total fraction method_select
    method_replace (kwargs : gmap string kwvalue) :
  (method_select <> "random" /\ method_select <> "probabilistic")
  \/ (method_replace <> "closest" /\ method_replace <> "random"
      /\ method_replace <> "probabilistic") ->
  raises (near_clifford_data rz all_cliff total fraction method_select
            method_replace kwargs).
Proof.
  intros Hbad. unfold near_clifford_data.
  apply raises_bind_r. intros sigmas.
  destruct Hbad as [[H1 H2] | (H1 & H2 & H3)].
  - apply raises_bind_l. intros s. rewrite select_columns_invalid by done.
    by eexists _, _.
  - apply raises_bind_r. intros c. apply raises_bind_r. intros sel.
    apply raises_bind_l. intros s. rewrite replace_angles_invalid by done.
    by eexists _, _.
Qed.

Lemma generate_training_circuits_raises circuit n fraction method_select
    method_replace (kwargs : gmap string kwvalue) :
  1 <= n ->
  (forall rz all_cliff kw,
     raises (near_clifford_data rz all_cliff (length rz) fraction method_select
               method_replace kw)) ->
  raises (generate_training_circuits circuit n fraction method_select
            method_replace kwargs).
Proof.
  intros Hn Hbody.
  assert (H : raises (bind (split_circuit circuit) (fun r =>
      let '(rz_non_cliff, all_cliff, empty_circuit) := r in
      training_loop n
        (_map_to_near_clifford rz_non_cliff all_cliff empty_circuit
           (length rz_non_cliff) fraction method_select method_replace
           (forwarded_kwargs kwargs))
        ([], [], [])))).
  { apply raises_bind_r. intros [[rz all_cliff] e].
    destruct n as [|n]; [lia|]. apply training_loop_raises.
    unfold _map_to_near_clifford. apply raises_bind_l, Hbody. }
  intros s. rewrite generate_training_circuits_forwarded. apply H.
Qed.

(** C5, what the code does.  With [fraction_non_clifford = 1.0] and at least
    one training circuit requested, [generate_training_circuits] raises on
    every circuit, with every pair of methods and from every state of the
    random source: no column is selected, and the replacement step hands the
    empty row of angles to a vectorized function. *)
Theorem fraction_one_raises (circuit : Circuit) (n : nat)
    (method_select method_replace : string) (kwargs : gmap string kwvalue) :
  1 <= n ->
  raises (generate_training_circuits circuit n 1 method_select method_replace
            kwargs).
Proof.
  intros Hn. apply generate_training_circuits_raises; [done|].
  intros. apply near_clifford_data_fraction_one.
Qed.

(** Witness for C5: one [rz] gate of angle [pi / 8], one training circuit. *)
Lemma fraction_one_raises_witness :
  raises (generate_training_circuits [rz_eighth] 1 1 "random" "closest" ∅).
Proof. apply fraction_one_raises. lia. Defined.

(** ** The first part of [generate_training_circuits] *)

Lemma is_clifford_angle_scalar_det theta s :
  deterministic_zone (scaled theta) ->
  _is_clifford_angle_scalar theta 1e-5 s = (Ok (is_clifford theta), s).
Proof.
  intros Hz. unfold _is_clifford_angle_scalar, _closest_clifford.
  set (a := py_mod theta (2 * PI)%R).
  assert (Hsa : scaled a = scaled theta) by apply scaled_mod.
  assert (Hza : deterministic_zone (scaled a)) by (by rewrite Hsa).
  erewrite bind_ok
    by (eapply np_vectorize_scalar; by apply closest_deterministic).
  erewrite bind_ok by reflexivity.
  rewrite Hsa. unfold is_clifford. fold a. case_decide.
  - by rewrite bool_decide_eq_true_2.
  - rewrite bool_decide_eq_false_2; [done|]. intros [_ ?]. done.
Qed.

Lemma mmap_is_clifford_det angles s :
  Forall (fun a => deterministic_zone (scaled a)) angles ->
  mmap (fun ang => _is_clifford_angle_scalar ang 1e-5) angles s
  = (Ok (is_clifford <$> angles), s).
Proof.
  induction 1 as [|a angles Ha Hall IH]; [done|].
  simpl. erewrite bind_ok by (by apply is_clifford_angle_scalar_det).
  erewrite bind_ok by exact IH. done.
Qed.

Lemma on_cells_is_clifford_det row angles s :
  floats row = Ok angles -> angles <> [] ->
  Forall (fun a => deterministic_zone (scaled a)) angles ->
  on_cells _is_clifford_angle row s = (Ok (is_clifford <$> angles), s).
Proof.
  intros Hf Hne Hall. unfold on_cells.
  erewrite bind_ok by (rewrite mmap_as_float, Hf; done).
  destruct angles as [|a angles]; [done|].
  assert (Hv : _is_clifford_angle (Array (a :: angles)) s
               = (Ok (Array (is_clifford <$> a :: angles)), s)).
  { unfold _is_clifford_angle, np_vectorize.
    erewrite bind_ok
      by (apply is_clifford_angle_scalar_det; by inversion Hall).
    erewrite bind_ok by (by apply mmap_is_clifford_det). done. }
  erewrite bind_ok by exact Hv. done.
Qed.

Lemma classify_row_length row mask :
  classify_row row = Ok mask -> length mask = length row.
Proof.
  unfold classify_row. intros H. apply rbind_inv_ok in H as (angles & Hf & H).
  assert (length angles = length row) as <-.
  { pose proof (mmap_as_float row zero_state) as Hm. rewrite Hf in Hm.
    by apply mmap_length in Hm. }
  destruct angles as [|a angles]; inversion H as [Hm].
  change (length (is_clifford <$> a :: angles) = length (a :: angles)).
  by rewrite length_fmap.
Qed.

(** What a successful first part returns, in terms of the table. *)
Lemma split_circuit_inv circuit s rz all_cliff e s' :
  split_circuit circuit s = (Ok (rz, all_cliff, e), s') ->
  exists cols mask,
    _circuit_to_array circuit = Ok (Table cols, e)
    /\ length mask = length (filter (fun c => name c = "rz") cols)
    /\ rz = mask_select (filter (fun c => name c = "rz") cols) (negb <$> mask)
    /\ all_cliff = filter (fun c => name c <> "rz") cols
                   ++ mask_select (filter (fun c => name c = "rz") cols) mask.
Proof.
  unfold split_circuit. intros H.
  apply bind_inv_ok in H as ([data e0] & s0 & Henc & H).
  apply lift_inv_ok in Henc as [Henc ->].
  apply bind_inv_ok in H as (cols & s0 & Hcols & H).
  apply lift_inv_ok in Hcols as [Hcols ->].
  destruct data as [cols0|]; [|done]. inversion Hcols; subst cols0.
  apply bind_inv_ok in H as (mask1 & s1 & Hm1 & H).
  apply bind_inv_ok in H as (mask2 & s2 & Hm2 & H).
  apply ret_inv_ok in H as [H _]. inversion H; subst. clear H.
  destruct (on_cells_is_clifford_run
    (parameter <$> filter (fun c => name c = "rz") cols) s) as (t1 & Hr1).
  destruct (on_cells_is_clifford_run
    (parameter <$> filter (fun c => name c = "rz") cols) s1) as (t2 & Hr2).
  rewrite Hr1 in Hm1. rewrite Hr2 in Hm2.
  inversion Hm1 as [[Hc1 Hs1]]. inversion Hm2 as [[Hc2 Hs2]].
  rewrite Hc1 in Hc2. inversion Hc2; subst mask2.
  exists cols, mask1. split; [done|]. split; [|done].
  apply classify_row_length in Hc1. by rewrite length_fmap in Hc1.
Qed.

Lemma split_circuit_det circuit cols e angles s :
  _circuit_to_array circuit = Ok (Table cols, e) ->
  floats (parameter <$> filter (fun c => name c = "rz") cols) = Ok angles ->
  angles <> [] ->
  Forall (fun a => deterministic_zone (scaled a)) angles ->
  split_circuit circuit s
  = (Ok (mask_select (filter (fun c => name c = "rz") cols)
           (negb <$> (is_clifford <$> angles)),
         filter (fun c => name c <> "rz") cols
         ++ mask_select (filter (fun c => name c = "rz") cols)
              (is_clifford <$> angles),
         e), s).
Proof.
  intros Henc Hf Hne Hall. unfold split_circuit.
  erewrite bind_ok by (unfold lift; rewrite Henc; done).
  cbv beta iota.
  erewrite bind_ok by reflexivity.
  erewrite bind_ok by (by eapply on_cells_is_clifford_det).
  erewrite bind_ok by (by eapply on_cells_is_clifford_det).
  done.
Qed.

(** ** The example circuit, evaluated *)

Section example_circuit.
Local Open Scope R_scope.

Lemma scaled_eighth : scaled (1 / 8 * PI) = 1 / 4.
Proof.
  replace (1 / 8 * PI) with (1 / 4 * (PI / 2)) by lra.
  apply scaled_of_multiple. lra.
Qed.

Lemma deterministic_zone_eighth : deterministic_zone (scaled (1 / 8 * PI)).
Proof.
  rewrite scaled_eighth. unfold deterministic_zone. repeat split; abs_cases; lra.
Qed.

Lemma is_clifford_eighth : is_clifford (1 / 8 * PI) = false.
Proof.
  unfold is_clifford. apply bool_decide_eq_false_2. intros [_ H].
  rewrite scaled_eighth in H. rewrite (np_round_eq _ 0) in H by (abs_cases; lra).
  change (0 mod 4)%Z with 0%Z in H.
  rewrite py_mod_small in H by (pose proof PI2_bounds; lra).
  pose proof PI2_bounds. abs_cases; lra.
Qed.

Lemma circuit_to_array_eighth :
  _circuit_to_array [rz_eighth] = Ok (Table [rz_eighth_column], []).
Proof. reflexivity. Qed.

Lemma split_circuit_eighth s :
  split_circuit [rz_eighth] s = (Ok ([rz_eighth_column], [], []), s).
Proof.
  erewrite (split_circuit_det _ _ _ [1 / 8 * PI]);
    [| apply circuit_to_array_eighth | reflexivity | done
     | repeat constructor; apply deterministic_zone_eighth ].
  change (is_clifford <$> [1 / 8 * PI]) with [is_clifford (1 / 8 * PI)].
  rewrite is_clifford_eighth. reflexivity.
Qed.

End example_circuit.

(** ** Invalid method strings *)

Lemma map_to_near_clifford_select_invalid rz all_cliff e total fraction
    method_select method_replace (kwargs : gmap string kwvalue) sigmas s :
  method_select <> "random" -> method_select <> "probabilistic" ->
  resolve_sigmas (default KwNone (kwargs !! "additional_options")) = Ok sigmas ->
  _map_to_near_clifford rz all_cliff e total fraction method_select
    method_replace kwargs s
  = (Raise (Exception_ select_msg), s).
Proof.
  intros H1 H2 Hsig. unfold _map_to_near_clifford.
  erewrite bind_raise; [done|]. unfold near_clifford_data.
  erewrite bind_ok by (unfold lift; rewrite Hsig; done).
  erewrite bind_raise; [done|]. by apply select_columns_invalid.
Qed.

Lemma map_to_near_clifford_replace_invalid rz all_cliff e total fraction
    method_select method_replace (kwargs : gmap string kwvalue) sigmas
    s c s1 sel :
  method_replace <> "closest" -> method_replace <> "random" ->
  method_replace <> "probabilistic" ->
  resolve_sigmas (default KwNone (kwargs !! "additional_options")) = Ok sigmas ->
  select_columns rz total (py_int (fraction * INR total)) method_select
    sigmas.1 s = (Ok c, s1) ->
  take_columns rz c = Ok sel ->
  _map_to_near_clifford rz all_cliff e total fraction method_select
    method_replace kwargs s
  = (Raise (Exception_ replace_msg), s1).
Proof.
  intros H1 H2 H3 Hsig Hsel Htake. unfold _map_to_near_clifford.
  erewrite bind_raise; [done|]. unfold near_clifford_data.
  erewrite bind_ok by (unfold lift; rewrite Hsig; done).
  erewrite bind_ok by exact Hsel.
  erewrite bind_ok by (unfold lift; rewrite Htake; done).
  erewrite bind_raise; [done|]. by apply replace_angles_invalid.
Qed.

(** C3, as amended.  With at least one training circuit requested, a call
    of [generate_training_circuits] with an invalid [method_select] or
    [method_replace] raises and returns nothing.  In
    [_map_to_near_clifford], once the options are read, an invalid
    [method_select] raises before any draw of the selection; an invalid
    [method_replace] raises after the selection step has run (in the state
    of the random source that the selection leaves) and before any
    replacement is drawn. *)
Theorem invalid_method_raises (circuit : Circuit) (n : nat) (fraction : R)
    (method_select method_replace : string) (kwargs : gmap string kwvalue) :
  (1 <= n ->
   (method_select <> "random" /\ method_select <> "probabilistic")
   \/ (method_replace <> "closest" /\ method_replace <> "random"
       /\ method_replace <> "probabilistic") ->
   raises (generate_training_circuits circuit n fraction method_select
             method_replace kwargs))
  /\ (forall rz all_cliff e total sigmas s,
      method_select <> "random" -> method_select <> "probabilistic" ->
      resolve_sigmas (default KwNone (kwargs !! "additional_options"))
      = Ok sigmas ->
      _map_to_near_clifford rz all_cliff e total fraction method_select
        method_replace kwargs s
      = (Raise (Exception_ select_msg), s))
  /\ (forall rz all_cliff e total sigmas s c s1 sel,
      method_replace <> "closest" -> method_replace <> "random" ->
      method_replace <> "probabilistic" ->
      resolve_sigmas (default KwNone (kwargs !! "additional_options"))
      = Ok sigmas ->
      select_columns rz total (py_int (fraction * INR total)) method_select
        sigmas.1 s = (Ok c, s1) ->
      take_columns rz c = Ok sel ->
      _map_to_near_clifford rz all_cliff e total fraction method_select
        method_replace kwargs s
      = (Raise (Exception_ replace_msg), s1)).
Proof.
  split; [|split].
  - intros Hn Hbad. apply generate_training_circuits_raises; [done|].
    intros. by apply near_clifford_data_invalid.
  - intros. by eapply map_to_near_clifford_select_invalid.
  - intros. by eapply map_to_near_clifford_replace_invalid.
Qed.

(** Witness for C3: an invalid [method_select] on the example circuit. *)
Lemma invalid_method_raises_witness :
  raises (generate_training_circuits [rz_eighth] 1 0 "bogus" "closest" ∅).
Proof.
  apply (proj1 (invalid_method_raises [rz_eighth] 1 0 "bogus" "closest" ∅)).
  - lia.
  - left. done.
Defined.

Lemma sample_one s :
  sample (seq 0 1) 1 s = (Ok [0], advance_py s).
Proof.
  unfold sample. rewrite decide_True by (simpl; lia).
  change (Z.to_nat 1) with 1. simpl. unfold bind, py_randbelow.
  by rewrite Nat.mod_1_r.
Qed.

Lemma py_int_zero_fraction n : py_int (0 * INR n) = 0%Z.
Proof. apply py_int_eq; [lia | simpl; lra]. Qed.

(** C3, counterexample to the claim as stated.  On the example circuit,
    with the valid [method_select = 'random'] and the invalid
    [method_replace = 'bogus'], the call raises only after the selection has
    sampled: the random source has advanced by one draw. *)
Lemma invalid_method_replace_counterexample :
  generate_training_circuits [rz_eighth] 1 0 "random" "bogus" ∅ zero_state
  = (Raise (Exception_ replace_msg), advance_py zero_state)
  /\ draws_made zero_state < draws_made (advance_py zero_state).
Proof.
  split; [|unfold draws_made; simpl; lia].
  rewrite generate_training_circuits_forwarded.
  erewrite bind_ok by apply split_circuit_eighth.
  cbv beta iota. simpl training_loop.
  erewrite bind_raise; [done|].
  eapply (map_to_near_clifford_replace_invalid _ _ _ _ _ _ _ _ (0.5, 0.5)%R);
    try done.
  - unfold select_columns. rewrite decide_True by done.
    change (length [rz_eighth_column]) with 1. rewrite py_int_zero_fraction.
    apply sample_one.
  - reflexivity.
Qed.

(** The failing input of C5, evaluated: the [ValueError] of [np.vectorize],
    before any draw. *)
Lemma fraction_one_eighth s :
  generate_training_circuits [rz_eighth] 1 1 "random" "closest" ∅ s
  = (Raise (ValueError vectorize_msg), s).
Proof.
  rewrite generate_training_circuits_forwarded.
  erewrite bind_ok by apply split_circuit_eighth.
  cbv beta iota. simpl training_loop.
  erewrite bind_raise; [done|].
  unfold _map_to_near_clifford. erewrite bind_raise; [done|].
  unfold near_clifford_data. rewrite py_int_INR.
  erewrite bind_ok by reflexivity.
  unfold select_columns. rewrite decide_True by done.
  change (length [rz_eighth_column]) with 1.
  erewrite bind_ok by reflexivity.
  reflexivity.
Qed.

(** ** Columns taken, deleted and sorted *)

Lemma take_columns_inv {A} (l : list A) idx : forall res,
  take_columns l idx = Ok res -> Forall2 (fun j c => l !! j = Some c) idx res.
Proof.
  unfold take_columns. induction idx as [|j idx IH]; intros res H; simpl in H.
  - inversion H. constructor.
  - apply rbind_inv_ok in H as (c & Hc & H).
    apply rbind_inv_ok in H as (res' & Hres & H). inversion H; subst.
    constructor; [|by apply IH]. by destruct (l !! j); inversion Hc.
Qed.

Lemma take_columns_total {A} (l : list A) idx :
  (forall j, j ∈ idx -> j < length l) -> exists res, take_columns l idx = Ok res.
Proof.
  unfold take_columns. induction idx as [|j idx IH]; intros Hlt; [by eexists|].
  destruct IH as [res Hres]; [intros; apply Hlt; by right|].
  destruct (lookup_lt_is_Some_2 l j) as [c Hc]; [apply Hlt; by left|].
  exists (c :: res). simpl. by rewrite Hc, Hres.
Qed.

Lemma elem_of_zip_seq {A} (l : list A) j c :
  (j, c) ∈ zip (seq 0 (length l)) l <-> l !! j = Some c.
Proof.
  rewrite list_elem_of_lookup. split.
  - intros [i Hi]. apply lookup_zip_Some in Hi as [Hs Hl].
    apply lookup_seq in Hs as [-> _]. done.
  - intros Hl. exists j. apply lookup_zip_Some. split; [|done].
    apply lookup_seq. split; [done|]. by eapply lookup_lt_Some.
Qed.

Lemma NoDup_zip_fst {A B} (l : list A) : forall k : list B,
  NoDup l -> NoDup (zip l k).
Proof.
  induction l as [|x l IH]; intros [|y k] Hnd; simpl; try constructor.
  - apply NoDup_cons in Hnd as [Hx _]. intros Hin.
    by apply elem_of_zip_l in Hin.
  - apply IH. by apply NoDup_cons in Hnd as [_ ?].
Qed.

Lemma elem_of_zip_Forall2 {A B} (P : A -> B -> Prop) l k x y :
  Forall2 P l k -> (x, y) ∈ zip l k -> P x y.
Proof.
  induction 1 as [|a b l k Hab Hall IH]; simpl; intros Hin.
  - by apply elem_of_nil in Hin.
  - apply elem_of_cons in Hin as [Heq | Hin]; [by inversion Heq; subst | auto].
Qed.

Lemma elem_of_zip_intro {A B} (P : A -> B -> Prop) l k x :
  Forall2 P l k -> x ∈ l -> exists y, (x, y) ∈ zip l k.
Proof.
  induction 1 as [|a b l k Hab Hall IH]; intros Hin.
  - by apply elem_of_nil in Hin.
  - apply elem_of_cons in Hin as [-> | Hin].
    + exists b. by left.
    + destruct (IH Hin) as [y Hy]. exists y. by right.
Qed.

(** The selected columns and the remaining columns make up the columns. *)
Lemma take_delete_perm {A} (l : list A) idx sel :
  NoDup idx -> take_columns l idx = Ok sel -> sel ++ np_delete l idx ≡ₚ l.
Proof.
  intros Hnd Htake. apply take_columns_inv in Htake.
  unfold np_delete. set (pairs := zip (seq 0 (length l)) l).
  assert (Hsel : sel = (zip idx sel).*2).
  { rewrite snd_zip; [done|]. by rewrite (Forall2_length _ _ _ Htake). }
  assert (Hperm : zip idx sel ≡ₚ filter (fun jc => jc.1 ∈ idx) pairs).
  { apply NoDup_Permutation.
    - by apply NoDup_zip_fst.
    - apply NoDup_filter, NoDup_zip_fst, NoDup_seq.
    - intros [j c]. rewrite list_elem_of_filter. unfold pairs.
      rewrite elem_of_zip_seq. simpl. split.
      + intros Hin. split; [by eapply elem_of_zip_l|].
        by apply (elem_of_zip_Forall2 _ _ _ _ _ Htake).
      + intros [Hj Hl]. destruct (elem_of_zip_intro _ _ _ _ Htake Hj) as [c' Hc'].
        pose proof (elem_of_zip_Forall2 _ _ _ _ _ Htake Hc') as Hl'. simpl in Hl'.
        rewrite Hl in Hl'. by inversion Hl'; subst. }
  rewrite Hsel at 1. rewrite <- fmap_app, Hperm.
  rewrite (filter_app_complement (fun jc : nat * A => jc.1 ∈ idx) pairs).
  unfold pairs. rewrite snd_zip; [done|]. by rewrite length_seq.
Qed.

Lemma filter_none {A} (P : A -> Prop) `{!forall x, Decision (P x)} (l : list A) :
  (forall x, x ∈ l -> ~ P x) -> filter P l = [].
Proof.
  induction l as [|x l IH]; intros Hno; [done|].
  rewrite filter_cons, decide_False by (apply Hno; by left).
  apply IH. intros y Hy. apply Hno. by right.
Qed.

Lemma take_columns_perm {A} (l : list A) idx res :
  take_columns l idx = Ok res -> idx ≡ₚ seq 0 (length l) -> res ≡ₚ l.
Proof.
  intros Htake Hperm.
  assert (Hnd : NoDup idx) by (rewrite Hperm; apply NoDup_seq).
  pose proof (take_delete_perm _ _ _ Hnd Htake) as H.
  assert (Hdel : np_delete l idx = []).
  { unfold np_delete. rewrite filter_none; [done|].
    intros [j c] Hin Hj. apply Hj. simpl. rewrite Hperm.
    by apply elem_of_zip_l in Hin. }
  by rewrite Hdel, app_nil_r in H.
Qed.

#[local] Instance key_le_trans : Transitive key_le.
Proof. intros a b c. unfold key_le. lia. Qed.

#[local] Instance key_le_total : Total key_le.
Proof. intros a b. unfold key_le. lia. Qed.

Lemma StronglySorted_seq i n : StronglySorted le (seq i n).
Proof.
  revert i. induction n as [|n IH]; intros i; simpl; constructor; [apply IH|].
  apply Forall_forall. intros j Hj. apply elem_of_seq in Hj. lia.
Qed.

Lemma sorted_perm_seq keys n :
  StronglySorted le keys -> keys ≡ₚ seq 0 n -> keys = seq 0 n.
Proof.
  intros Hs Hp. apply (StronglySorted_unique le); [done | apply StronglySorted_seq | done].
Qed.

Lemma orders_of_sorted_pairs (l : list column) (sp : list (nat * nat)) res :
  Forall (fun kj => (order <$> l) !! kj.2 = Some kj.1) sp ->
  Forall2 (fun kj c => l !! kj.2 = Some c) sp res ->
  order <$> res = sp.*1.
Proof.
  intros Hkeys Htake. induction Htake as [|[k j] c sp res Hc Htake IH]; [done|].
  apply Forall_cons in Hkeys as [Hk Hkeys]. csimpl. f_equal; [|by apply IH].
  simpl in *. rewrite list_lookup_fmap, Hc in Hk. by inversion Hk.
Qed.

(** Sorting the columns by [order] with [np.argsort]: the same columns, by
    increasing [order]. *)
Lemma argsort_take (l res : list column) :
  take_columns l (np_argsort (order <$> l)) = Ok res ->
  res ≡ₚ l /\ StronglySorted le (order <$> res).
Proof.
  unfold np_argsort. intros Htake.
  set (keys := order <$> l) in *.
  set (sp := merge_sort key_le (zip keys (seq 0 (length keys)))) in *.
  assert (Hsp : sp ≡ₚ zip keys (seq 0 (length keys)))
    by apply merge_sort_Permutation.
  split.
  - apply (take_columns_perm _ _ _ Htake).
    rewrite Hsp, snd_zip by (by rewrite length_seq).
    unfold keys. by rewrite length_fmap.
  - erewrite (orders_of_sorted_pairs l sp).
    + apply (StronglySorted_fmap fst key_le le); [by unfold key_le|].
      apply (StronglySorted_merge_sort key_le).
    + apply Forall_forall. intros [k j] Hin. rewrite Hsp in Hin.
      apply list_elem_of_lookup in Hin as [i Hi].
      apply lookup_zip_Some in Hi as [Hk Hj].
      apply lookup_seq in Hj as [-> _]. done.
    + apply take_columns_inv in Htake. by apply Forall2_fmap_l in Htake.
Qed.

(** ** The rewrite keeps the order of the gates *)

Lemma mask_select_perm {A} (l : list A) : forall mask,
  length mask = length l ->
  mask_select l mask ++ mask_select l (negb <$> mask) ≡ₚ l.
Proof.
  induction l as [|x l IH]; intros [|b mask] Hlen; try done.
  simpl in Hlen. csimpl. destruct b; simpl.
  - constructor. apply IH. lia.
  - rewrite <- Permutation_middle. constructor. apply IH. lia.
Qed.

Lemma mask_select_elem_of {A} (l : list A) x : forall mask,
  x ∈ mask_select l mask -> x ∈ l.
Proof.
  induction l as [|y l IH]; intros [|b mask] Hin; simpl in Hin;
    try (by apply elem_of_nil in Hin).
  destruct b.
  - apply elem_of_cons in Hin as [-> | Hin]; [by left | right; eauto].
  - right; eauto.
Qed.

Lemma on_cells_length {B} (f : ndarray R -> M (ndarray B)) (g : R -> M B)
    row s ys s' :
  (forall a, f a = np_vectorize g a) ->
  on_cells f row s = (Ok ys, s') -> length ys = length row.
Proof.
  intros Hf H. unfold on_cells in H.
  apply bind_inv_ok in H as (angles & s1 & Hangles & H).
  apply mmap_length in Hangles. rewrite <- Hangles.
  apply bind_inv_ok in H as (a & s2 & Ha & H). rewrite Hf in Ha.
  destruct angles as [|x angles]; [done|]. simpl in Ha.
  apply bind_inv_ok in Ha as (y0 & s3 & _ & Ha).
  apply bind_inv_ok in Ha as (ys' & s4 & Hmap & Ha).
  apply ret_inv_ok in Ha as [-> _]. apply ret_inv_ok in H as [-> _].
  by apply (mmap_length g (x :: angles)) in Hmap.
Qed.

Lemma replace_angles_length row method_replace sigma s new s' :
  replace_angles row method_replace sigma s = (Ok new, s') ->
  length new = length row.
Proof.
  unfold replace_angles. repeat case_decide; intros Hrun; [| | |done].
  - by eapply (on_cells_length _ _closest_clifford_scalar) in Hrun.
  - by eapply (on_cells_length _ _random_clifford_scalar) in Hrun.
  - by eapply (on_cells_length _
      (fun a => _probabilistic_angle_to_clifford_scalar a sigma)) in Hrun.
Qed.

Lemma set_parameters_spec sel : forall new,
  length new = length sel ->
  order <$> set_parameters sel new = order <$> sel
  /\ Forall2 (fun c c' => exists v, c' = with_parameter c v) sel
       (set_parameters sel new).
Proof.
  unfold set_parameters.
  induction sel as [|c sel IH]; intros [|v new] Hlen; try done.
  destruct (IH new) as [Ho Hf]; [simpl in Hlen; lia|].
  csimpl. split; [by rewrite Ho|]. constructor; eauto.
Qed.

(** What a successful run of [_map_to_near_clifford] has built when it hands
    the table to [_array_to_circuit]. *)
Lemma near_clifford_data_inv rz all_cliff total fraction method_select
    method_replace (kwargs : gmap string kwvalue) s proj ao ar s' :
  near_clifford_data rz all_cliff total fraction method_select method_replace
    kwargs s = (Ok (proj, ao, ar), s') ->
  exists sel rest new,
    sel ++ rest ≡ₚ rz
    /\ length new = length sel
    /\ proj ≡ₚ all_cliff ++ set_parameters sel new ++ rest
    /\ StronglySorted le (order <$> proj)
    /\ ao = parameter <$> sel
    /\ ar = parameter <$> set_parameters sel new.
Proof.
  unfold near_clifford_data. intros H.
  apply bind_inv_ok in H as (sigmas & s0 & _ & H).
  apply bind_inv_ok in H as (c & s1 & Hsel & H).
  apply select_columns_spec in Hsel as (Hnd & _ & _).
  apply bind_inv_ok in H as (sel & s2 & Htake & H).
  apply lift_inv_ok in Htake as [Htake ->].
  apply bind_inv_ok in H as (new & s3 & Hnew & H).
  apply replace_angles_length in Hnew. rewrite length_fmap in Hnew.
  apply bind_inv_ok in H as (proj' & s4 & Hsort & H).
  apply lift_inv_ok in Hsort as [Hsort ->].
  apply ret_inv_ok in H as [H _]. inversion H; subst. clear H.
  apply argsort_take in Hsort as [Hperm Hsorted].
  exists sel, (np_delete rz c), new.
  split; [by apply take_delete_perm|]. split; [done|].
  split; [by rewrite Hperm, <- app_assoc|]. done.
Qed.

Lemma Forall2_elem_of_r {A B} (P : A -> B -> Prop) l k y :
  Forall2 P l k -> y ∈ k -> exists x, x ∈ l /\ P x y.
Proof.
  induction 1 as [|a b l k Hab Hall IH]; intros Hin.
  - by apply elem_of_nil in Hin.
  - apply elem_of_cons in Hin as [-> | Hin].
    + exists a. split; [by left | done].
    + destruct (IH Hin) as (x & Hx & HP). exists x. split; [by right | done].
Qed.

Lemma column_at_order cols n c :
  order <$> cols = seq 0 n -> c ∈ cols -> cols !! order c = Some c.
Proof.
  intros Ho Hin. apply list_elem_of_lookup in Hin as [i Hi].
  assert (Hoi : (order <$> cols) !! i = Some (order c))
    by (by rewrite list_lookup_fmap, Hi).
  rewrite Ho in Hoi. apply lookup_seq in Hoi as [-> _]. done.
Qed.

(** The table handed to [_array_to_circuit] has the [order] row of the
    original table, and column by column it is the original table, up to
    the angles of the selected [rz] columns. *)
Lemma rewritten_table cols n rz all_cliff sel rest new proj :
  order <$> cols = seq 0 n ->
  all_cliff ++ rz ≡ₚ cols ->
  Forall (fun c => name c = "rz") rz ->
  sel ++ rest ≡ₚ rz ->
  length new = length sel ->
  proj ≡ₚ all_cliff ++ set_parameters sel new ++ rest ->
  StronglySorted le (order <$> proj) ->
  order <$> proj = seq 0 n
  /\ NoDup (order <$> sel)
  /\ Forall2 (fun i a => exists c, cols !! i = Some c /\ parameter c = a)
       (order <$> sel) (parameter <$> sel)
  /\ Forall2 (fun i a => exists c', proj !! i = Some c' /\ parameter c' = a)
       (order <$> sel) (parameter <$> set_parameters sel new)
  /\ Forall2 (rewritten (order <$> sel)) cols proj.
Proof.
  intros Ho Hcols Hrz Hsel Hlen Hproj Hsorted.
  destruct (set_parameters_spec sel new Hlen) as [Hso Hsf].
  assert (Hop : order <$> proj = seq 0 n).
  { apply sorted_perm_seq; [done|].
    rewrite Hproj, !fmap_app, Hso, <- !fmap_app, Hsel, Hcols. by rewrite Ho. }
  split; [done|].
  assert (Hselcols : forall c, c ∈ sel -> c ∈ cols).
  { intros c Hc. rewrite <- Hcols, <- Hsel. rewrite !elem_of_app. auto. }
  split; [|split; [|split] ].
  { assert (Hnd : NoDup (order <$> (all_cliff ++ sel ++ rest)))
      by (rewrite Hsel, Hcols, Ho; apply NoDup_seq).
    rewrite !fmap_app in Hnd. apply NoDup_app in Hnd as (_ & _ & Hnd).
    by apply NoDup_app in Hnd as (Hnd & _ & _). }
  { apply Forall2_fmap, Forall_Forall2_diag, Forall_forall.
    intros c Hc. exists c. split; [|done].
    by apply (column_at_order _ n), Hselcols. }
  { apply Forall2_fmap. apply Forall2_same_length_lookup_2.
    { by apply Forall2_length in Hsf. }
    intros i c c' Hc Hc'. exists c'. split; [|done].
    destruct (Forall2_lookup_lr _ _ _ _ _ _ Hsf Hc Hc') as [v ->].
    change (order c) with (order (with_parameter c v)).
    apply (column_at_order _ n); [done|]. rewrite Hproj, !elem_of_app.
    right; left. by eapply list_elem_of_lookup_2. }
  apply Forall2_same_length_lookup_2.
  { rewrite <- (length_fmap order cols), <- (length_fmap order proj).
    by rewrite Ho, Hop. }
  intros i c c' Hc Hc'.
  assert (Hin : c ∈ cols) by (by eapply list_elem_of_lookup_2).
  assert (Hoc : order c = i).
  { pose proof (column_at_order _ _ _ Ho Hin) as H.
    assert (Hoi : (order <$> cols) !! i = Some (order c))
      by (by rewrite list_lookup_fmap, Hc).
    rewrite Ho in Hoi. by apply lookup_seq in Hoi as [-> _]. }
  assert (Hoc' : order c' = i).
  { assert (Hoi : (order <$> proj) !! i = Some (order c'))
      by (by rewrite list_lookup_fmap, Hc').
    rewrite Hop in Hoi. by apply lookup_seq in Hoi as [-> _]. }
  assert (Hsame : forall c0, c0 ∈ cols -> order c0 = i -> c0 = c).
  { intros c0 Hin0 Ho0. pose proof (column_at_order _ _ _ Ho Hin0) as H.
    rewrite Ho0, Hc in H. by inversion H. }
  assert (Hin' : c' ∈ all_cliff ++ set_parameters sel new ++ rest).
  { rewrite <- Hproj. by eapply list_elem_of_lookup_2. }
  rewrite !elem_of_app in Hin'. destruct Hin' as [Ha | [Hs | Hr] ].
  - left. apply Hsame; [|done]. rewrite <- Hcols. apply elem_of_app. by left.
  - destruct (Forall2_elem_of_r _ _ _ _ Hsf Hs) as (c0 & Hc0 & v & ->).
    assert (Hc0rz : c0 ∈ rz) by (rewrite <- Hsel; apply elem_of_app; by left).
    assert (c0 = c) as ->.
    { apply Hsame; [|done]. rewrite <- Hcols. apply elem_of_app. by right. }
    right. split; [|split].
    + apply list_elem_of_fmap. by exists c.
    + by apply (proj1 (Forall_forall _ _) Hrz).
    + by exists v.
  - left. apply Hsame; [|done]. rewrite <- Hcols. apply elem_of_app. right.
    rewrite <- Hsel. apply elem_of_app. by right.
Qed.

Lemma PI_neq0' : PI <> 0%R.
Proof. pose proof PI2_bounds. lra. Qed.

(** A column of the rewritten table appends exactly one operation, and the
    encoder reads the column back from it. *)
Lemma decode_rewritten op c c' changed acc :
  encodes op c -> rewritten changed c c' ->
  exists op',
    decode_step acc c' = Ok (acc ++ [op'])
    /\ gate_cells op' = Some (name c', parameter c', qubit c')
    /\ same_instruction op op'.
Proof.
  intros [Hcells Hop] Hrw. destruct c as [o nm p q op0]. simpl in *. subst op0.
  assert (Hfield : forall x : R, (x / PI * PI)%R = x)
    by (intros x; field; apply PI_neq0').
  destruct Hrw as [-> | (_ & Hnm & v & ->)].
  - unfold gate_cells in Hcells. unfold decode_step. simpl.
    destruct (gate op) as [|e|[|]| |] eqn:Hg;
      destruct (qubits op) as [|q0 [|q1 qs]] eqn:Hq; inversion Hcells; subst;
      simpl; eexists; (split; [reflexivity|]);
      (split; [unfold gate_cells; simpl; rewrite ?Hg, ?Hq, ?Hfield; reflexivity|]);
      unfold same_instruction, gate_cells; rewrite Hg, Hq; simpl;
      do 4 eexists; (split; [reflexivity|]);
      (split; [rewrite ?Hg, ?Hq; reflexivity|]); auto.
  - simpl in Hnm. subst nm. unfold gate_cells in Hcells.
    destruct (gate op) as [|e|[|]| |] eqn:Hg;
      destruct (qubits op) as [|q0 [|q1 qs]] eqn:Hq; inversion Hcells; subst;
      unfold decode_step, with_parameter; simpl;
      eexists; (split; [reflexivity|]);
      (split; [unfold gate_cells; simpl; rewrite Hfield; reflexivity|]);
      unfold same_instruction, gate_cells; rewrite Hg, Hq; simpl;
      do 4 eexists; (split; [reflexivity|]); (split; [reflexivity|]); auto.
Qed.

Lemma array_to_circuit_spec changed circuit cols :
  Forall2 encodes circuit cols ->
  forall proj acc, Forall2 (rewritten changed) cols proj ->
  exists ops,
    _array_to_circuit proj acc = Ok (acc ++ ops)
    /\ Forall2 same_instruction circuit ops
    /\ Forall2 (fun c' op' =>
                  gate_cells op' = Some (name c', parameter c', qubit c'))
         proj ops.
Proof.
  induction 1 as [|op c circuit cols Henc Hall IH]; intros proj acc Hrw.
  - inversion Hrw; subst. exists []. rewrite app_nil_r. repeat constructor.
  - inversion Hrw as [|? c' ? proj' Hc Hrw']; subst.
    destruct (decode_rewritten _ _ _ _ acc Henc Hc) as (op' & Hdec & Hcells & Hsame).
    destruct (IH proj' (acc ++ [op']) Hrw') as (ops & Hrun & Hs & Hg).
    exists (op' :: ops). simpl. rewrite Hdec. simpl. rewrite Hrun, <- app_assoc.
    split; [done|]. split; by constructor.
Qed.

Lemma triples_snoc cs aos ars c ao ar :
  length aos = length cs -> length ars = length cs ->
  triples (cs ++ [c], aos ++ [ao], ars ++ [ar])
  = triples (cs, aos, ars) ++ [(c, ao, ar)].
Proof.
  intros H1 H2. unfold triples. simpl.
  rewrite (zip_with_app pair cs [c] aos [ao]) by done.
  rewrite zip_with_app; [done|]. rewrite length_zip_with. lia.
Qed.

Lemma training_loop_inv n body
    (P : Circuit * list (option R) * list (option R) -> Prop) :
  (forall s r s', body s = (Ok r, s') -> P r) ->
  forall acc s res s',
    training_loop n body acc s = (Ok res, s') ->
    length acc.1.2 = length acc.1.1 -> length acc.2 = length acc.1.1 ->
    Forall P (triples acc) ->
    Forall P (triples res)
    /\ length res.1.1 = length acc.1.1 + n
    /\ length res.1.2 = length res.1.1
    /\ length res.2 = length res.1.1.
Proof.
  intros Hbody. induction n as [|n IH]; intros acc s res s' H Hl1 Hl2 Hacc;
    simpl in H.
  - apply ret_inv_ok in H as [-> _]. repeat split; [done | lia | done | done].
  - apply bind_inv_ok in H as ([[c ao] ar] & s1 & Hb & H).
    destruct acc as [[cs aos] ars]. simpl in Hl1, Hl2.
    apply IH in H as (H1 & H2 & H3 & H4).
    + split; [done|]. simpl in *. rewrite length_app in H2. simpl in H2.
      split; [lia | done].
    + simpl. rewrite !length_app. simpl. lia.
    + simpl. rewrite !length_app. simpl. lia.
    + rewrite triples_snoc by done. apply Forall_app. split; [done|].
      constructor; [|done]. apply (Hbody _ _ _ Hb).
Qed.

Lemma split_circuit_columns circuit s rz all_cliff e s' :
  split_circuit circuit s = (Ok (rz, all_cliff, e), s') ->
  exists cols,
    _circuit_to_array circuit = Ok (Table cols, e)
    /\ all_cliff ++ rz ≡ₚ cols
    /\ Forall (fun c => name c = "rz") rz.
Proof.
  intros H. apply split_circuit_inv in H as (cols & mask & Henc & Hlen & -> & ->).
  exists cols. split; [done|]. split.
  - rewrite <- app_assoc, mask_select_perm by done.
    rewrite Permutation_app_comm. apply filter_app_complement.
  - apply Forall_forall. intros c Hc. apply mask_select_elem_of in Hc.
    by apply list_elem_of_filter in Hc as [? _].
Qed.


(** ** A successful call, evaluated *)

Lemma closest_eighth s : _closest_clifford_scalar (1 / 8 * PI) s = (Ok 0%R, s).
Proof.
  rewrite closest_deterministic by apply deterministic_zone_eighth.
  rewrite scaled_eighth, (np_round_eq _ 0) by (abs_cases; lra).
  change (0 mod 4)%Z with 0%Z. by rewrite Rmult_0_l.
Qed.

Lemma replace_angles_eighth s :
  replace_angles [Some (1 / 8 * PI)%R] "closest" 0.5 s = (Ok [0%R], s).
Proof.
  unfold replace_angles. rewrite decide_True by done. unfold on_cells.
  erewrite bind_ok by reflexivity.
  assert (Hv : _closest_clifford (Array [(1 / 8 * PI)%R]) s = (Ok (Array [0%R]), s)).
  { unfold _closest_clifford, np_vectorize.
    erewrite bind_ok by apply closest_eighth.
    assert (Hm : mmap _closest_clifford_scalar [(1 / 8 * PI)%R] s = (Ok [0%R], s)).
    { simpl. erewrite bind_ok by apply closest_eighth. done. }
    erewrite bind_ok by exact Hm. done. }
  erewrite bind_ok by exact Hv. done.
Qed.

(** On the example circuit, with [fraction_non_clifford = 0], the one [rz]
    gate is selected and its angle [pi / 8] is replaced by the nearest
    Clifford angle, [0]. *)
Lemma generate_eighth_closest :
  generate_training_circuits [rz_eighth] 1 0 "random" "closest" ∅ zero_state
  = (Ok ([[GateOperation (cirq_rz 0) [0]]],
         [[Some (1 / 8 * PI)%R]], [[Some 0%R]]),
     advance_py zero_state).
Proof.
  rewrite generate_training_circuits_forwarded.
  erewrite bind_ok by apply split_circuit_eighth.
  cbv beta iota. simpl training_loop.
  assert (Hbody :
    _map_to_near_clifford [rz_eighth_column] [] [] (length [rz_eighth_column]) 0
      "random" "closest" (forwarded_kwargs ∅) zero_state
    = (Ok ([GateOperation (cirq_rz 0) [0]], [Some (1 / 8 * PI)%R], [Some 0%R]),
       advance_py zero_state)).
  { assert (Hdata :
      near_clifford_data [rz_eighth_column] [] (length [rz_eighth_column]) 0
        "random" "closest" (forwarded_kwargs ∅) zero_state
      = (Ok ([with_parameter rz_eighth_column 0], [Some (1 / 8 * PI)%R],
             [Some 0%R]),
         advance_py zero_state)).
    { unfold near_clifford_data. rewrite py_int_zero_fraction.
      erewrite bind_ok by reflexivity.
      unfold select_columns. rewrite decide_True by done.
      change (length [rz_eighth_column]) with 1.
      erewrite bind_ok by apply sample_one.
      erewrite bind_ok by reflexivity.
      erewrite bind_ok by apply replace_angles_eighth.
      reflexivity. }
    unfold _map_to_near_clifford. erewrite bind_ok by exact Hdata.
    reflexivity. }
  erewrite bind_ok by exact Hbody. reflexivity.
Qed.


(** ** Just below a midpoint

    Within [5e-7] below the midpoint [1.5] the tie branch truncates
    [s - 0.5] to the index 0: the angle returned can be [0], which is not one
    of the two Clifford angles nearest to the input, [pi / 2] and [pi]. *)
Lemma closest_clifford_below_midpoint :
  (Rabs (scaled ((1.5 - 2e-7) * (PI / 2)) - 1.5) <= 5e-7)%R
  /\ _closest_clifford (Scalar ((1.5 - 2e-7) * (PI / 2))%R) zero_state
     = (Ok (Scalar 0%R), advance_py (advance_py zero_state)).
Proof.
  assert (Hs : scaled ((1.5 - 2e-7) * (PI / 2)) = (1.5 - 2e-7)%R)
    by (apply scaled_of_multiple; lra).
  assert (Hz : ~ deterministic_zone (scaled ((1.5 - 2e-7) * (PI / 2)))).
  { rewrite Hs. unfold deterministic_zone. intros (_ & H & _). abs_cases; lra. }
  split; [rewrite Hs; abs_cases; lra|].
  assert (Hrun : forall s, py_tape s (py_pos s) = 0 ->
    _closest_clifford_scalar ((1.5 - 2e-7) * (PI / 2)) s = (Ok 0%R, advance_py s)).
  { intros s Htape. rewrite closest_tie by done. rewrite Hs.
    unfold tie_pick. rewrite Htape. simpl decide.
    rewrite (py_int_eq _ 0) by (simpl; lia || lra).
    by rewrite Rmult_0_l. }
  eapply np_vectorize_scalar; by apply Hrun.
Qed.

(** * Further properties of the module *)

(** ** The oracle is periodic in the angle *)

Section oracle_more.
Local Open Scope R_scope.

Lemma py_mod_period x m (k : Z) :
  0 < m -> py_mod (x + IZR k * m) m = py_mod x m.
Proof.
  intros Hm. unfold py_mod.
  replace ((x + IZR k * m) / m) with (x / m + IZR k) by (field; lra).
  rewrite Zfloor_addz, plus_IZR. ring.
Qed.

(** X1.  Angles that differ by a whole number of turns are treated alike:
    [_closest_clifford] and [_is_clifford_angle] behave on
    [theta + k * 2 pi] as on [theta], from every state of the random
    source. *)
Theorem oracle_periodic (theta : R) (k : Z) (s : random_state) :
  _closest_clifford (Scalar (theta + IZR k * (2 * PI))) s
  = _closest_clifford (Scalar theta) s
  /\ _is_clifford_angle (Scalar (theta + IZR k * (2 * PI))) s
     = _is_clifford_angle (Scalar theta) s.
Proof.
  assert (Hp : py_mod (theta + IZR k * (2 * PI)) (2 * PI) = py_mod theta (2 * PI)).
  { apply py_mod_period. pose proof PI2_bounds. lra. }
  split.
  - unfold _closest_clifford, np_vectorize, _closest_clifford_scalar.
    by rewrite Hp.
  - unfold _is_clifford_angle, np_vectorize, _is_clifford_angle_scalar.
    by rewrite Hp.
Qed.

(** ** Fixed points of [_closest_clifford] *)

Lemma deterministic_zone_integer (i : Z) :
  (0 <= i < 4)%Z -> deterministic_zone (IZR i).
Proof.
  intros Hi. unfold deterministic_zone.
  assert (i = 0 \/ i = 1 \/ i = 2 \/ i = 3)%Z as [-> | [-> | [-> | -> ] ] ] by lia;
    repeat split; abs_cases; lra.
Qed.

Lemma closest_multiple (i : Z) s :
  (0 <= i < 4)%Z ->
  _closest_clifford_scalar (IZR i * (PI / 2)) s = (Ok (IZR i * (PI / 2)), s).
Proof.
  intros Hi.
  assert (Hr : 0 <= IZR i < 4) by (split; [apply IZR_le | apply IZR_lt]; lia).
  rewrite closest_deterministic
    by (rewrite scaled_of_multiple by done; by apply deterministic_zone_integer).
  rewrite scaled_of_multiple by done.
  rewrite (np_round_eq _ i) by (rewrite Rminus_diag, Rabs_R0; lra).
  by rewrite Z.mod_small.
Qed.

(** X2.  The four Clifford angles are fixed points: on an entry of
    [CLIFFORD_ANGLES], [_closest_clifford] returns that entry and
    [_is_clifford_angle] answers [True], both without drawing from the random
    source.  With the closure property, [_closest_clifford] is idempotent. *)
Theorem clifford_angles_fixed (c : R) (s : random_state) :
  c ∈ CLIFFORD_ANGLES ->
  _closest_clifford (Scalar c) s = (Ok (Scalar c), s)
  /\ _is_clifford_angle (Scalar c) s = (Ok (Scalar true), s).
Proof.
  intros Hc. apply clifford_angles_char in Hc as (i & Hi & ->).
  assert (Hr : 0 <= IZR i < 4) by (split; [apply IZR_le | apply IZR_lt]; lia).
  split.
  - eapply np_vectorize_scalar; by apply closest_multiple.
  - assert (Hrun : forall t,
      _is_clifford_angle_scalar (IZR i * (PI / 2)) 1e-5 t = (Ok true, t)).
    { intros t. rewrite is_clifford_angle_scalar_det
        by (rewrite scaled_of_multiple by done; by apply deterministic_zone_integer).
      by rewrite is_clifford_multiple. }
    unfold _is_clifford_angle.
    by eapply (np_vectorize_scalar (fun ang => _is_clifford_angle_scalar ang 1e-5)).
Qed.

Lemma clifford_angles_fixed_witness :
  _closest_clifford (Scalar PI) zero_state = (Ok (Scalar PI), zero_state)
  /\ _is_clifford_angle (Scalar PI) zero_state = (Ok (Scalar true), zero_state).
Proof.
  apply clifford_angles_fixed. apply clifford_angles_char.
  exists 2%Z. split; [lia | lra].
Defined.

(** ** Outside the tie zone the result is a nearest Clifford angle *)

Lemma np_round_near x : Rabs (IZR (np_round x) - x) <= 0.5.
Proof.
  unfold np_round. destruct (Zfloor_bound x) as [H1 H2].
  repeat case_decide; try destruct (Z.even _); rewrite ?plus_IZR;
    abs_cases; lra.
Qed.

(** X3.  Outside the tie zone, the angle that [_closest_clifford] returns
    is, up to whole turns, within [pi / 4] of the input: no Clifford angle
    is nearer on the circle. *)
Theorem closest_is_nearest (theta : R) (s : random_state) :
  deterministic_zone (scaled theta) ->
  exists c (k : Z),
    _closest_clifford (Scalar theta) s = (Ok (Scalar c), s)
    /\ c ∈ CLIFFORD_ANGLES
    /\ Rabs (c + IZR k * (2 * PI) - theta) <= PI / 4.
Proof.
  intros Hz. set (r := np_round (scaled theta)).
  exists (IZR (r mod 4) * (PI / 2)), (r / 4 + Zfloor (theta / (2 * PI)))%Z.
  split; [eapply np_vectorize_scalar; by apply closest_deterministic|].
  split.
  { apply clifford_angles_char. exists (r mod 4)%Z.
    split; [by apply Z.mod_pos_bound | done]. }
  assert (Htheta : theta = scaled theta * (PI / 2)
                          + IZR (Zfloor (theta / (2 * PI))) * (2 * PI)).
  { rewrite <- scaled_angle. unfold py_mod. ring. }
  assert (Hr : IZR r = IZR (r mod 4) + 4 * IZR (r / 4)).
  { rewrite (Z.div_mod r 4) at 1 by lia. rewrite plus_IZR, mult_IZR. lra. }
  rewrite plus_IZR.
  replace (IZR (r mod 4) * (PI / 2)
           + (IZR (r / 4) + IZR (Zfloor (theta / (2 * PI)))) * (2 * PI) - theta)
    with ((IZR r - scaled theta) * (PI / 2)) by (rewrite Hr; lra).
  rewrite Rabs_mult. pose proof PI2_bounds as [Hh _].
  rewrite (Rabs_pos_eq (PI / 2)) by lra.
  pose proof (np_round_near (scaled theta)) as Hnear. fold r in Hnear.
  assert (Rabs (IZR r - scaled theta) * (PI / 2) <= 0.5 * (PI / 2))
    by (apply Rmult_le_compat_r; lra).
  lra.
Qed.

Lemma closest_is_nearest_witness :
  exists c (k : Z),
    _closest_clifford (Scalar (1 / 8 * PI)) zero_state
    = (Ok (Scalar c), zero_state)
    /\ c ∈ CLIFFORD_ANGLES
    /\ Rabs (c + IZR k * (2 * PI) - 1 / 8 * PI) <= PI / 4.
Proof.
  apply closest_is_nearest. apply deterministic_zone_eighth.
Defined.

End oracle_more.

(** ** The tolerance of [_is_clifford_angle] at the angle 0 *)

Section oracle_edges.
Local Open Scope R_scope.

Lemma is_clifford_just_above_zero delta :
  0 < delta < 1e-5 -> is_clifford delta = true.
Proof.
  intros Hd. pose proof PI2_bounds as [Hh1 Hh2].
  assert (Hm : py_mod delta (2 * PI) = delta) by (apply py_mod_small; lra).
  assert (Hs : 0 <= scaled delta < 1e-5).
  { unfold scaled. rewrite Hm. apply div_between; lra. }
  unfold is_clifford. apply bool_decide_eq_true_2. split.
  - unfold deterministic_zone. repeat split; abs_cases; lra.
  - rewrite (np_round_eq _ 0) by (abs_cases; lra).
    change (0 mod 4)%Z with 0%Z. rewrite Hm. abs_cases; lra.
Qed.

Lemma is_clifford_just_below_zero delta :
  0 < delta < 1e-5 -> is_clifford (- delta) = false.
Proof.
  intros Hd. pose proof PI2_bounds as [Hh1 Hh2].
  assert (Hm : py_mod (- delta) (2 * PI) = 2 * PI - delta).
  { replace (- delta) with ((2 * PI - delta) + IZR (-1) * (2 * PI)) by lra.
    rewrite py_mod_period by lra. apply py_mod_small. lra. }
  assert (Hs : 3.9 <= scaled (- delta) < 4).
  { unfold scaled. rewrite Hm. apply div_between; lra. }
  unfold is_clifford. apply bool_decide_eq_false_2. intros [_ H].
  rewrite (np_round_eq _ 4) in H by (abs_cases; lra).
  change (4 mod 4)%Z with 0%Z in H. rewrite Hm in H. abs_cases; lra.
Qed.

(** X4.  The tolerance of the classification is one-sided at the angle 0:
    an angle less than [1e-5] above 0 is classified as Clifford, an angle
    less than [1e-5] below 0 is not (it is reduced to just below [2 pi] and
    compared with the angle 0). *)
Theorem tolerance_one_sided_at_zero (delta : R) (s : random_state) :
  0 < delta < 1e-5 ->
  exists s1 s2,
    _is_clifford_angle (Scalar delta) s = (Ok (Scalar true), s1)
    /\ _is_clifford_angle (Scalar (- delta)) s = (Ok (Scalar false), s2).
Proof.
  intros Hd.
  destruct (is_clifford_vectorized_run delta s) as (s1 & H1).
  destruct (is_clifford_vectorized_run (- delta) s) as (s2 & H2).
  exists s1, s2. rewrite is_clifford_just_above_zero in H1 by done.
  rewrite is_clifford_just_below_zero in H2 by done. done.
Qed.

Lemma tolerance_one_sided_at_zero_witness :
  exists s1 s2,
    _is_clifford_angle (Scalar 1e-6) zero_state = (Ok (Scalar true), s1)
    /\ _is_clifford_angle (Scalar (Ropp 1e-6)) zero_state
       = (Ok (Scalar false), s2).
Proof. apply tolerance_one_sided_at_zero. lra. Defined.

(** ** Random and probabilistic replacement *)

Lemma clifford_lookup (j : nat) :
  (j < 4)%nat -> CLIFFORD_ANGLES !! j = Some (INR j * (PI / 2)).
Proof.
  intros Hj. destruct j as [|[|[|[|j] ] ] ]; [| | | |lia];
    unfold CLIFFORD_ANGLES; simpl; f_equal; lra.
Qed.

Lemma clifford_INR (j : nat) : (j < 4)%nat -> INR j * (PI / 2) ∈ CLIFFORD_ANGLES.
Proof.
  intros Hj. eapply list_elem_of_lookup_2. by apply clifford_lookup.
Qed.

Lemma random_clifford_scalar_run theta s :
  _random_clifford_scalar theta s
  = (Ok (INR (py_tape s (py_pos s) mod 4) * (PI / 2)), advance_py s).
Proof.
  unfold _random_clifford_scalar, randint, bind, py_randbelow, ret, lift.
  change (4 - 0)%nat with 4%nat. rewrite Nat.add_0_l.
  assert (Hlt : (py_tape s (py_pos s) mod 4 < 4)%nat)
    by (apply Nat.mod_upper_bound; lia).
  rewrite getitem_clifford by lia. by rewrite <- INR_IZR_INZ.
Qed.

Lemma support_all {A} (a : list A) : forall p,
  length p = length a -> Forall (fun w => 0 < w) p -> support a p = a.
Proof.
  unfold support. induction a as [|x a IH]; intros [|w p] Hlen Hpos; try done.
  apply Forall_cons in Hpos as [Hw Hpos]. simpl.
  rewrite filter_cons, decide_True by done. csimpl. f_equal.
  apply IH; [simpl in Hlen; lia | done].
Qed.

Lemma probabilistic_scalar_run theta sigma s :
  _probabilistic_angle_to_clifford_scalar theta sigma s
  = (Ok (INR (np_tape s (np_pos s) mod 4) * (PI / 2)), advance_np s).
Proof.
  unfold _probabilistic_angle_to_clifford_scalar.
  rewrite clifford_dists_spec.
  set (dists := [spec_weight theta sigma 4; spec_weight theta sigma 1;
                 spec_weight theta sigma 2; spec_weight theta sigma 3]).
  assert (Hsum : 0 < py_sum dists).
  { unfold py_sum, dists. simpl.
    pose proof (spec_weight_pos theta sigma 1). pose proof (spec_weight_pos theta sigma 2).
    pose proof (spec_weight_pos theta sigma 3). pose proof (spec_weight_pos theta sigma 4).
    lra. }
  assert (Hpos : Forall (fun w => 0 < w) (map (fun i => i / py_sum dists) dists)).
  { unfold dists. repeat constructor; apply Rdiv_lt_0_compat;
      solve [apply spec_weight_pos | exact Hsum]. }
  assert (Hsup : support CLIFFORD_ANGLES (map (fun i => i / py_sum dists) dists)
                 = CLIFFORD_ANGLES) by (by apply support_all).
  assert (Hlt : (np_tape s (np_pos s) mod 4 < 4)%nat)
    by (apply Nat.mod_upper_bound; lia).
  assert (Hchoice :
    np_random_choice CLIFFORD_ANGLES 1 (map (fun i => i / py_sum dists) dists) s
    = (Ok [INR (np_tape s (np_pos s) mod 4) * (PI / 2)], advance_np s)).
  { unfold np_random_choice. rewrite Hsup.
    rewrite decide_False by done. rewrite decide_False by (intros H; by apply H).
    rewrite decide_False by lia.
    rewrite decide_False by (unfold CLIFFORD_ANGLES; simpl; lia).
    rewrite decide_False by (unfold CLIFFORD_ANGLES; simpl; lia).
    change (Z.to_nat 1) with 1%nat. simpl sample_from.
    unfold bind, np_randbelow. change (length CLIFFORD_ANGLES) with 4%nat.
    by rewrite clifford_lookup. }
  erewrite bind_ok by exact Hchoice. done.
Qed.



End oracle_edges.

(** ** When the encoder builds a table *)

Lemma encode_step_some acc i op cell :
  gate_cells op = Some cell ->
  encode_step acc i op
  = Ok (Rows (order_list acc ++ [i]) (gates_list acc ++ [cell.1.1])
          (parameters_list acc ++ [cell.1.2]) (qubits_list acc ++ [cell.2])
          (operation_list acc ++ [op])).
Proof.
  unfold gate_cells, encode_step, qubit_at, append_gate.
  destruct (gate op) as [|e|[|]| |]; destruct (qubits op) as [|q0 [|q1 qs]];
    intros H; inversion H; subst; reflexivity.
Qed.

Lemma encode_loop_total ops : forall acc i cells,
  Forall2 (fun op cell => gate_cells op = Some cell) ops cells ->
  encode_loop acc i ops
  = Ok (Rows (order_list acc ++ seq i (length ops))
          (gates_list acc ++ cells.*1.*1) (parameters_list acc ++ cells.*1.*2)
          (qubits_list acc ++ cells.*2) (operation_list acc ++ ops)).
Proof.
  induction ops as [|op ops IH]; intros acc i cells Hall.
  - inversion Hall; subst. simpl. rewrite !app_nil_r. by destruct acc.
  - inversion Hall as [|? cell ? cells' Hc Hall']; subst. simpl.
    rewrite (encode_step_some _ _ _ _ Hc). simpl.
    rewrite (IH _ _ _ Hall'). simpl. by rewrite <- !app_assoc.
Qed.

Lemma recognized_cells circuit :
  Forall recognized circuit ->
  exists cells, Forall2 (fun op cell => gate_cells op = Some cell) circuit cells.
Proof.
  induction 1 as [|op circuit [cell Hc] _ [cells IH] ].
  - exists []. constructor.
  - exists (cell :: cells). by constructor.
Qed.

Lemma circuit_to_array_total circuit :
  Forall recognized circuit ->
  exists cols,
    _circuit_to_array circuit = Ok (Table cols, [])
    /\ order <$> cols = seq 0 (length circuit)
    /\ Forall2 encodes circuit cols.
Proof.
  intros Hrec. destruct (recognized_cells _ Hrec) as [cells Hcells].
  assert (Henc : exists cols, _circuit_to_array circuit = Ok (Table cols, [])).
  { unfold _circuit_to_array. rewrite (encode_loop_total _ _ _ _ Hcells).
    simpl. unfold np_array. simpl.
    rewrite decide_True; [by eexists|].
    rewrite !length_fmap, length_seq.
    apply Forall2_length in Hcells. auto. }
  destruct Henc as [cols Henc]. exists cols. split; [done|].
  by apply circuit_to_array_table in Henc as (_ & ? & ?).
Qed.

Lemma encodes_recognized circuit cols :
  Forall2 encodes circuit cols -> Forall recognized circuit.
Proof.
  induction 1 as [|op c circuit cols [Hc _] _ IH]; constructor; [|done].
  by eexists.
Qed.

(** X6.  [_circuit_to_array] builds a table exactly for the circuits whose
    operations are all recognized.  On any other circuit the two public
    functions raise, whatever their other arguments: an operation that is not
    recognized is not dropped. *)
Theorem table_iff_recognized (circuit : Circuit) :
  ((exists cols, _circuit_to_array circuit = Ok (Table cols, []))
   <-> Forall recognized circuit)
  /\ (~ Forall recognized circuit ->
      (forall s, exists e, count_non_cliffords circuit s = (Raise e, s))
      /\ forall n fraction method_select method_replace kwargs,
           raises (generate_training_circuits circuit n fraction method_select
                     method_replace kwargs)).
Proof.
  split.
  - split.
    + intros [cols H]. apply circuit_to_array_table in H as (_ & _ & H).
      by eapply encodes_recognized.
    + intros H. destruct (circuit_to_array_total _ H) as (cols & ? & _). eauto.
  - intros Hnot.
    assert (Hno : forall cols e, _circuit_to_array circuit <> Ok (Table cols, e)).
    { intros cols e H. apply Hnot.
      apply circuit_to_array_table in H as (_ & _ & H).
      by eapply encodes_recognized. }
    split.
    + intros s. unfold count_non_cliffords, bind, lift.
      destruct (_circuit_to_array circuit) as [ [ [cols|] e]|err] eqn:Henc;
        [by destruct (Hno cols e) | by eexists | by eexists].
    + intros n fraction method_select method_replace kwargs s.
      unfold generate_training_circuits, split_circuit, bind, lift.
      destruct (_circuit_to_array circuit) as [ [ [cols|] e]|err] eqn:Henc;
        [by destruct (Hno cols e) | by eexists _, _ | by eexists _, _].
Qed.

(** Witness for X6: a circuit with a gate outside the five kinds. *)
Lemma table_iff_recognized_witness :
  (forall s, exists e,
     count_non_cliffords [rz_eighth; GateOperation OtherGate [0]] s = (Raise e, s))
  /\ forall n fraction method_select method_replace kwargs,
       raises (generate_training_circuits
                 [rz_eighth; GateOperation OtherGate [0]] n fraction
                 method_select method_replace kwargs).
Proof.
  apply (proj2 (table_iff_recognized [rz_eighth; GateOperation OtherGate [0]])).
  intros H. apply Forall_cons in H as [_ H]. apply Forall_cons in H as [ [x Hx] _].
  discriminate Hx.
Defined.

(** ** The value of the count *)

Lemma cells_non_clifford op c :
  gate_cells op = Some (name c, parameter c, qubit c) ->
  non_clifford_column c = non_clifford_rz op.
Proof.
  unfold gate_cells, non_clifford_column, non_clifford_rz. intros Hc.
  destruct (gate op) as [|e|[|]| |]; destruct (qubits op) as [|q0 [|q1 qs]];
    inversion Hc as [[Hname Hp Hq]]; try done.
Qed.

Lemma encodes_angle op c :
  encodes op c -> name c = "rz" -> is_Some (parameter c).
Proof.
  intros [Hc _] Hn. unfold gate_cells in Hc.
  destruct (gate op) as [|e|[|]| |]; destruct (qubits op) as [|q0 [|q1 qs]];
    inversion Hc as [[Hname Hp Hq]]; rewrite <- Hname in Hn; try done; eauto.
Qed.

Lemma floats_rz cols :
  Forall (fun c => name c = "rz" -> is_Some (parameter c)) cols ->
  exists angles,
    floats (parameter <$> filter (fun c => name c = "rz") cols) = Ok angles
    /\ Forall2 (fun c a => parameter c = Some a)
         (filter (fun c => name c = "rz") cols) angles.
Proof.
  induction 1 as [|c cols Hc _ (angles & Hf & Hall)]; [by exists []|].
  rewrite filter_cons. case_decide as Hn; [|by exists angles].
  destruct (Hc Hn) as [a Ha]. exists (a :: angles). split; [|by constructor].
  csimpl. rewrite Ha. unfold floats in Hf |- *. simpl. by rewrite Hf.
Qed.

Lemma mask_select_classified rzc angles :
  Forall2 (fun c a => parameter c = Some a) rzc angles ->
  Forall (fun c => name c = "rz") rzc ->
  mask_select rzc (negb <$> (is_clifford <$> angles))
  = filter (fun c => non_clifford_column c = true) rzc
  /\ mask_select rzc (is_clifford <$> angles)
     = filter (fun c => non_clifford_column c <> true) rzc.
Proof.
  induction 1 as [|c a rzc angles Ha _ IH]; intros Hrz; [done|].
  apply Forall_cons in Hrz as [Hn Hrz]. destruct (IH Hrz) as [IH1 IH2].
  assert (Hnc : non_clifford_column c = negb (is_clifford a)).
  { unfold non_clifford_column. by rewrite Ha, bool_decide_eq_true_2. }
  csimpl. rewrite !filter_cons, Hnc, IH1, IH2.
  destruct (is_clifford a); simpl; split; done.
Qed.

Lemma filter_non_clifford_rz (cols : list column) :
  filter (fun c => non_clifford_column c = true)
    (filter (fun c => name c = "rz") cols)
  = filter (fun c => non_clifford_column c = true) cols.
Proof.
  induction cols as [|c cols IH]; [done|].
  rewrite !filter_cons. case_decide as Hn.
  - by rewrite filter_cons, IH.
  - rewrite IH. rewrite decide_False; [done|].
    unfold non_clifford_column. by rewrite bool_decide_eq_false_2.
Qed.

Lemma encodes_cells circuit cols :
  Forall2 encodes circuit cols ->
  Forall2 (fun op c => gate_cells op = Some (name c, parameter c, qubit c))
    circuit cols.
Proof. intros H. eapply Forall2_impl; [exact H|]. by intros op c [? _]. Qed.

Lemma count_columns circuit cols :
  Forall2 (fun op c => gate_cells op = Some (name c, parameter c, qubit c))
    circuit cols ->
  length (filter (fun c => non_clifford_column c = true) cols)
  = count_non_clifford_rz circuit.
Proof.
  unfold count_non_clifford_rz.
  induction 1 as [|op c circuit cols Hc _ IH]; [done|].
  rewrite (filter_cons _ c), (filter_cons _ op), (cells_non_clifford _ _ Hc).
  destruct (decide (non_clifford_rz op = true)); simpl; by rewrite IH.
Qed.

Lemma encodes_angles circuit cols :
  Forall2 encodes circuit cols ->
  Forall (fun c => name c = "rz" -> is_Some (parameter c)) cols.
Proof.
  induction 1 as [|op c circuit cols Hc _ IH]; constructor; [|done].
  by apply (encodes_angle op).
Qed.

Lemma cells_rz op c :
  gate_cells op = Some (name c, parameter c, qubit c) -> name c = "rz" ->
  exists e, gate op = ZPowGate e.
Proof.
  intros Hc Hn. unfold gate_cells in Hc.
  destruct (gate op) as [|e|[|]| |]; destruct (qubits op) as [|q0 [|q1 qs]];
    inversion Hc as [[Hname Hp Hq]]; rewrite <- Hname in Hn; try done; eauto.
Qed.

Lemma has_rz_columns circuit cols :
  Forall2 (fun op c => gate_cells op = Some (name c, parameter c, qubit c))
    circuit cols ->
  has_rz circuit <-> filter (fun c => name c = "rz") cols <> [].
Proof.
  intros Hall. split.
  - intros (op & e & Hin & Hg) Hnil.
    apply list_elem_of_lookup_1 in Hin as [i Hi].
    destruct (Forall2_lookup_l _ _ _ _ _ Hall Hi) as (c & Hci & Hc).
    assert (Hn : name c = "rz").
    { unfold gate_cells in Hc. rewrite Hg in Hc.
      destruct (qubits op); by inversion Hc. }
    assert (Hin : c ∈ filter (fun c => name c = "rz") cols).
    { apply list_elem_of_filter. split; [done|].
      by eapply list_elem_of_lookup_2. }
    rewrite Hnil in Hin. by apply elem_of_nil in Hin.
  - intros Hne.
    destruct (filter (fun c => name c = "rz") cols) as [|c l] eqn:Hf; [done|].
    assert (Hin : c ∈ filter (fun c => name c = "rz") cols)
      by (rewrite Hf; left).
    apply list_elem_of_filter in Hin as [Hn Hin].
    apply list_elem_of_lookup_1 in Hin as [i Hi].
    destruct (Forall2_lookup_r _ _ _ _ _ Hall Hi) as (op & Hop & Henc).
    destruct (cells_rz _ _ Henc Hn) as [e He].
    exists op, e. split; [by eapply list_elem_of_lookup_2 | done].
Qed.

(** The classification of the [rz] row of the table of a circuit. *)
Lemma classify_table circuit cols :
  Forall2 encodes circuit cols ->
  exists angles,
    floats (parameter <$> filter (fun c => name c = "rz") cols) = Ok angles
    /\ length angles = length (filter (fun c => name c = "rz") cols)
    /\ mask_select (filter (fun c => name c = "rz") cols)
         (negb <$> (is_clifford <$> angles))
       = filter (fun c => non_clifford_column c = true) cols
    /\ mask_select (filter (fun c => name c = "rz") cols) (is_clifford <$> angles)
       = filter (fun c => non_clifford_column c <> true)
           (filter (fun c => name c = "rz") cols).
Proof.
  intros Hall.
  destruct (floats_rz cols (encodes_angles _ _ Hall)) as (angles & Hf & Hang).
  exists angles. split; [done|].
  split; [symmetry; by eapply Forall2_length|].
  destruct (mask_select_classified _ _ Hang) as [H1 H2].
  { apply Forall_forall. intros c Hc.
    by apply list_elem_of_filter in Hc as [? _]. }
  by rewrite H1, H2, filter_non_clifford_rz.
Qed.

Lemma count_result_value circuit :
  Forall recognized circuit -> has_rz circuit ->
  count_result circuit = Ok (count_non_clifford_rz circuit).
Proof.
  intros Hrec Hrz.
  destruct (circuit_to_array_total _ Hrec) as (cols & Henc & _ & Hall).
  destruct (classify_table _ _ Hall) as (angles & Hf & Hlen & Hsel & _).
  apply (has_rz_columns _ _ (encodes_cells _ _ Hall)) in Hrz.
  unfold count_result, classify_row. rewrite Henc. simpl. rewrite Hf. simpl.
  destruct angles as [|a angles].
  - destruct (filter (fun c => name c = "rz") cols); done.
  - cbn [rbind]. rewrite Hsel. f_equal. by apply count_columns, encodes_cells.
Qed.

Lemma count_result_inv circuit n :
  count_result circuit = Ok n ->
  Forall recognized circuit /\ has_rz circuit /\ n = count_non_clifford_rz circuit.
Proof.
  unfold count_result. intros H.
  apply rbind_inv_ok in H as ([data e] & Henc & H).
  apply rbind_inv_ok in H as (cols & Hcols & H).
  destruct data as [cols0|]; [|done]. inversion Hcols; subst cols0.
  destruct (circuit_to_array_table _ _ _ Henc) as (_ & _ & Hall).
  assert (Hrec := encodes_recognized _ _ Hall).
  split; [done|].
  destruct (decide (filter (fun c => name c = "rz") cols = [])) as [Hnil|Hne].
  - simpl in H. rewrite Hnil in H. done.
  - apply (has_rz_columns _ _ (encodes_cells _ _ Hall)) in Hne.
    split; [done|]. pose proof (count_result_value _ Hrec Hne) as Hv.
    unfold count_result in Hv. rewrite Henc in Hv. cbn [rbind columns fst] in Hv.
    cbn [fst] in H. congruence.
Qed.

(** X7.  On a circuit whose operations are all recognized and that has at
    least one [rz] gate, [count_non_cliffords] returns the number of [rz]
    gates whose angle [exponent * pi] is not classified as Clifford, from
    every state of the random source. *)
Theorem count_non_cliffords_value (circuit : Circuit) (s : random_state) :
  Forall recognized circuit -> has_rz circuit ->
  exists s',
    count_non_cliffords circuit s = (Ok (count_non_clifford_rz circuit), s').
Proof.
  intros Hrec Hrz. destruct (count_non_cliffords_run circuit s) as (s' & Hrun).
  exists s'. by rewrite Hrun, count_result_value.
Qed.

(** X8.  [count_non_cliffords] returns a number only on such circuits: when
    it returns [n], every operation of the circuit is recognized, the circuit
    has an [rz] gate, and [n] is the number of its non-Clifford [rz] gates. *)
Theorem count_non_cliffords_ok_inv (circuit : Circuit) (s s' : random_state)
    (n : nat) :
  count_non_cliffords circuit s = (Ok n, s') ->
  Forall recognized circuit /\ has_rz circuit
  /\ n = count_non_clifford_rz circuit.
Proof.
  intros H. destruct (count_non_cliffords_run circuit s) as (s1 & Hrun).
  rewrite Hrun in H. inversion H as [[Hc Hs]]. by apply count_result_inv.
Qed.

(** ** The first part of [generate_training_circuits], in terms of the table *)

Lemma split_circuit_filter circuit s rz all_cliff e s' :
  split_circuit circuit s = (Ok (rz, all_cliff, e), s') ->
  exists cols,
    _circuit_to_array circuit = Ok (Table cols, e)
    /\ has_rz circuit
    /\ rz = filter (fun c => non_clifford_column c = true) cols
    /\ all_cliff = filter (fun c => name c <> "rz") cols
                   ++ filter (fun c => non_clifford_column c <> true)
                        (filter (fun c => name c = "rz") cols).
Proof.
  unfold split_circuit. intros H.
  apply bind_inv_ok in H as ([data e0] & s0 & Henc & H).
  apply lift_inv_ok in Henc as [Henc ->].
  apply bind_inv_ok in H as (cols & s0 & Hcols & H).
  apply lift_inv_ok in Hcols as [Hcols ->].
  destruct data as [cols0|]; [|done]. inversion Hcols; subst cols0.
  apply bind_inv_ok in H as (mask1 & s1 & Hm1 & H).
  apply bind_inv_ok in H as (mask2 & s2 & Hm2 & H).
  apply ret_inv_ok in H as [H _]. inversion H; subst. clear H.
  destruct (on_cells_is_clifford_run
    (parameter <$> filter (fun c => name c = "rz") cols) s) as (t1 & Hr1).
  destruct (on_cells_is_clifford_run
    (parameter <$> filter (fun c => name c = "rz") cols) s1) as (t2 & Hr2).
  rewrite Hr1 in Hm1. rewrite Hr2 in Hm2.
  inversion Hm1 as [[Hc1 Hs1]]. inversion Hm2 as [[Hc2 Hs2]].
  rewrite Hc1 in Hc2. inversion Hc2; subst mask2.
  destruct (circuit_to_array_table _ _ _ Henc) as (_ & _ & Hall).
  destruct (classify_table _ _ Hall) as (angles & Hf & Hlen & Hsel1 & Hsel2).
  unfold classify_row in Hc1. rewrite Hf in Hc1. cbn [rbind] in Hc1.
  destruct angles as [|a angles]; [done|]. inversion Hc1; subst mask1.
  exists cols. split; [done|]. split.
  { apply (has_rz_columns _ _ (encodes_cells _ _ Hall)).
    intros Hnil. rewrite Hnil in Hlen. done. }
  split; [exact Hsel1 | f_equal; exact Hsel2].
Qed.

Lemma split_circuit_total circuit s :
  Forall recognized circuit -> has_rz circuit ->
  exists cols s',
    _circuit_to_array circuit = Ok (Table cols, [])
    /\ split_circuit circuit s
       = (Ok (filter (fun c => non_clifford_column c = true) cols,
              filter (fun c => name c <> "rz") cols
              ++ filter (fun c => non_clifford_column c <> true)
                   (filter (fun c => name c = "rz") cols),
              []), s').
Proof.
  intros Hrec Hrz.
  destruct (circuit_to_array_total _ Hrec) as (cols & Henc & _ & Hall).
  destruct (classify_table _ _ Hall) as (angles & Hf & Hlen & Hsel1 & Hsel2).
  apply (has_rz_columns _ _ (encodes_cells _ _ Hall)) in Hrz.
  assert (Hc : classify_row (parameter <$> filter (fun c => name c = "rz") cols)
               = Ok (is_clifford <$> angles)).
  { unfold classify_row. rewrite Hf. cbn [rbind].
    destruct angles; [|done].
    destruct (filter (fun c => name c = "rz") cols); done. }
  destruct (on_cells_is_clifford_run
    (parameter <$> filter (fun c => name c = "rz") cols) s) as (s1 & Hr1).
  destruct (on_cells_is_clifford_run
    (parameter <$> filter (fun c => name c = "rz") cols) s1) as (s2 & Hr2).
  rewrite Hc in Hr1, Hr2.
  exists cols, s2. split; [done|]. unfold split_circuit.
  erewrite bind_ok by (unfold lift; rewrite Henc; done). cbv beta iota.
  erewrite bind_ok by reflexivity.
  erewrite bind_ok by exact Hr1. erewrite bind_ok by exact Hr2.
  unfold ret. by rewrite Hsel1, Hsel2.
Qed.

(** ** The replaced angles *)

Lemma mmap_Forall {A B} (f : A -> M B) (P : B -> Prop) l :
  (forall a s y s', f a s = (Ok y, s') -> P y) ->
  forall s ys s', mmap f l s = (Ok ys, s') -> Forall P ys.
Proof.
  intros Hf. induction l as [|x l IH]; intros s ys s' H; simpl in H.
  - apply ret_inv_ok in H as [-> _]. constructor.
  - apply bind_inv_ok in H as (y & s1 & Hy & H).
    apply bind_inv_ok in H as (ys' & s2 & H2 & H).
    apply ret_inv_ok in H as [-> _]. constructor; eauto.
Qed.

Lemma on_cells_Forall {B} (f : ndarray R -> M (ndarray B)) (g : R -> M B)
    (P : B -> Prop) row s ys s' :
  (forall a, f a = np_vectorize g a) ->
  (forall a t y t', g a t = (Ok y, t') -> P y) ->
  on_cells f row s = (Ok ys, s') -> Forall P ys.
Proof.
  intros Hf Hg H. unfold on_cells in H.
  apply bind_inv_ok in H as (angles & s1 & Hangles & H).
  apply bind_inv_ok in H as (a & s2 & Ha & H). rewrite Hf in Ha.
  destruct angles as [|x angles]; [done|]. simpl in Ha.
  apply bind_inv_ok in Ha as (y0 & s3 & _ & Ha).
  apply bind_inv_ok in Ha as (ys' & s4 & Hmap & Ha).
  apply ret_inv_ok in Ha as [-> _]. apply ret_inv_ok in H as [-> _].
  by apply (mmap_Forall g P (x :: angles)) in Hmap.
Qed.

Lemma replace_angles_clifford row method_replace sigma s new s' :
  replace_angles row method_replace sigma s = (Ok new, s') ->
  Forall (fun v => v ∈ CLIFFORD_ANGLES) new.
Proof.
  unfold replace_angles. repeat case_decide; intros Hrun; [| | |done].
  - eapply (on_cells_Forall _ _closest_clifford_scalar) in Hrun; [done|done|].
    intros a t y t' Hy.
    destruct (closest_scalar_run a t) as (i & t1 & Hi & Hr & _).
    rewrite Hr in Hy. inversion Hy; subst. apply clifford_angles_char. eauto.
  - eapply (on_cells_Forall _ _random_clifford_scalar) in Hrun; [done|done|].
    intros a t y t' Hy. rewrite random_clifford_scalar_run in Hy.
    assert (Hyv : y = (INR (py_tape t (py_pos t) mod 4) * (PI / 2))%R)
      by congruence.
    rewrite Hyv. apply clifford_INR, Nat.mod_upper_bound. lia.
  - eapply (on_cells_Forall _
      (fun a => _probabilistic_angle_to_clifford_scalar a sigma)) in Hrun;
      [done|done|].
    intros a t y t' Hy. rewrite probabilistic_scalar_run in Hy.
    assert (Hyv : y = (INR (np_tape t (np_pos t) mod 4) * (PI / 2))%R)
      by congruence.
    rewrite Hyv. apply clifford_INR, Nat.mod_upper_bound. lia.
Qed.

Lemma set_parameters_angles sel : forall new,
  length new = length sel ->
  parameter <$> set_parameters sel new = Some <$> new.
Proof.
  unfold set_parameters.
  induction sel as [|c sel IH]; intros [|v new] Hlen; try done.
  csimpl. f_equal. apply IH. simpl in Hlen. lia.
Qed.

Lemma near_clifford_data_selection rz all_cliff total fraction method_select
    method_replace (kwargs : gmap string kwvalue) s proj ao ar s' :
  near_clifford_data rz all_cliff total fraction method_select method_replace
    kwargs s = (Ok (proj, ao, ar), s') ->
  exists sel rest new,
    sel ++ rest ≡ₚ rz
    /\ length new = length sel
    /\ proj ≡ₚ all_cliff ++ set_parameters sel new ++ rest
    /\ StronglySorted le (order <$> proj)
    /\ ao = parameter <$> sel
    /\ ar = parameter <$> set_parameters sel new
    /\ Z.of_nat (length sel)
       = (Z.of_nat total - py_int (fraction * INR total))%Z
    /\ sel <> []
    /\ Forall (fun v => v ∈ CLIFFORD_ANGLES) new.
Proof.
  unfold near_clifford_data. intros H.
  apply bind_inv_ok in H as (sigmas & s0 & _ & H).
  apply bind_inv_ok in H as (c & s1 & Hsel & H).
  apply select_columns_spec in Hsel as (Hnd & _ & Hlenc).
  apply bind_inv_ok in H as (sel & s2 & Htake & H).
  apply lift_inv_ok in Htake as [Htake ->].
  apply bind_inv_ok in H as (new & s3 & Hnew & H).
  assert (Hne : sel <> []).
  { intros ->. destruct (replace_angles_empty method_replace sigmas.2 s1) as [e He].
    simpl in Hnew. congruence. }
  pose proof (replace_angles_clifford _ _ _ _ _ _ Hnew) as Hcl.
  apply replace_angles_length in Hnew. rewrite length_fmap in Hnew.
  apply bind_inv_ok in H as (proj' & s4 & Hsort & H).
  apply lift_inv_ok in Hsort as [Hsort ->].
  apply ret_inv_ok in H as [H _]. inversion H; subst. clear H.
  apply argsort_take in Hsort as [Hperm Hsorted].
  exists sel, (np_delete rz c), new.
  split; [by apply take_delete_perm|]. split; [done|].
  split; [by rewrite Hperm, <- app_assoc|].
  split; [done|]. split; [done|]. split; [done|].
  split; [|done].
  apply take_columns_inv, Forall2_length in Htake. by rewrite <- Htake.
Qed.

(** ** The non-Clifford gates of a training circuit *)

Lemma filter_all {A} (P : A -> Prop) `{!forall x, Decision (P x)} (l : list A) :
  (forall x, x ∈ l -> P x) -> filter P l = l.
Proof.
  induction l as [|x l IH]; intros Hall; [done|].
  rewrite filter_cons, decide_True by (apply Hall; by left).
  f_equal. apply IH. intros y Hy. apply Hall. by right.
Qed.

Lemma cells_recognized circuit cols :
  Forall2 (fun op c => gate_cells op = Some (name c, parameter c, qubit c))
    circuit cols ->
  Forall recognized circuit.
Proof.
  induction 1 as [|op c circuit cols Hc _ IH]; constructor; [|done].
  by eexists.
Qed.

Lemma clifford_angle_is_clifford v :
  v ∈ CLIFFORD_ANGLES -> is_clifford v = true.
Proof.
  intros Hv. apply clifford_angles_char in Hv as (i & Hi & ->).
  by apply is_clifford_multiple.
Qed.

Lemma set_parameters_clifford sel : forall new,
  Forall (fun v => v ∈ CLIFFORD_ANGLES) new ->
  filter (fun c => non_clifford_column c = true) (set_parameters sel new) = [].
Proof.
  unfold set_parameters.
  induction sel as [|c sel IH]; intros [|v new] Hcl; try done.
  apply Forall_cons in Hcl as [Hv Hcl]. csimpl.
  rewrite filter_cons, decide_False; [by apply IH|].
  unfold non_clifford_column, with_parameter. simpl.
  rewrite (clifford_angle_is_clifford _ Hv). simpl.
  by destruct (bool_decide (name c = "rz")).
Qed.

Lemma non_clifford_column_angle c :
  non_clifford_column c = true ->
  name c = "rz" /\ exists v, parameter c = Some v /\ is_clifford v = false.
Proof.
  unfold non_clifford_column. intros H.
  apply andb_true_iff in H as [Hn Hp].
  apply bool_decide_eq_true_1 in Hn. split; [done|].
  destruct (parameter c) as [v|]; [|done]. exists v. split; [done|].
  by destruct (is_clifford v).
Qed.

(** The columns of the rewritten table that still carry a non-Clifford
    angle are the non-Clifford columns that were not selected. *)
Lemma rewritten_non_clifford (cols : list column) all_cliff sel rest new proj :
  all_cliff = filter (fun c => name c <> "rz") cols
              ++ filter (fun c => non_clifford_column c <> true)
                   (filter (fun c => name c = "rz") cols) ->
  sel ++ rest ≡ₚ filter (fun c => non_clifford_column c = true) cols ->
  Forall (fun v => v ∈ CLIFFORD_ANGLES) new ->
  proj ≡ₚ all_cliff ++ set_parameters sel new ++ rest ->
  length (filter (fun c => non_clifford_column c = true) proj) = length rest.
Proof.
  intros -> Hsel Hcl Hproj. rewrite Hproj, !filter_app.
  rewrite (set_parameters_clifford _ _ Hcl).
  rewrite (filter_none _ (filter (fun c => name c <> "rz") cols)); last first.
  { intros c Hc Hnc. apply list_elem_of_filter in Hc as [Hn _].
    by apply non_clifford_column_angle in Hnc as [? _]. }
  rewrite (filter_none _ (filter _ (filter _ cols))); last first.
  { intros c Hc Hnc. by apply list_elem_of_filter in Hc as [Hn _]. }
  rewrite (filter_all _ rest); [done|].
  intros c Hc.
  assert (Hin : c ∈ filter (fun c => non_clifford_column c = true) cols)
    by (rewrite <- Hsel; apply elem_of_app; by right).
  by apply list_elem_of_filter in Hin as [? _].
Qed.

(** What one successful run of [_map_to_near_clifford] returns, for the
    arguments that [generate_training_circuits] passes. *)
Lemma map_to_near_clifford_near circuit cols rz all_cliff fraction
    method_select method_replace (kwargs : gmap string kwvalue) s out ao ar s' :
  Forall2 encodes circuit cols ->
  order <$> cols = seq 0 (length circuit) ->
  all_cliff ++ rz ≡ₚ cols ->
  Forall (fun c => name c = "rz") rz ->
  rz = filter (fun c => non_clifford_column c = true) cols ->
  all_cliff = filter (fun c => name c <> "rz") cols
              ++ filter (fun c => non_clifford_column c <> true)
                   (filter (fun c => name c = "rz") cols) ->
  _map_to_near_clifford rz all_cliff [] (length rz) fraction method_select
    method_replace kwargs s = (Ok (out, ao, ar), s') ->
  near_clifford circuit fraction (out, ao, ar).
Proof.
  intros Hall Ho Hperm Hrzn Hrz Hcliff Hbody.
  unfold _map_to_near_clifford in Hbody.
  apply bind_inv_ok in Hbody as ([[proj ao0] ar0] & t1 & Hdata & Hdec).
  apply bind_inv_ok in Hdec as (out' & t2 & Hdec & Hret).
  apply lift_inv_ok in Hdec as [Hdec ->].
  apply ret_inv_ok in Hret as [Hret _]. inversion Hret; subst out' ao0 ar0.
  clear Hret.
  apply near_clifford_data_selection in Hdata
    as (sel & rest & new & Hsel & Hlen & Hproj & Hsorted & Hao & Har & Hcount
        & Hne & Hcl).
  destruct (rewritten_table _ _ _ _ _ _ _ _ Ho Hperm Hrzn Hsel Hlen Hproj Hsorted)
    as (_ & _ & _ & _ & Hrw).
  destruct (array_to_circuit_spec _ _ _ Hall proj [] Hrw) as (ops & Hrun & _ & Hg).
  rewrite Hrun in Hdec. inversion Hdec; subst out. simpl in Hg |- *. clear Hdec.
  apply Forall2_flip in Hg.
  assert (Htotal : length rz = count_non_clifford_rz circuit).
  { rewrite Hrz. by apply count_columns, encodes_cells. }
  assert (Hlens : length sel + length rest = length rz)
    by (by rewrite <- Hsel, length_app).
  assert (Hsel' : sel ++ rest ≡ₚ filter (fun c => non_clifford_column c = true) cols)
    by (by rewrite <- Hrz).
  rewrite <- Htotal.
  split; [by eapply cells_recognized|]. split.
  { apply (has_rz_columns _ _ Hg).
    destruct sel as [|c sel]; [done|]. destruct new as [|v new]; [done|].
    intros Hnil.
    assert (Hin : with_parameter c v ∈ filter (fun c => name c = "rz") proj).
    { apply list_elem_of_filter. split.
      - simpl. eapply (proj1 (Forall_forall _ _) Hrzn).
        rewrite <- Hsel. by left.
      - rewrite Hproj. apply elem_of_app. right. by left. }
    rewrite Hnil in Hin. by apply elem_of_nil in Hin. }
  split.
  { rewrite <- (count_columns _ _ Hg).
    rewrite (rewritten_non_clifford _ _ _ _ _ _ Hcliff Hsel' Hcl Hproj). lia. }
  split; [by rewrite Hao, length_fmap|].
  split.
  { rewrite Har, Hao, !length_fmap. unfold set_parameters.
    rewrite length_zip_with. lia. }
  split; [rewrite Hao; by destruct sel|].
  split.
  - rewrite Hao. apply Forall_fmap, Forall_forall. intros c Hc. simpl.
    assert (Hin : c ∈ filter (fun c => non_clifford_column c = true) cols)
      by (rewrite <- Hsel'; apply elem_of_app; by left).
    apply list_elem_of_filter in Hin as [Hnc _].
    by apply non_clifford_column_angle in Hnc as [_ Hv].
  - rewrite Har, set_parameters_angles by done.
    apply Forall_fmap, Forall_forall. intros v Hv. simpl. exists v.
    split; [done|]. by apply (proj1 (Forall_forall _ _) Hcl).
Qed.

Lemma generate_training_circuits_near circuit n fraction method_select
    method_replace (kwargs : gmap string kwvalue) s t s' :
  generate_training_circuits circuit n fraction method_select method_replace
    kwargs s = (Ok t, s') ->
  Forall recognized circuit /\ has_rz circuit
  /\ Forall (near_clifford circuit fraction) (triples t)
  /\ length t.1.1 = n /\ length t.1.2 = n /\ length t.2 = n.
Proof.
  intros H. rewrite generate_training_circuits_forwarded in H.
  apply bind_inv_ok in H as ([[rz all_cliff] e] & s1 & Hsplit & Hloop).
  destruct (split_circuit_columns _ _ _ _ _ _ Hsplit) as (cols & Henc & Hperm & Hrzn).
  destruct (split_circuit_filter _ _ _ _ _ _ Hsplit)
    as (cols' & Henc' & Hhas & Hrz & Hcliff).
  assert (cols' = cols) as -> by congruence. clear Henc'.
  destruct (circuit_to_array_table _ _ _ Henc) as (-> & Ho & Hall).
  split; [by eapply encodes_recognized|]. split; [done|].
  eapply (training_loop_inv _ _ (near_clifford circuit fraction)) in Hloop;
    [ | | done | done | by constructor ].
  { destruct Hloop as (HP & Hlen & Hl1 & Hl2). simpl in *.
    split; [done|]. split; [lia|]. split; lia. }
  clear Hloop. intros t0 [[out ao'] ar'] t' Hbody.
  by eapply map_to_near_clifford_near.
Qed.

Lemma triples_circuits (t : training_set) :
  length t.1.2 = length t.1.1 -> length t.2 = length t.1.1 ->
  (triples t).*1.*1 = t.1.1
  /\ (triples t).*1.*2 = t.1.2
  /\ (triples t).*2 = t.2.
Proof.
  intros H1 H2. unfold triples.
  assert (Hz : length (zip t.1.1 t.1.2) = length t.1.1)
    by (rewrite length_zip_with; lia).
  rewrite snd_zip by lia. rewrite fst_zip by lia.
  rewrite fst_zip, snd_zip by lia. done.
Qed.

(** X9.  Every training circuit that [generate_training_circuits] returns
    can be counted, and [count_non_cliffords] returns
    [int(fraction_non_clifford * total)] on it, where [total] is what
    [count_non_cliffords] returns on the input circuit. *)
Theorem training_circuits_count (circuit : Circuit) (n : nat)
    (fraction : R) (method_select method_replace : string)
    (kwargs : gmap string kwvalue) (s s' : random_state)
    (circuits : list Circuit) (ao ar : list (list (option R))) :
  generate_training_circuits circuit n fraction method_select method_replace
    kwargs s = (Ok (circuits, ao, ar), s') ->
  exists total : nat,
    (forall s0, exists s1, count_non_cliffords circuit s0 = (Ok total, s1))
    /\ Forall (fun out =>
         exists N : nat,
           Z.of_nat N = py_int (fraction * INR total)
           /\ forall s0, exists s1, count_non_cliffords out s0 = (Ok N, s1))
         circuits.
Proof.
  intros H.
  apply generate_training_circuits_near in H
    as (Hrec & Hrz & Hnear & Hl & Hl1 & Hl2). simpl in *.
  exists (count_non_clifford_rz circuit). split.
  { intros s0. destruct (count_non_cliffords_run circuit s0) as (s1 & Hrun).
    exists s1. by rewrite Hrun, count_result_value. }
  destruct (triples_circuits (circuits, ao, ar)) as (Hc & _ & _);
    [simpl; lia | simpl; lia |]. simpl in Hc. rewrite <- Hc.
  apply Forall_fmap, Forall_fmap. eapply Forall_impl; [exact Hnear|].
  intros [[out ao'] ar'] (Hrec' & Hrz' & Hcount & _). simpl.
  exists (count_non_clifford_rz out). split; [done|].
  intros s0. destruct (count_non_cliffords_run out s0) as (s1 & Hrun).
  exists s1. by rewrite Hrun, count_result_value.
Qed.

(** Witness for X9: the call on the example circuit. *)
Lemma training_circuits_count_witness :
  exists total : nat,
    (forall s0, exists s1, count_non_cliffords [rz_eighth] s0 = (Ok total, s1))
    /\ Forall (fun out =>
         exists N : nat,
           Z.of_nat N = py_int (0 * INR total)
           /\ forall s0, exists s1, count_non_cliffords out s0 = (Ok N, s1))
         [[GateOperation (cirq_rz 0) [0]]].
Proof.
  apply (training_circuits_count [rz_eighth] 1 0 "random" "closest" ∅
           zero_state (advance_py zero_state) _ [[Some (1 / 8 * PI)%R]]
           [[Some 0%R]]).
  apply generate_eighth_closest.
Defined.

(** X10.  The two lists of angles returned with each training circuit have
    one entry for each gate replaced, [total - int(fraction * total)] of them
    and at least one: [angles_original] holds angles that are not classified
    as Clifford, [angles_replaced] holds entries of [CLIFFORD_ANGLES]. *)
Theorem training_angles_bookkeeping (circuit : Circuit) (n : nat)
    (fraction : R) (method_select method_replace : string)
    (kwargs : gmap string kwvalue) (s s' : random_state)
    (circuits : list Circuit) (ao ar : list (list (option R))) :
  generate_training_circuits circuit n fraction method_select method_replace
    kwargs s = (Ok (circuits, ao, ar), s') ->
  let total := count_non_clifford_rz circuit in
  let replaced := (Z.of_nat total - py_int (fraction * INR total))%Z in
  Forall (fun angles_original =>
            Z.of_nat (length angles_original) = replaced
            /\ (1 <= length angles_original)%nat
            /\ Forall (fun a => exists v, a = Some v /\ is_clifford v = false)
                 angles_original) ao
  /\ Forall (fun angles_replaced =>
               Z.of_nat (length angles_replaced) = replaced
               /\ Forall (fun a => exists v, a = Some v /\ v ∈ CLIFFORD_ANGLES)
                    angles_replaced) ar.
Proof.
  intros H total replaced.
  apply generate_training_circuits_near in H
    as (Hrec & Hrz & Hnear & Hl & Hl1 & Hl2). simpl in *.
  destruct (triples_circuits (circuits, ao, ar)) as (_ & Hao & Har);
    [simpl; lia | simpl; lia |]. simpl in Hao, Har.
  split.
  - rewrite <- Hao. apply Forall_fmap, Forall_fmap.
    eapply Forall_impl; [exact Hnear|].
    intros [[out ao'] ar'] (_ & _ & _ & Hlen & _ & Hne & Horig & _). simpl.
    split; [done|]. split; [|done]. destruct ao'; [done | simpl; lia].
  - rewrite <- Har. apply Forall_fmap.
    eapply Forall_impl; [exact Hnear|].
    intros [[out ao'] ar'] (_ & _ & _ & Hlen & Hlen' & _ & _ & Hrep). simpl.
    split; [|done]. by rewrite Hlen'.
Qed.

(** Witness for X10: the call on the example circuit. *)
Lemma training_angles_bookkeeping_witness :
  let total := count_non_clifford_rz [rz_eighth] in
  let replaced := (Z.of_nat total - py_int (0 * INR total))%Z in
  Forall (fun angles_original =>
            Z.of_nat (length angles_original) = replaced
            /\ (1 <= length angles_original)%nat
            /\ Forall (fun a => exists v, a = Some v /\ is_clifford v = false)
                 angles_original) [[Some (1 / 8 * PI)%R]]
  /\ Forall (fun angles_replaced =>
               Z.of_nat (length angles_replaced) = replaced
               /\ Forall (fun a => exists v, a = Some v /\ v ∈ CLIFFORD_ANGLES)
                    angles_replaced) [[Some 0%R]].
Proof.
  apply (training_angles_bookkeeping [rz_eighth] 1 0 "random" "closest" ∅
           zero_state (advance_py zero_state) [[GateOperation (cirq_rz 0) [0]]]).
  apply generate_eighth_closest.
Defined.

(** ** The count, evaluated *)

Lemma count_non_cliffords_eighth s :
  count_non_cliffords [rz_eighth] s = (Ok 1, s).
Proof.
  unfold count_non_cliffords.
  erewrite bind_ok by (unfold lift; rewrite circuit_to_array_eighth; done).
  erewrite bind_ok by reflexivity.
  erewrite bind_ok
    by (apply (on_cells_is_clifford_det _ [(1 / 8 * PI)%R]);
        [reflexivity | done | repeat constructor; apply deterministic_zone_eighth]).
  change (is_clifford <$> [(1 / 8 * PI)%R]) with [is_clifford (1 / 8 * PI)].
  rewrite is_clifford_eighth. reflexivity.
Qed.

(** Witness for X7: an [rz] gate of angle [pi / 8], an [rz] gate of angle
    [pi / 2] and an X gate. *)
Lemma count_non_cliffords_value_witness :
  exists s',
    count_non_cliffords
      [rz_eighth; GateOperation (ZPowGate (1 / 2)) [1];
       GateOperation cirq_X [0]] zero_state
    = (Ok (count_non_clifford_rz
             [rz_eighth; GateOperation (ZPowGate (1 / 2)) [1];
              GateOperation cirq_X [0]]), s').
Proof.
  apply count_non_cliffords_value.
  - repeat constructor; by eexists.
  - exists rz_eighth, (1 / 8)%R. split; [by left | reflexivity].
Defined.

(** Witness for X8: the example circuit, on which the count is 1. *)
Lemma count_non_cliffords_ok_inv_witness :
  Forall recognized [rz_eighth] /\ has_rz [rz_eighth]
  /\ 1 = count_non_clifford_rz [rz_eighth].
Proof.
  apply (count_non_cliffords_ok_inv [rz_eighth] zero_state zero_state 1).
  apply count_non_cliffords_eighth.
Defined.

(** ** Calls that replace no gate *)

Lemma NoDup_below_length (c : list nat) total :
  NoDup c -> (forall j, j ∈ c -> j < total) -> length c <= total.
Proof.
  intros Hnd Hlt. pose proof (submseteq_length c (seq 0 total)) as H.
  rewrite length_seq in H. apply H. apply NoDup_submseteq; [done|].
  intros j Hj. apply elem_of_seq. specialize (Hlt j Hj). lia.
Qed.

Lemma near_clifford_data_nothing_to_replace rz all_cliff fraction method_select
    method_replace (kwargs : gmap string kwvalue) :
  ~ (0 <= py_int (fraction * INR (length rz)) < Z.of_nat (length rz))%Z ->
  raises (near_clifford_data rz all_cliff (length rz) fraction method_select
            method_replace kwargs).
Proof.
  intros Hbad. unfold near_clifford_data.
  apply raises_bind_r. intros sigmas.
  apply (raises_bind_post _ _ (fun c => c = [])).
  - intros s c s' H. apply select_columns_spec in H as (Hnd & Hlt & Hlen).
    pose proof (NoDup_below_length _ _ Hnd Hlt) as Hle.
    destruct c as [|j c]; [done|]. cbn [length] in Hlen, Hle. lia.
  - intros c ->. apply (raises_bind_post _ _ (fun sel => sel = [])).
    + intros s sel s' H. apply lift_inv_ok in H as [H _]. by inversion H.
    + intros sel ->. apply raises_bind_l. intros s.
      destruct (replace_angles_empty method_replace sigmas.2 s) as [e He].
      by exists e, s.
Qed.

(** X11.  [generate_training_circuits] needs a gate to replace: when
    [int(fraction_non_clifford * total)] is not in [0, total), for [total]
    the number of non-Clifford [rz] gates of the circuit, every call for at
    least one training circuit raises.  This is the case of a circuit whose
    [rz] gates are all Clifford ([total = 0]) and of a fraction of 1 or
    more. *)
Theorem nothing_to_replace_raises (circuit : Circuit) (n : nat) (fraction : R)
    (method_select method_replace : string) (kwargs : gmap string kwvalue) :
  1 <= n ->
  ~ (0 <= py_int (fraction * INR (count_non_clifford_rz circuit))
     < Z.of_nat (count_non_clifford_rz circuit))%Z ->
  raises (generate_training_circuits circuit n fraction method_select
            method_replace kwargs).
Proof.
  intros Hn Hbad.
  assert (H : raises (bind (split_circuit circuit) (fun r =>
      let '(rz_non_cliff, all_cliff, empty_circuit) := r in
      training_loop n
        (_map_to_near_clifford rz_non_cliff all_cliff empty_circuit
           (length rz_non_cliff) fraction method_select method_replace
           (forwarded_kwargs kwargs))
        ([], [], [])))).
  { apply (raises_bind_post _ _
             (fun r => length r.1.1 = count_non_clifford_rz circuit)).
    - intros s [[rz all_cliff] e] s' Hsplit. simpl.
      apply split_circuit_filter in Hsplit as (cols & Henc & _ & -> & _).
      apply circuit_to_array_table in Henc as (_ & _ & Hall).
      by apply count_columns, encodes_cells.
    - intros [[rz all_cliff] e] Hlen. simpl in Hlen.
      destruct n as [|n]; [lia|]. apply training_loop_raises.
      unfold _map_to_near_clifford. apply raises_bind_l.
      apply near_clifford_data_nothing_to_replace. by rewrite Hlen. }
  intros s. rewrite generate_training_circuits_forwarded. apply H.
Qed.

Lemma count_clifford_half :
  count_non_clifford_rz [GateOperation (ZPowGate (1 / 2)) [0]] = 0.
Proof.
  unfold count_non_clifford_rz.
  rewrite (filter_cons _ (GateOperation _ _)), decide_False; [done|].
  unfold non_clifford_rz. simpl.
  replace (1 / 2 * PI)%R with (IZR 1 * (PI / 2))%R by lra.
  by rewrite is_clifford_multiple.
Qed.

(** Witness for X11: one [rz] gate of the Clifford angle [pi / 2]. *)
Lemma nothing_to_replace_raises_witness :
  raises (generate_training_circuits [GateOperation (ZPowGate (1 / 2)) [0]] 1
            0.5 "random" "closest" ∅).
Proof.
  apply nothing_to_replace_raises; [lia|].
  rewrite count_clifford_half. lia.
Defined.

(** X12.  With [num_training_circuits = 0] the loop body never runs: on a
    circuit that has an [rz] gate and only recognized operations the call
    returns three empty lists, whatever the fraction, the method strings and
    the options are. *)
Theorem no_training_circuits_requested (circuit : Circuit) (fraction : R)
    (method_select method_replace : string) (kwargs : gmap string kwvalue)
    (s : random_state) :
  Forall recognized circuit -> has_rz circuit ->
  exists s',
    generate_training_circuits circuit 0 fraction method_select method_replace
      kwargs s = (Ok ([], [], []), s').
Proof.
  intros Hrec Hrz.
  destruct (split_circuit_total circuit s Hrec Hrz) as (cols & s' & _ & Hsplit).
  exists s'. rewrite generate_training_circuits_forwarded.
  erewrite bind_ok by exact Hsplit. reflexivity.
Qed.

(** Witness for X12: method strings that no branch accepts. *)
Lemma no_training_circuits_requested_witness :
  exists s',
    generate_training_circuits [rz_eighth] 0 1 "no such method" "nearest" ∅
      zero_state = (Ok ([], [], []), s').
Proof.
  apply no_training_circuits_requested.
  - repeat constructor; by eexists.
  - exists rz_eighth, (1 / 8)%R. split; [by left | reflexivity].
Defined.

(** X13.  The default value of [method_replace], ['nearest'], is not one of
    the three strings that [_map_to_near_clifford] accepts: a call for at
    least one training circuit that leaves [method_replace] at its default
    raises. *)
Theorem default_method_replace_raises (circuit : Circuit) (n : nat)
    (fraction : R) (method_select : string) (kwargs : gmap string kwvalue) :
  1 <= n ->
  raises (generate_training_circuits circuit n fraction method_select
            default_method_replace kwargs).
Proof.
  intros Hn. apply generate_training_circuits_raises; [done|].
  intros. apply near_clifford_data_invalid. right. by unfold default_method_replace.
Qed.

(** Witness for X13: the call with both defaults on the example circuit. *)
Lemma default_method_replace_raises_witness :
  raises (generate_training_circuits [rz_eighth] 1 0.5 default_method_select
            default_method_replace ∅).
Proof. apply default_method_replace_raises. lia. Defined.

(** ** Calls that return *)

Lemma sample_from_total {A} (randbelow : nat -> M nat) :
  (forall m s, 0 < m -> exists j s', randbelow m s = (Ok j, s') /\ j < m) ->
  forall k (pool : list A) s,
    k <= length pool ->
    exists res s', sample_from randbelow pool k s = (Ok res, s').
Proof.
  intros Hdraw. induction k as [|k IH]; intros pool s Hk; [by eexists _, _|].
  destruct (Hdraw (length pool) s) as (j & s1 & Hj & Hlt); [lia|].
  destruct (lookup_lt_is_Some_2 pool j Hlt) as [x Hx].
  destruct (IH (delete j pool) s1) as (rest & s2 & Hrest).
  { rewrite length_delete by eauto. lia. }
  exists (x :: rest), s2. simpl.
  erewrite bind_ok by exact Hj. rewrite Hx.
  erewrite bind_ok by exact Hrest. done.
Qed.

Lemma py_randbelow_below m s :
  0 < m -> exists j s', py_randbelow m s = (Ok j, s') /\ j < m.
Proof.
  intros Hm. eexists _, _. split; [reflexivity|].
  apply Nat.mod_upper_bound. lia.
Qed.

Lemma np_randbelow_below m s :
  0 < m -> exists j s', np_randbelow m s = (Ok j, s') /\ j < m.
Proof.
  intros Hm. eexists _, _. split; [reflexivity|].
  apply Nat.mod_upper_bound. lia.
Qed.

Lemma mmap_total {A B} (f : A -> M B) :
  (forall a s, exists y s', f a s = (Ok y, s')) ->
  forall l s, exists ys s', mmap f l s = (Ok ys, s').
Proof.
  intros Hf. induction l as [|x l IH]; intros s; [by eexists _, _|].
  destruct (Hf x s) as (y & s1 & Hy). destruct (IH s1) as (ys & s2 & Hys).
  exists (y :: ys), s2. simpl.
  erewrite bind_ok by exact Hy. erewrite bind_ok by exact Hys. done.
Qed.

Lemma on_cells_total {B} (f : ndarray R -> M (ndarray B)) (g : R -> M B)
    row angles s :
  (forall a, f a = np_vectorize g a) ->
  (forall a t, exists y t', g a t = (Ok y, t')) ->
  floats row = Ok angles -> angles <> [] ->
  exists ys s', on_cells f row s = (Ok ys, s').
Proof.
  intros Hf Hg Hrow Hne. destruct angles as [|x angles]; [done|].
  destruct (Hg x s) as (y0 & s1 & Hy0).
  destruct (mmap_total g Hg (x :: angles) s1) as (ys & s2 & Hys).
  exists ys, s2. unfold on_cells.
  erewrite bind_ok by (rewrite mmap_as_float, Hrow; done).
  assert (Hv : f (Array (x :: angles)) s = (Ok (Array ys), s2)).
  { rewrite Hf. unfold np_vectorize.
    erewrite bind_ok by exact Hy0. erewrite bind_ok by exact Hys. done. }
  erewrite bind_ok by exact Hv. done.
Qed.

Lemma on_cells_angle_to_probabilities row angles sigma s :
  floats row = Ok angles -> angles <> [] ->
  on_cells (fun a => _angle_to_probabilities a sigma) row s
  = (Ok ((fun a => total_weight a sigma) <$> angles), s).
Proof.
  intros Hrow Hne. destruct angles as [|x angles]; [done|]. unfold on_cells.
  erewrite bind_ok by (rewrite mmap_as_float, Hrow; done).
  assert (Hv : _angle_to_probabilities (Array (x :: angles)) sigma s
               = (Ok (Array ((fun a => total_weight a sigma) <$> x :: angles)), s)).
  { unfold _angle_to_probabilities, np_vectorize.
    erewrite bind_ok by apply angle_to_probabilities_scalar_run.
    erewrite bind_ok by apply mmap_angle_to_probabilities. done. }
  erewrite bind_ok by exact Hv. done.
Qed.

Lemma foldl_Rplus_pos l : forall a : R,
  (0 < a)%R -> Forall (fun w => (0 < w)%R) l -> (0 < foldl Rplus a l)%R.
Proof.
  induction l as [|x l IH]; intros a Ha Hl; [done|].
  apply Forall_cons in Hl as [Hx Hl]. simpl. apply IH; [lra | done].
Qed.

Lemma py_sum_pos l :
  l <> [] -> Forall (fun w => (0 < w)%R) l -> (0 < py_sum l)%R.
Proof.
  intros Hne Hl. destruct l as [|x l]; [done|].
  apply Forall_cons in Hl as [Hx Hl]. unfold py_sum. simpl.
  apply foldl_Rplus_pos; [lra | done].
Qed.

Lemma floats_some (cols : list column) :
  Forall (fun c => is_Some (parameter c)) cols ->
  exists angles,
    floats (parameter <$> cols) = Ok angles /\ length angles = length cols.
Proof.
  induction 1 as [|c cols [a Ha] _ (angles & Hf & Hlen)]; [by exists []|].
  exists (a :: angles). csimpl. rewrite Ha. unfold floats in Hf |- *. simpl.
  rewrite Hf. simpl. by rewrite Hlen.
Qed.

Lemma select_columns_total rz N method_select sigma s :
  method_select = "random" \/ method_select = "probabilistic" ->
  Forall (fun c => is_Some (parameter c)) rz ->
  (0 <= N < Z.of_nat (length rz))%Z ->
  exists c s',
    select_columns rz (length rz) N method_select sigma s = (Ok c, s').
Proof.
  intros Hm Hrz HN. unfold select_columns.
  destruct Hm as [-> | ->].
  - rewrite decide_True by done. unfold sample.
    rewrite decide_True by (rewrite length_seq; lia).
    apply (sample_from_total _ py_randbelow_below).
    rewrite length_seq. lia.
  - rewrite decide_False by done. rewrite decide_True by done.
    destruct (floats_some _ Hrz) as (angles & Hf & Hlen).
    assert (Hne : angles <> []) by (destruct angles; [simpl in Hlen; lia | done]).
    erewrite bind_ok by (by apply on_cells_angle_to_probabilities).
    set (probabilities := (fun a => total_weight a sigma) <$> angles).
    assert (Hpos : Forall (fun w => (0 < w)%R) probabilities).
    { apply Forall_fmap, Forall_forall. intros a _. apply total_weight_pos. }
    assert (Hsum : (0 < py_sum probabilities)%R).
    { apply py_sum_pos; [|done]. unfold probabilities. by destruct angles. }
    assert (Hlenp : length (map (fun k => (k / py_sum probabilities)%R) probabilities)
                    = length (seq 0 (length rz))).
    { rewrite length_map, length_seq. unfold probabilities.
      by rewrite length_fmap. }
    assert (Hsup : support (seq 0 (length rz))
                     (map (fun k => (k / py_sum probabilities)%R) probabilities)
                   = seq 0 (length rz)).
    { apply support_all; [done|]. apply Forall_forall. intros w Hw.
      apply list_elem_of_fmap in Hw as (k & -> & Hk).
      apply Rdiv_lt_0_compat; [|done].
      by apply (proj1 (Forall_forall _ _) Hpos). }
    unfold np_random_choice. rewrite Hsup.
    rewrite decide_False by (intros Hnil; apply (f_equal length) in Hnil;
                             rewrite length_seq in Hnil; simpl in Hnil; lia).
    rewrite decide_False by (intros Hneq; by apply Hneq).
    rewrite decide_False by lia.
    rewrite decide_False by (rewrite length_seq; lia).
    rewrite decide_False by (rewrite length_seq; lia).
    apply (sample_from_total _ np_randbelow_below).
    rewrite length_seq. lia.
Qed.

Lemma replace_angles_total row angles method_replace sigma s :
  method_replace = "closest" \/ method_replace = "random"
  \/ method_replace = "probabilistic" ->
  floats row = Ok angles -> angles <> [] ->
  exists new s', replace_angles row method_replace sigma s = (Ok new, s').
Proof.
  intros Hm Hrow Hne. unfold replace_angles.
  destruct Hm as [-> | [-> | ->] ].
  - rewrite decide_True by done.
    apply (on_cells_total _ _closest_clifford_scalar _ angles); try done.
    intros a t. destruct (closest_scalar_run a t) as (i & t' & _ & Hr & _). eauto.
  - rewrite decide_False by done. rewrite decide_True by done.
    apply (on_cells_total _ _random_clifford_scalar _ angles); try done.
    intros a t. rewrite random_clifford_scalar_run. eauto.
  - rewrite !decide_False by done. rewrite decide_True by done.
    apply (on_cells_total _
             (fun a => _probabilistic_angle_to_clifford_scalar a sigma)
             _ angles); try done.
    intros a t. rewrite probabilistic_scalar_run. eauto.
Qed.

Lemma argsort_total (l : list column) :
  exists res, take_columns l (np_argsort (order <$> l)) = Ok res.
Proof.
  apply take_columns_total. intros j Hj. unfold np_argsort in Hj.
  rewrite merge_sort_Permutation in Hj.
  rewrite snd_zip in Hj by (by rewrite length_seq).
  apply elem_of_seq in Hj. rewrite length_fmap in Hj. lia.
Qed.

Lemma near_clifford_data_total rz all_cliff fraction method_select
    method_replace (kwargs : gmap string kwvalue) sigmas s :
  Forall (fun c => is_Some (parameter c)) rz ->
  (0 <= py_int (fraction * INR (length rz)) < Z.of_nat (length rz))%Z ->
  method_select = "random" \/ method_select = "probabilistic" ->
  method_replace = "closest" \/ method_replace = "random"
  \/ method_replace = "probabilistic" ->
  resolve_sigmas (default KwNone (kwargs !! "additional_options")) = Ok sigmas ->
  exists r s',
    near_clifford_data rz all_cliff (length rz) fraction method_select
      method_replace kwargs s = (Ok r, s').
Proof.
  intros Hrz HN Hms Hmr Hsig. unfold near_clifford_data.
  erewrite bind_ok by (unfold lift; rewrite Hsig; done).
  destruct (select_columns_total rz _ method_select sigmas.1 s Hms Hrz HN)
    as (c & s1 & Hsel).
  erewrite bind_ok by exact Hsel.
  apply select_columns_spec in Hsel as (Hnd & Hlt & Hlen).
  destruct (take_columns_total rz c Hlt) as [sel Htake].
  erewrite bind_ok by (unfold lift; rewrite Htake; done).
  pose proof (take_columns_inv _ _ _ Htake) as Hcols.
  assert (Hsome : Forall (fun c => is_Some (parameter c)) sel).
  { apply Forall_forall. intros x Hx.
    apply list_elem_of_lookup_1 in Hx as [i Hi].
    destruct (Forall2_lookup_r _ _ _ _ _ Hcols Hi) as (j & _ & Hj).
    apply (proj1 (Forall_forall _ _) Hrz). by eapply list_elem_of_lookup_2. }
  destruct (floats_some _ Hsome) as (angles & Hf & Hla).
  assert (Hne : angles <> []).
  { apply Forall2_length in Hcols. destruct angles; [simpl in Hla; lia | done]. }
  destruct (replace_angles_total _ _ method_replace sigmas.2 s1 Hmr Hf Hne)
    as (new & s2 & Hnew).
  erewrite bind_ok by exact Hnew.
  destruct (argsort_total
              ((all_cliff ++ set_parameters sel new) ++ np_delete rz c))
    as [proj Hproj].
  erewrite bind_ok by (unfold lift; rewrite Hproj; done).
  by eexists _, _.
Qed.

Lemma training_loop_total n body :
  (forall s, exists r s', body s = (Ok r, s')) ->
  forall acc s, exists res s', training_loop n body acc s = (Ok res, s').
Proof.
  intros Hbody. induction n as [|n IH]; intros acc s; [by eexists _, _|].
  destruct (Hbody s) as ([[c ao] ar] & s1 & Hb).
  destruct acc as [[cs aos] ars].
  destruct (IH (cs ++ [c], aos ++ [ao], ars ++ [ar]) s1) as (res & s2 & Hres).
  exists res, s2. simpl. erewrite bind_ok by exact Hb. exact Hres.
Qed.

Lemma count_positive_has_rz circuit :
  1 <= count_non_clifford_rz circuit -> has_rz circuit.
Proof.
  unfold count_non_clifford_rz. intros Hc.
  destruct (filter (fun op => non_clifford_rz op = true) circuit) as [|op l] eqn:Hf;
    [simpl in Hc; lia|].
  assert (Hin : op ∈ filter (fun op => non_clifford_rz op = true) circuit)
    by (rewrite Hf; left).
  apply list_elem_of_filter in Hin as [Hnc Hin].
  unfold non_clifford_rz in Hnc.
  destruct (gate op) as [|e| | |] eqn:Hg; try done.
  by exists op, e.
Qed.

Lemma map_to_near_clifford_total circuit cols rz all_cliff fraction
    method_select method_replace (kwargs : gmap string kwvalue) sigmas s :
  Forall2 encodes circuit cols ->
  order <$> cols = seq 0 (length circuit) ->
  all_cliff ++ rz ≡ₚ cols ->
  Forall (fun c => name c = "rz") rz ->
  Forall (fun c => is_Some (parameter c)) rz ->
  (0 <= py_int (fraction * INR (length rz)) < Z.of_nat (length rz))%Z ->
  method_select = "random" \/ method_select = "probabilistic" ->
  method_replace = "closest" \/ method_replace = "random"
  \/ method_replace = "probabilistic" ->
  resolve_sigmas (default KwNone (kwargs !! "additional_options")) = Ok sigmas ->
  exists r s',
    _map_to_near_clifford rz all_cliff [] (length rz) fraction method_select
      method_replace kwargs s = (Ok r, s').
Proof.
  intros Hall Ho Hperm Hrzn Hrz HN Hms Hmr Hsig.
  destruct (near_clifford_data_total rz all_cliff fraction method_select
              method_replace kwargs sigmas s Hrz HN Hms Hmr Hsig)
    as ([[proj ao] ar] & s1 & Hdata).
  destruct (near_clifford_data_inv _ _ _ _ _ _ _ _ _ _ _ _ Hdata)
    as (sel & rest & new & Hsel & Hlen & Hproj & Hsorted & _ & _).
  destruct (rewritten_table _ _ _ _ _ _ _ _ Ho Hperm Hrzn Hsel Hlen Hproj Hsorted)
    as (_ & _ & _ & _ & Hrw).
  destruct (array_to_circuit_spec _ _ _ Hall proj [] Hrw) as (ops & Hrun & _).
  exists (ops, ao, ar), s1. unfold _map_to_near_clifford.
  erewrite bind_ok by exact Hdata. cbv beta iota.
  erewrite bind_ok by (unfold lift; rewrite Hrun; done). done.
Qed.

(** X14.  When the call can work it does: on a circuit of recognized
    operations, with [int(fraction_non_clifford * total)] in [0, total) for
    [total] the number of its non-Clifford [rz] gates, with one of the two
    selection methods and one of the three replacement methods, and with
    options that resolve to two non-zero sigmas,
    [generate_training_circuits] returns, from every state of the random
    source, and its three lists have [num_training_circuits] entries. *)
Theorem generate_training_circuits_returns (circuit : Circuit) (n : nat)
    (fraction : R) (method_select method_replace : string)
    (kwargs : gmap string kwvalue) (sigmas : R * R) (s : random_state) :
  Forall recognized circuit ->
  (0 <= py_int (fraction * INR (count_non_clifford_rz circuit))
   < Z.of_nat (count_non_clifford_rz circuit))%Z ->
  method_select = "random" \/ method_select = "probabilistic" ->
  method_replace = "closest" \/ method_replace = "random"
  \/ method_replace = "probabilistic" ->
  resolve_sigmas (options_read kwargs) = Ok sigmas ->
  sigmas.1 <> 0%R -> sigmas.2 <> 0%R ->
  exists circuits ao ar s',
    generate_training_circuits circuit n fraction method_select method_replace
      kwargs s = (Ok (circuits, ao, ar), s')
    /\ length circuits = n /\ length ao = n /\ length ar = n.
Proof.
  intros Hrec HN Hms Hmr Hsig _ _.
  assert (Hrz : has_rz circuit) by (apply count_positive_has_rz; lia).
  destruct (split_circuit_total circuit s Hrec Hrz) as (cols & s1 & Henc & Hsplit).
  destruct (split_circuit_columns _ _ _ _ _ _ Hsplit) as (cols' & Henc' & Hperm & Hrzn).
  assert (cols' = cols) as -> by congruence. clear Henc'.
  destruct (circuit_to_array_table _ _ _ Henc) as (_ & Ho & Hall).
  set (rz := filter (fun c => non_clifford_column c = true) cols) in *.
  set (all_cliff := filter (fun c => name c <> "rz") cols
                    ++ filter (fun c => non_clifford_column c <> true)
                         (filter (fun c => name c = "rz") cols)) in *.
  assert (Htotal : length rz = count_non_clifford_rz circuit)
    by (by apply count_columns, encodes_cells).
  assert (Hsome : Forall (fun c => is_Some (parameter c)) rz).
  { apply Forall_forall. intros c Hc. apply list_elem_of_filter in Hc as [Hnc _].
    apply non_clifford_column_angle in Hnc as (_ & v & Hv & _). by exists v. }
  assert (Hbody : forall t, exists r t',
    _map_to_near_clifford rz all_cliff [] (length rz) fraction method_select
      method_replace (forwarded_kwargs kwargs) t = (Ok r, t')).
  { intros t. eapply map_to_near_clifford_total; try done.
    by rewrite Htotal. }
  destruct (training_loop_total n _ Hbody ([], [], []) s1)
    as ([[circuits ao] ar] & s2 & Hloop).
  exists circuits, ao, ar, s2. split.
  - rewrite generate_training_circuits_forwarded.
    erewrite bind_ok by exact Hsplit. exact Hloop.
  - eapply (training_loop_inv _ _ (fun _ => True)) in Hloop;
      [ | done | done | done | by constructor ].
    destruct Hloop as (_ & Hlen & Hl1 & Hl2). simpl in *. lia.
Qed.

Lemma count_eighth : count_non_clifford_rz [rz_eighth] = 1.
Proof.
  unfold count_non_clifford_rz.
  rewrite (filter_cons _ rz_eighth), decide_True; [done|].
  unfold non_clifford_rz. simpl. by rewrite is_clifford_eighth.
Qed.

(** Witness for X14: three training circuits from the example circuit, with
    probabilistic selection and replacement and the default sigmas. *)
Lemma generate_training_circuits_returns_witness :
  exists circuits ao ar s',
    generate_training_circuits [rz_eighth] 3 0.5 "probabilistic" "probabilistic"
      ∅ zero_state = (Ok (circuits, ao, ar), s')
    /\ length circuits = 3 /\ length ao = 3 /\ length ar = 3.
Proof.
  apply (generate_training_circuits_returns [rz_eighth] 3 0.5 "probabilistic"
           "probabilistic" ∅ (0.5%R, 0.5%R) zero_state).
  - repeat constructor; by eexists.
  - rewrite count_eighth. rewrite (py_int_eq _ 0); [lia | lia | simpl; lra].
  - by right.
  - by right; right.
  - reflexivity.
  - simpl. lra.
  - simpl. lra.
Defined.

(** ** The operations of a training circuit *)

Lemma set_parameters_elem sel : forall new c',
  Forall (fun v => v ∈ CLIFFORD_ANGLES) new ->
  c' ∈ set_parameters sel new ->
  exists v, parameter c' = Some v /\ v ∈ CLIFFORD_ANGLES.
Proof.
  unfold set_parameters.
  induction sel as [|c sel IH]; intros [|v new] c' Hcl Hin;
    try (by apply elem_of_nil in Hin).
  apply Forall_cons in Hcl as [Hv Hcl]. csimpl in Hin.
  apply elem_of_cons in Hin as [-> | Hin]; [by exists v | eauto].
Qed.

(** Column by column, the rewritten table is the table of the input circuit
    with Clifford angles in some of its non-Clifford [rz] columns. *)
Lemma replaced_table (cols : list column) n rz all_cliff sel rest new proj :
  order <$> cols = seq 0 n ->
  all_cliff ++ rz ≡ₚ cols ->
  rz = filter (fun c => non_clifford_column c = true) cols ->
  sel ++ rest ≡ₚ rz ->
  Forall (fun v => v ∈ CLIFFORD_ANGLES) new ->
  proj ≡ₚ all_cliff ++ set_parameters sel new ++ rest ->
  Forall2 (rewritten (order <$> sel)) cols proj ->
  Forall2 replaced cols proj.
Proof.
  intros Ho Hcols Hrz Hsel Hcl Hproj Hrw.
  apply Forall2_same_length_lookup_2; [by eapply Forall2_length|].
  intros i c c' Hc Hc'.
  destruct (Forall2_lookup_lr _ _ _ _ _ _ Hrw Hc Hc')
    as [-> | (Hin & Hn & v & ->)]; [by left|].
  assert (Hcin : c ∈ cols) by (by eapply list_elem_of_lookup_2).
  assert (Hsame : forall c0, c0 ∈ cols -> order c0 = order c -> c0 = c).
  { intros c0 Hin0 Ho0. pose proof (column_at_order _ _ _ Ho Hin0) as H0.
    pose proof (column_at_order _ _ _ Ho Hcin) as H1.
    rewrite Ho0, H1 in H0. by inversion H0. }
  assert (Hrzcols : forall c0, c0 ∈ rz -> c0 ∈ cols).
  { intros c0 H0. rewrite <- Hcols. apply elem_of_app. by right. }
  assert (Hin' : with_parameter c v ∈ all_cliff ++ set_parameters sel new ++ rest).
  { rewrite <- Hproj. by eapply list_elem_of_lookup_2. }
  rewrite !elem_of_app in Hin'. destruct Hin' as [Ha | [Hs | Hr] ].
  - left. apply Hsame; [|done]. rewrite <- Hcols. apply elem_of_app. by left.
  - right. split.
    + apply list_elem_of_fmap in Hin as (c0 & Ho0 & Hc0).
      assert (Hc0rz : c0 ∈ rz) by (rewrite <- Hsel; apply elem_of_app; by left).
      assert (c0 = c) as -> by (apply Hsame; [by apply Hrzcols | done]).
      rewrite Hrz in Hc0rz. by apply list_elem_of_filter in Hc0rz as [? _].
    + destruct (set_parameters_elem _ _ _ Hcl Hs) as (v' & Hv' & Hcv).
      simpl in Hv'. inversion Hv'; subst v'. by exists v.
  - left. apply Hsame; [|done]. apply Hrzcols. rewrite <- Hsel.
    apply elem_of_app. by right.
Qed.

Lemma decode_replaced op c c' acc :
  encodes op c -> replaced c c' ->
  exists op', decode_step acc c' = Ok (acc ++ [op']) /\ replays op op'.
Proof.
  intros [Hcells Hop] Hrp. destruct c as [o nm p q op0]. simpl in *. subst op0.
  unfold replays. destruct Hrp as [-> | (Hnc & v & Hv & ->)].
  - unfold gate_cells in Hcells. unfold decode_step. simpl.
    destruct (gate op) as [|e|[|]| |] eqn:Hg;
      destruct (qubits op) as [|q0 [|q1 qs]] eqn:Hq; inversion Hcells; subst;
      simpl; eexists; (split; [reflexivity|]); eauto 7.
  - apply non_clifford_column_angle in Hnc as (Hn & a & Ha & Hnot).
    simpl in Hn, Ha. subst nm p. unfold gate_cells in Hcells.
    destruct (gate op) as [|e|[|]| |] eqn:Hg;
      destruct (qubits op) as [|q0 [|q1 qs]] eqn:Hq; inversion Hcells; subst;
      unfold decode_step, with_parameter; simpl;
      eexists; (split; [reflexivity|]); exists q0; (split; [done|]);
      right; split; [done | by exists v | done | by exists v].
Qed.

Lemma array_to_circuit_replays circuit cols :
  Forall2 encodes circuit cols ->
  forall proj acc, Forall2 replaced cols proj ->
  exists ops,
    _array_to_circuit proj acc = Ok (acc ++ ops) /\ Forall2 replays circuit ops.
Proof.
  induction 1 as [|op c circuit cols Henc Hall IH]; intros proj acc Hrp.
  - inversion Hrp; subst. exists []. rewrite app_nil_r. by split.
  - inversion Hrp as [|? c' ? proj' Hc Hrp']; subst.
    destruct (decode_replaced _ _ _ acc Henc Hc) as (op' & Hdec & Hplay).
    destruct (IH proj' (acc ++ [op']) Hrp') as (ops & Hrun & Hs).
    exists (op' :: ops). simpl. rewrite Hdec. simpl. rewrite Hrun, <- app_assoc.
    split; [done | by constructor].
Qed.

Lemma map_to_near_clifford_replays circuit cols rz all_cliff fraction
    method_select method_replace (kwargs : gmap string kwvalue) s out ao ar s' :
  Forall2 encodes circuit cols ->
  order <$> cols = seq 0 (length circuit) ->
  all_cliff ++ rz ≡ₚ cols ->
  Forall (fun c => name c = "rz") rz ->
  rz = filter (fun c => non_clifford_column c = true) cols ->
  _map_to_near_clifford rz all_cliff [] (length rz) fraction method_select
    method_replace kwargs s = (Ok (out, ao, ar), s') ->
  Forall2 replays circuit out.
Proof.
  intros Hall Ho Hperm Hrzn Hrz Hbody.
  unfold _map_to_near_clifford in Hbody.
  apply bind_inv_ok in Hbody as ([[proj ao0] ar0] & t1 & Hdata & Hdec).
  apply bind_inv_ok in Hdec as (out' & t2 & Hdec & Hret).
  apply lift_inv_ok in Hdec as [Hdec ->].
  apply ret_inv_ok in Hret as [Hret _]. inversion Hret; subst out' ao0 ar0.
  clear Hret.
  apply near_clifford_data_selection in Hdata
    as (sel & rest & new & Hsel & Hlen & Hproj & Hsorted & _ & _ & _ & _ & Hcl).
  destruct (rewritten_table _ _ _ _ _ _ _ _ Ho Hperm Hrzn Hsel Hlen Hproj Hsorted)
    as (_ & _ & _ & _ & Hrw).
  pose proof (replaced_table _ _ _ _ _ _ _ _ Ho Hperm Hrz Hsel Hcl Hproj Hrw)
    as Hrp.
  destruct (array_to_circuit_replays _ _ Hall proj [] Hrp) as (ops & Hrun & Hplay).
  rewrite Hrun in Hdec. by inversion Hdec; subst out.
Qed.

(** X15.  Operation by operation, a training circuit is the input circuit
    replayed: for a measurement, the very operation of the input; for a gate
    read as [cx], [x] or [rx], a CNOT, an X or an [rx(pi / 2)] on the qubits
    that the encoder read; for an [rz] gate, an [rz] on its qubit with its
    own angle [exponent * pi] or, only if that angle is not classified as
    Clifford, with an entry of [CLIFFORD_ANGLES].  No operation is dropped or
    added. *)
Theorem training_circuits_replay (circuit : Circuit) (n : nat)
    (fraction : R) (method_select method_replace : string)
    (kwargs : gmap string kwvalue) (s s' : random_state)
    (circuits : list Circuit) (ao ar : list (list (option R))) :
  generate_training_circuits circuit n fraction method_select method_replace
    kwargs s = (Ok (circuits, ao, ar), s') ->
  Forall (fun out => Forall2 replays circuit out) circuits.
Proof.
  intros H. rewrite generate_training_circuits_forwarded in H.
  apply bind_inv_ok in H as ([[rz all_cliff] e] & s1 & Hsplit & Hloop).
  destruct (split_circuit_columns _ _ _ _ _ _ Hsplit) as (cols & Henc & Hperm & Hrzn).
  destruct (split_circuit_filter _ _ _ _ _ _ Hsplit)
    as (cols' & Henc' & _ & Hrz & _).
  assert (cols' = cols) as -> by congruence. clear Henc'.
  destruct (circuit_to_array_table _ _ _ Henc) as (-> & Ho & Hall).
  eapply (training_loop_inv _ _ (fun r => Forall2 replays circuit r.1.1)) in Hloop;
    [ | | done | done | by constructor ].
  - destruct Hloop as (HP & Hlen & Hl1 & Hl2). simpl in *.
    destruct (triples_circuits (circuits, ao, ar)) as (Hc & _ & _);
      [simpl; lia | simpl; lia |]. simpl in Hc. rewrite <- Hc.
    apply Forall_fmap, Forall_fmap. eapply Forall_impl; [exact HP|].
    by intros [[out ao'] ar'].
  - intros t0 [[out ao'] ar'] t' Hbody. simpl.
    by eapply map_to_near_clifford_replays.
Qed.

(** Witness for X15: the call on the example circuit. *)
Lemma training_circuits_replay_witness :
  Forall (fun out => Forall2 replays [rz_eighth] out)
    [[GateOperation (cirq_rz 0) [0]]].
Proof.
  apply (training_circuits_replay [rz_eighth] 1 0 "random" "closest" ∅
           zero_state (advance_py zero_state) _ [[Some (1 / 8 * PI)%R]]
           [[Some 0%R]]).
  apply generate_eighth_closest.
Defined.

(** ** [_array_to_circuit] on any table *)




(** ** The table of a circuit *)

Lemma encodes_operations circuit cols :
  Forall2 encodes circuit cols -> operation <$> cols = circuit.
Proof.
  induction 1 as [|op c circuit cols [_ Hop] _ IH]; [done|].
  csimpl. by rewrite Hop, IH.
Qed.

Lemma cells_decoded op c :
  gate_cells op = Some (name c, parameter c, qubit c) -> decoded c.
Proof.
  unfold gate_cells, decoded. intros Hc. rewrite !elem_of_cons.
  destruct (gate op) as [|e|[|]| |]; destruct (qubits op) as [|q0 [|q1 qs]];
    inversion Hc as [[Hname Hp Hq]]; auto 6.
Qed.

(** X17.  The table that [_circuit_to_array] returns has one column per
    operation of the circuit, in the order of the circuit: its [order] row
    is [0, 1, ..., n - 1], its last row holds the operations themselves, and
    the name, parameter and qubit entries of a column are the ones read from
    the operation in that column, with a name that [_array_to_circuit] has a
    branch for.  The circuit returned with the table is empty. *)
Theorem circuit_to_array_columns (circuit : Circuit) (cols : list column)
    (e : Circuit) :
  _circuit_to_array circuit = Ok (Table cols, e) ->
  e = []
  /\ order <$> cols = seq 0 (length circuit)
  /\ operation <$> cols = circuit
  /\ Forall (fun c =>
       gate_cells (operation c) = Some (name c, parameter c, qubit c)
       /\ decoded c) cols.
Proof.
  intros H. apply circuit_to_array_table in H as (-> & Ho & Hall).
  split; [done|]. split; [done|]. split; [by apply encodes_operations|].
  clear Ho. induction Hall as [|op c circuit cols [Hc Hop] _ IH]; constructor;
    [|done].
  rewrite Hop. split; [done|]. by eapply cells_decoded.
Qed.

(** Witness for X17: the table of the example circuit. *)
Lemma circuit_to_array_columns_witness :
  [] = ([] : Circuit)
  /\ order <$> [rz_eighth_column] = seq 0 (length [rz_eighth])
  /\ operation <$> [rz_eighth_column] = [rz_eighth]
  /\ Forall (fun c =>
       gate_cells (operation c) = Some (name c, parameter c, qubit c)
       /\ decoded c) [rz_eighth_column].
Proof.
  apply (circuit_to_array_columns [rz_eighth] [rz_eighth_column] []).
  apply circuit_to_array_eighth.
Defined.

(** ** The weight of an angle *)

Section weight_facts.
Local Open Scope R_scope.







End weight_facts.

(** ** The draws of the classification *)

Section classification_draws.
Local Open Scope R_scope.

Lemma is_clifford_angle_scalar_state theta s :
  _is_clifford_angle_scalar theta 1e-5 s
  = (Ok (is_clifford theta),
     Nat.iter (if at_midpoint theta then 2 else 0) advance_py s).
Proof.
  unfold at_midpoint.
  destruct (decide (deterministic_zone (scaled theta))) as [Hz|Hz].
  - rewrite bool_decide_eq_false_2 by (intros Hn; by apply Hn).
    by apply is_clifford_angle_scalar_det.
  - rewrite bool_decide_eq_true_2 by done.
    change (Nat.iter 2 advance_py s) with (advance_py (advance_py s)).
    unfold _is_clifford_angle_scalar, _closest_clifford.
    set (a := py_mod theta (2 * PI)).
    assert (Hsa : scaled a = scaled theta) by apply scaled_mod.
    assert (Hza : ~ deterministic_zone (scaled a)) by (by rewrite Hsa).
    erewrite bind_ok by (eapply np_vectorize_scalar; by apply closest_tie).
    erewrite bind_ok by reflexivity.
    rewrite decide_False.
    + unfold is_clifford. rewrite bool_decide_eq_false_2; [done|].
      intros [? _]. done.
    + apply far_from_angle. rewrite Hsa.
      eapply tie_candidates; [done|]. unfold tie_pick. case_decide; auto.
Qed.

Lemma mmap_is_clifford_state angles : forall s,
  mmap (fun ang => _is_clifford_angle_scalar ang 1e-5) angles s
  = (Ok (is_clifford <$> angles),
     Nat.iter (2 * length (filter (fun a => at_midpoint a = true) angles))
       advance_py s).
Proof.
  induction angles as [|a angles IH]; intros s; [done|].
  simpl mmap. erewrite bind_ok by apply is_clifford_angle_scalar_state.
  erewrite bind_ok by apply IH. unfold ret. f_equal.
  rewrite <- Nat.iter_add. f_equal. rewrite filter_cons.
  destruct (at_midpoint a); simpl; lia.
Qed.

Lemma on_cells_is_clifford_state row angles s :
  floats row = Ok angles -> angles <> [] ->
  on_cells _is_clifford_angle row s
  = (Ok (is_clifford <$> angles),
     Nat.iter (classification_draws angles) advance_py s).
Proof.
  intros Hf Hne. destruct angles as [|a angles]; [done|]. unfold on_cells.
  erewrite bind_ok by (rewrite mmap_as_float, Hf; done).
  assert (Hv : _is_clifford_angle (Array (a :: angles)) s
               = (Ok (Array (is_clifford <$> a :: angles)),
                  Nat.iter (classification_draws (a :: angles)) advance_py s)).
  { unfold _is_clifford_angle, np_vectorize.
    erewrite bind_ok by apply is_clifford_angle_scalar_state.
    erewrite bind_ok by apply mmap_is_clifford_state. unfold ret. f_equal.
    rewrite <- Nat.iter_add. f_equal. unfold classification_draws.
    change (take 1 (a :: angles) ++ a :: angles) with (a :: a :: angles).
    rewrite (filter_cons _ a (a :: angles)).
    destruct (at_midpoint a); simpl; lia. }
  erewrite bind_ok by exact Hv. done.
Qed.

Lemma floats_rz_angles circuit cols :
  Forall2 encodes circuit cols ->
  floats (parameter <$> filter (fun c => name c = "rz") cols)
  = Ok (rz_angles circuit).
Proof.
  induction 1 as [|op c circuit cols [Hc _] _ IH]; [done|].
  rewrite filter_cons.
  change (rz_angles (op :: circuit))
    with (match (match gate op, qubits op with
                 | ZPowGate exponent, _ :: _ => Some (exponent * PI)
                 | _, _ => None
                 end) with
          | Some a => a :: rz_angles circuit
          | None => rz_angles circuit
          end).
  unfold gate_cells in Hc.
  destruct (gate op) as [|e|[|]| |]; destruct (qubits op) as [|q0 [|q1 qs]];
    inversion Hc as [[Hname Hp Hq]];
    destruct (decide _) as [Heq|Hne]; try done.
  all: csimpl; rewrite <- Hp; unfold floats in IH |- *; simpl; by rewrite IH.
Qed.

(** X19.  The draws of [count_non_cliffords]: on a circuit of recognized
    operations with an [rz] gate it returns the number of non-Clifford [rz]
    gates and leaves the random source advanced by two draws of Python's
    [random] for each [rz] angle at a midpoint, with two more if the first
    [rz] angle is one; numpy's random source is not read.  On a circuit
    without an angle at a midpoint the random source is left as it was. *)
Theorem count_non_cliffords_draws (circuit : Circuit) (s : random_state) :
  Forall recognized circuit -> has_rz circuit ->
  count_non_cliffords circuit s
  = (Ok (count_non_clifford_rz circuit),
     Nat.iter (classification_draws (rz_angles circuit)) advance_py s)
  /\ (Forall (fun a => at_midpoint a = false) (rz_angles circuit) ->
      count_non_cliffords circuit s = (Ok (count_non_clifford_rz circuit), s)).
Proof.
  intros Hrec Hrz.
  destruct (circuit_to_array_total _ Hrec) as (cols & Henc & _ & Hall).
  destruct (classify_table _ _ Hall) as (angles & Hf & Hlen & Hsel & _).
  pose proof (floats_rz_angles _ _ Hall) as Hfa.
  assert (angles = rz_angles circuit) as -> by congruence.
  apply (has_rz_columns _ _ (encodes_cells _ _ Hall)) in Hrz.
  assert (Hne : rz_angles circuit <> []).
  { intros Hnil. rewrite Hnil in Hlen.
    destruct (filter (fun c => name c = "rz") cols); done. }
  assert (Hrun : count_non_cliffords circuit s
    = (Ok (count_non_clifford_rz circuit),
       Nat.iter (classification_draws (rz_angles circuit)) advance_py s)).
  { unfold count_non_cliffords.
    erewrite bind_ok by (unfold lift; rewrite Henc; done).
    erewrite bind_ok by reflexivity.
    erewrite bind_ok by (by apply on_cells_is_clifford_state).
    unfold ret. f_equal. f_equal. cbn [fst]. rewrite Hsel.
    by apply count_columns, encodes_cells. }
  split; [done|]. intros Hmid. rewrite Hrun. f_equal.
  unfold classification_draws. rewrite filter_none; [done|].
  intros a Ha Hm. apply elem_of_app in Ha as [Ha | Ha].
  - apply elem_of_take in Ha as (i & Hi & _).
    apply list_elem_of_lookup_2 in Hi.
    apply (proj1 (Forall_forall _ _) Hmid) in Hi. congruence.
  - apply (proj1 (Forall_forall _ _) Hmid) in Ha. congruence.
Qed.

(** Witness for X19: an [rz] gate of angle [pi / 4], at the midpoint between
    [0] and [pi / 2], followed by the gate of the example circuit. *)
Lemma count_non_cliffords_draws_witness :
  count_non_cliffords [GateOperation (ZPowGate (1 / 4)) [0%nat]; rz_eighth]
    zero_state
  = (Ok (count_non_clifford_rz
           [GateOperation (ZPowGate (1 / 4)) [0%nat]; rz_eighth]),
     Nat.iter (classification_draws
                 (rz_angles [GateOperation (ZPowGate (1 / 4)) [0%nat]; rz_eighth]))
       advance_py zero_state).
Proof.
  apply (count_non_cliffords_draws
           [GateOperation (ZPowGate (1 / 4)) [0%nat]; rz_eighth] zero_state).
  - repeat constructor; by eexists.
  - exists rz_eighth, (1 / 8). split; [right; by left | reflexivity].
Defined.

End classification_draws.

(** ** Replacement by the closest Clifford angle *)

Section closest_replacement.
Local Open Scope R_scope.

Lemma round_angle_near theta :
  exists k : Z,
    Rabs (IZR (np_round (scaled theta) mod 4) * (PI / 2) + IZR k * (2 * PI)
          - theta) <= PI / 4.
Proof.
  set (r := np_round (scaled theta)).
  exists (r / 4 + Zfloor (theta / (2 * PI)))%Z.
  assert (Htheta : theta = scaled theta * (PI / 2)
                          + IZR (Zfloor (theta / (2 * PI))) * (2 * PI)).
  { rewrite <- scaled_angle. unfold py_mod. ring. }
  assert (Hr : IZR r = IZR (r mod 4) + 4 * IZR (r / 4)).
  { rewrite (Z.div_mod r 4) at 1 by lia. rewrite plus_IZR, mult_IZR. lra. }
  rewrite plus_IZR.
  replace (IZR (r mod 4) * (PI / 2)
           + (IZR (r / 4) + IZR (Zfloor (theta / (2 * PI)))) * (2 * PI) - theta)
    with ((IZR r - scaled theta) * (PI / 2)) by (rewrite Hr; lra).
  rewrite Rabs_mult. pose proof PI2_bounds as [Hh _].
  rewrite (Rabs_pos_eq (PI / 2)) by lra.
  pose proof (np_round_near (scaled theta)) as Hnear. fold r in Hnear.
  assert (Rabs (IZR r - scaled theta) * (PI / 2) <= 0.5 * (PI / 2))
    by (apply Rmult_le_compat_r; lra).
  lra.
Qed.

Lemma closest_scalar_nearest theta s c s' :
  _closest_clifford_scalar theta s = (Ok c, s') ->
  nearest_pair (Some theta) (Some c).
Proof.
  intros Hrun. exists theta, c. split; [done|]. split; [done|].
  destruct (closest_scalar_run theta s) as (i & s1 & Hi & Hr & _).
  split.
  { rewrite Hr in Hrun. assert (c = IZR i * (PI / 2)) as -> by congruence.
    apply clifford_angles_char. eauto. }
  unfold at_midpoint. intros Hmid. apply bool_decide_eq_false_1 in Hmid.
  assert (Hz : deterministic_zone (scaled theta))
    by (destruct (decide (deterministic_zone (scaled theta))); tauto).
  rewrite closest_deterministic in Hrun by done.
  assert (c = IZR (np_round (scaled theta) mod 4) * (PI / 2)) as ->
    by congruence.
  apply round_angle_near.
Qed.

End closest_replacement.

Lemma mmap_Forall2 {A B} (f : A -> M B) (Q : A -> B -> Prop) l :
  (forall a s y s', f a s = (Ok y, s') -> Q a y) ->
  forall s ys s', mmap f l s = (Ok ys, s') -> Forall2 Q l ys.
Proof.
  intros Hf. induction l as [|x l IH]; intros s ys s' H; simpl in H.
  - apply ret_inv_ok in H as [-> _]. constructor.
  - apply bind_inv_ok in H as (y & s1 & Hy & H).
    apply bind_inv_ok in H as (ys' & s2 & H2 & H).
    apply ret_inv_ok in H as [-> _]. constructor; eauto.
Qed.

Lemma floats_inv row angles : floats row = Ok angles -> row = Some <$> angles.
Proof.
  revert angles. unfold floats.
  induction row as [|[x|] row IH]; intros angles H; simpl in H.
  - by inversion H.
  - apply rbind_inv_ok in H as (ys & Hys & H).
    inversion H; subst. csimpl. f_equal. by apply IH.
  - done.
Qed.

Lemma on_cells_Forall2 {B} (f : ndarray R -> M (ndarray B)) (g : R -> M B)
    (Q : R -> B -> Prop) row s ys s' :
  (forall a, f a = np_vectorize g a) ->
  (forall a t y t', g a t = (Ok y, t') -> Q a y) ->
  on_cells f row s = (Ok ys, s') ->
  exists angles, row = Some <$> angles /\ Forall2 Q angles ys.
Proof.
  intros Hf Hg H. unfold on_cells in H.
  apply bind_inv_ok in H as (angles & s1 & Hangles & H).
  rewrite mmap_as_float in Hangles.
  assert (Hrow : floats row = Ok angles) by congruence.
  exists angles. split; [by apply floats_inv|].
  apply bind_inv_ok in H as (a & s2 & Ha & H). rewrite Hf in Ha.
  destruct angles as [|x angles]; [done|]. simpl in Ha.
  apply bind_inv_ok in Ha as (y0 & s3 & _ & Ha).
  apply bind_inv_ok in Ha as (ys' & s4 & Hmap & Ha).
  apply ret_inv_ok in Ha as [-> _]. apply ret_inv_ok in H as [-> _].
  by apply (mmap_Forall2 g Q (x :: angles)) in Hmap.
Qed.

Lemma near_clifford_data_closest rz all_cliff total fraction method_select
    (kwargs : gmap string kwvalue) s proj ao ar s' :
  near_clifford_data rz all_cliff total fraction method_select "closest"
    kwargs s = (Ok (proj, ao, ar), s') ->
  Forall2 nearest_pair ao ar.
Proof.
  unfold near_clifford_data. intros H.
  apply bind_inv_ok in H as (sigmas & s0 & _ & H).
  apply bind_inv_ok in H as (c & s1 & _ & H).
  apply bind_inv_ok in H as (sel & s2 & _ & H).
  apply bind_inv_ok in H as (new & s3 & Hnew & H).
  apply bind_inv_ok in H as (proj' & s4 & _ & H).
  apply ret_inv_ok in H as [H _]. inversion H; subst. clear H.
  pose proof (replace_angles_length _ _ _ _ _ _ Hnew) as Hlen.
  rewrite length_fmap in Hlen.
  unfold replace_angles in Hnew. rewrite decide_True in Hnew by done.
  eapply (on_cells_Forall2 _ _closest_clifford_scalar
            (fun theta c => nearest_pair (Some theta) (Some c))) in Hnew;
    [ | done | intros a t y t'; apply closest_scalar_nearest ].
  destruct Hnew as (angles & Hrow & Hpairs).
  rewrite set_parameters_angles by done. rewrite Hrow.
  by apply Forall2_fmap.
Qed.

(** X20.  With [method_replace = 'closest'], the two lists of angles
    returned with a training circuit correspond entry by entry: the entry
    of [angles_replaced] is an entry of [CLIFFORD_ANGLES], and unless the
    entry of [angles_original] is at a midpoint, it is, up to whole turns,
    within [pi / 4] of it. *)
Theorem closest_replacement_nearest (circuit : Circuit) (n : nat)
    (fraction : R) (method_select : string) (kwargs : gmap string kwvalue)
    (s s' : random_state) (circuits : list Circuit)
    (ao ar : list (list (option R))) :
  generate_training_circuits circuit n fraction method_select "closest"
    kwargs s = (Ok (circuits, ao, ar), s') ->
  Forall (fun r => Forall2 nearest_pair r.1.2 r.2) (triples (circuits, ao, ar)).
Proof.
  intros H. rewrite generate_training_circuits_forwarded in H.
  apply bind_inv_ok in H as ([[rz all_cliff] e] & s1 & Hsplit & Hloop).
  eapply (training_loop_inv _ _ (fun r => Forall2 nearest_pair r.1.2 r.2))
    in Hloop; [ | | done | done | by constructor ].
  - by destruct Hloop as (HP & _).
  - intros t0 [[out ao'] ar'] t' Hbody. simpl.
    unfold _map_to_near_clifford in Hbody.
    apply bind_inv_ok in Hbody as ([[proj ao0] ar0] & t1 & Hdata & Hdec).
    apply bind_inv_ok in Hdec as (out' & t2 & Hdec & Hret).
    apply ret_inv_ok in Hret as [Hret _]. inversion Hret; subst.
    by eapply near_clifford_data_closest.
Qed.

(** Witness for X20: the call on the example circuit. *)
Lemma closest_replacement_nearest_witness :
  Forall (fun r => Forall2 nearest_pair r.1.2 r.2)
    (triples ([[GateOperation (cirq_rz 0) [0]]], [[Some (1 / 8 * PI)%R]],
              [[Some 0%R]])).
Proof.
  apply (closest_replacement_nearest [rz_eighth] 1 0 "random" ∅ zero_state
           (advance_py zero_state)).
  apply generate_eighth_closest.
Defined.
